(** * gh-hookmon: the delivery pipeline, embedded and verified

    A shallow embedding of the Go sources of gh-hookmon
    ([cmd/root.go], [internal/config/flags.go], [internal/filter/*.go],
    [internal/github/*.go], [internal/output/*.go]) together with the
    parts of the Go standard library they call ([strings], [time],
    [sort]), followed by the vocabulary of the properties, the
    properties of the pipeline stated in the specification, and further
    properties of the code.

    Conventions.
    - A Go [string] is a sequence of bytes: Rocq's [string].
    - A Go [int] is a 64-bit integer.  The sources only compare such
      values, so they are carried as [Z]; lengths and indices are [nat].
    - A Go [error] result is [option error] ([None] is [nil]); a pair
      [(T, error)] is [result T].
    - A [*time.Time] is [option Time] ([None] is the nil pointer). *)

From stdpp Require Import gmap strings list sorting pretty.
From Stdlib Require Import ZArith Lia Ascii.
From Stdlib Require OrderedTypeEx.

Local Open Scope string_scope.
Local Open Scope Z_scope.
Local Open Scope list_scope.

(** ** Errors *)

(** An [error] value: a message, or a message wrapping another error
    ([fmt.Errorf] with [%w] or [%v]); formatted arguments other than the
    wrapped error are left out of the text. *)
Inductive error : Type :=
  | Errorf (msg : string)
  | Wrapf (msg : string) (cause : error).

Inductive result (A : Type) : Type :=
  | Ok (a : A)
  | Err (e : error).
Arguments Ok {A} a.
Arguments Err {A} e.

(** ** Package [strings] of the Go standard library *)

Module GoStrings.

(** [strings.Compare]: bytewise lexicographic comparison, as -1, 0, +1. *)
Definition Compare (a b : string) : Z :=
  match String.compare a b with
  | Lt => -1
  | Eq => 0
  | Gt => 1
  end.

(** [strings.Split(s, sep)] for a separator of one byte, which is how the
    sources call it ([":"] and ["/"]): the pieces between the
    occurrences of [sep], one more piece than there are occurrences. *)
Fixpoint Split (s : string) (sep : ascii) : list string :=
  match s with
  | EmptyString => [EmptyString]
  | String c s' =>
      if Ascii.eqb c sep then EmptyString :: Split s' sep
      else match Split s' sep with
           | p :: ps => String c p :: ps
           | [] => [String c EmptyString]
           end
  end.

(** [strings.Contains(s, substr)]: [substr] occurs in [s]. *)
Fixpoint Contains (s substr : string) : bool :=
  String.prefix substr s
  || match s with
     | EmptyString => false
     | String _ s' => Contains s' substr
     end.

Definition isASCII_byte (c : ascii) : bool := (nat_of_ascii c <? 128)%nat.

Fixpoint isASCII (s : string) : bool :=
  match s with
  | EmptyString => true
  | String c s' => isASCII_byte c && isASCII s'
  end.

Definition lower_byte (c : ascii) : ascii :=
  let n := nat_of_ascii c in
  if ((65 <=? n) && (n <=? 90))%nat then ascii_of_nat (n + 32) else c.

Fixpoint lower_bytes (s : string) : string :=
  match s with
  | EmptyString => EmptyString
  | String c s' => String (lower_byte c) (lower_bytes s')
  end.

Section ToLower.
(** [strings.ToLower] maps an ASCII-only string bytewise; any other
    string goes through [strings.Map(unicode.ToLower, s)], whose
    Unicode tables are outside the sources: that path is the
    parameter [unicodeLower]. *)
Variable unicodeLower : string -> string.

Definition ToLower (s : string) : string :=
  if isASCII s then lower_bytes s else unicodeLower s.
End ToLower.

End GoStrings.

(** ** Package [time] of the Go standard library *)

Module GoTime.

(** A [time.Time] decoded from JSON or built by [time.Date] carries no
    monotonic clock reading: [Before] and [After] compare the instants,
    here in nanoseconds since the epoch. *)
Definition Time : Type := Z.

Definition Before (t u : Time) : bool := t <? u.
Definition After (t u : Time) : bool := u <? t.

End GoTime.

(** ** Package [internal/filter] *)

Module Filter.
Import GoTime.

(** [IsFailed]: status code 0 (no response) or at least 400. *)
Definition IsFailed (statusCode : Z) : bool :=
  (statusCode =? 0) || (400 <=? statusCode).

Definition IsSuccessful (statusCode : Z) : bool :=
  (200 <=? statusCode) && (statusCode <? 400).

(** [MatchesStatus]: the [switch] on [filterType]. *)
Definition MatchesStatus (statusCode : Z) (filterType : string) : bool :=
  if String.eqb filterType "failed" then IsFailed statusCode
  else if String.eqb filterType "successful" then IsSuccessful statusCode
  else if String.eqb filterType "all" || String.eqb filterType "" then true
  else true.

(** [InRange]: each bound is a pointer and is only consulted when set. *)
Definition InRange (deliveredAt : Time) (since until : option Time) : bool :=
  if match since with
     | Some s => Before deliveredAt s
     | None => false
     end
  then false
  else if match until with
          | Some u => After deliveredAt u
          | None => false
          end
  then false
  else true.

Section MatchesPattern.
Variable unicodeLower : string -> string.

Definition MatchesPattern (url pattern : string) : bool :=
  if String.eqb pattern "" then true
  else GoStrings.Contains (GoStrings.ToLower unicodeLower url)
                          (GoStrings.ToLower unicodeLower pattern).
End MatchesPattern.

End Filter.

(** ** Package [internal/config] *)

Module Config.
Import GoTime.

Record Config : Type := mkConfig {
  Org : string;
  Repo : string;
  Filter : string;
  Since : option Time;
  Until : option Time;
  JSONOutput : bool;
  Failed : bool;
  Head : Z;
  SortBy : string
}.

(** [parts[i]] for an index the source has already checked against
    [len(parts)]; [strings.Split] never returns an empty slice. *)
Definition at_index (parts : list string) (i : nat) : string :=
  default EmptyString (parts !! i).

(** The map literal [validFields] of [Validate]; a missing key reads as
    [false]. *)
Definition validFields : gmap string bool :=
  <["repository" := true]>
    (<["timestamp" := true]>
       (<["code" := true]> (<["event" := true]> ∅))).

Definition validField (field : string) : bool :=
  default false (validFields !! field).

Definition nonempty (s : string) : bool := negb (String.eqb s "").

(** [Validate]: [None] is the nil error. *)
Definition Validate (c : Config) : option error :=
  if String.eqb (Org c) "" && String.eqb (Repo c) "" then
    Some (Errorf "either --org or --repo must be specified")
  else if nonempty (Org c) && nonempty (Repo c) then
    Some (Errorf "cannot specify both --org and --repo")
  else if nonempty (Repo c)
          && (let parts := GoStrings.Split (Repo c) "/"%char in
              negb (List.length parts =? 2)%nat
              || String.eqb (at_index parts 0) ""
              || String.eqb (at_index parts 1) "") then
    Some (Errorf "--repo must be in format OWNER/REPO")
  else if match Since c, Until c with
          | Some s, Some u => After s u
          | _, _ => false
          end then
    Some (Errorf "--since must be before --until")
  else if Head c <? 0 then
    Some (Errorf "--head must be a non-negative integer")
  else if nonempty (SortBy c) then
    let parts := GoStrings.Split (SortBy c) ":"%char in
    if (2 <? List.length parts)%nat then
      Some (Errorf "--sort format should be 'field' or 'field:order'")
    else if negb (validField (at_index parts 0)) then
      Some (Errorf "--sort field must be one of: repository, timestamp, code, event")
    else if (List.length parts =? 2)%nat
            && negb (String.eqb (at_index parts 1) "asc")
            && negb (String.eqb (at_index parts 1) "desc") then
      Some (Errorf "--sort order must be 'asc' or 'desc'")
    else None
  else None.

Section ParseDateRange.
(** [time.Parse("2006-01-02", s)]: the instant at 00:00:00 UTC of the
    day written in [s], or an error. *)
Variable time_Parse : string -> result Time.

(** [time.Date(y, m, d, 23, 59, 59, 999999999, time.UTC)] for the day
    that starts at [t]. *)
Definition endOfDay (t : Time) : Time := t + 86399999999999.

(** [ParseDateRange]; [time.Date(y, m, d, 0, 0, 0, 0, time.UTC)] for
    the day that starts at [t] is [t] itself. *)
Definition ParseDateRange (sinceStr untilStr : string)
  : result (option Time * option Time) :=
  let since :=
    if nonempty sinceStr then
      match time_Parse sinceStr with
      | Err e => Err (Wrapf "invalid --since format (expected YYYY-MM-DD)" e)
      | Ok t => Ok (Some t)
      end
    else Ok None in
  match since with
  | Err e => Err e
  | Ok since =>
      if nonempty untilStr then
        match time_Parse untilStr with
        | Err e => Err (Wrapf "invalid --until format (expected YYYY-MM-DD)" e)
        | Ok t => Ok (since, Some (endOfDay t))
        end
      else Ok (since, None)
  end.
End ParseDateRange.

Definition with_Since_Until (c : Config) (since until : option Time)
  : Config :=
  mkConfig (Org c) (Repo c) (Filter c) since until (JSONOutput c)
           (Failed c) (Head c) (SortBy c).

(** [GetSortConfig]: the sort field and whether the order is ascending. *)
Definition GetSortConfig (c : Config) : string * bool :=
  if String.eqb (SortBy c) "" then ("timestamp", false)
  else
    let parts := GoStrings.Split (SortBy c) ":"%char in
    let field := at_index parts 0 in
    if (List.length parts =? 2)%nat then
      (field, String.eqb (at_index parts 1) "asc")
    else if String.eqb field "repository" || String.eqb field "event" then
      (field, true)
    else if String.eqb field "timestamp" || String.eqb field "code" then
      (field, false)
    else ("timestamp", false).

End Config.

(** ** Package [sort] of the Go standard library

    [sort.Slice] as the Go toolchain required by the project (1.21 or
    later) implements it: pattern-defeating quicksort over the slice, with
    insertion sort below 13 elements and heap sort as the fallback.  The
    slice is a [list A]; the [less] closure of the caller compares the
    elements currently stored at two indices, and every move is a [Swap]
    of two positions. *)

Module GoSort.

Inductive sortedHint : Type :=
  | unknownHint
  | increasingHint
  | decreasingHint.

(** [bits.Len]: the number of bits needed to write [n]. *)
Definition bits_Len (n : nat) : nat :=
  match n with
  | O => O
  | S _ => S (Nat.log2 n)
  end.

Definition nextPowerOfTwo (length : nat) : Z :=
  Z.shiftl 1 (Z.of_nat (bits_Len length)).

Section Slice.
Context {A : Type}.

(** The generator [xorshift.Next] used by [breakPatterns]: a step on
    a 64-bit state that also is the value drawn. *)
Variable xorshift_Next : Z -> Z.

(** The caller's comparison of two elements. *)
Variable less : A -> A -> bool.

(** [less(i, j)] and [swap(i, j)] on the current contents.  Go panics
    on an index out of range; the sort never produces one. *)
Definition Less (data : list A) (i j : nat) : bool :=
  match data !! i, data !! j with
  | Some x, Some y => less x y
  | _, _ => false
  end.

Definition Swap (data : list A) (i j : nat) : list A :=
  match data !! i, data !! j with
  | Some x, Some y => <[j := x]> (<[i := y]> data)
  | _, _ => data
  end.

(** *** [insertionSort_func] *)

(** [for j := i; j > a && less(j, j-1); j-- { swap(j, j-1) }] *)
Fixpoint insertionInner (data : list A) (a j : nat) : list A :=
  match j with
  | O => data
  | S j' =>
      if (a <? j)%nat && Less data j j'
      then insertionInner (Swap data j j') a j'
      else data
  end.

(** [for i := a + 1; i < b; i++] *)
Definition insertionSort_func (data : list A) (a b : nat) : list A :=
  fold_left (fun d i => insertionInner d a i) (seq (S a) (b - S a)) data.

(** *** [heapSort_func] *)

(** [siftDown_func]; [n] bounds the number of rounds of its loop, in
    which [root] grows and stays below [hi]. *)
Fixpoint siftDown_func (n : nat) (data : list A) (root hi first : nat)
  : list A :=
  match n with
  | O => data
  | S n' =>
      let child := (2 * root + 1)%nat in
      if (hi <=? child)%nat then data
      else
        let child :=
          if (child + 1 <? hi)%nat
             && Less data (first + child) (first + child + 1)
          then (child + 1)%nat else child in
        if negb (Less data (first + root) (first + child)) then data
        else siftDown_func n' (Swap data (first + root) (first + child))
                           child hi first
  end.

Definition heapSort_func (data : list A) (a b : nat) : list A :=
  let first := a in
  let lo := O in
  let hi := (b - a)%nat in
  (* for i := (hi - 1) / 2; i >= 0; i-- *)
  let data :=
    fold_left (fun d i => siftDown_func hi d i hi first)
              (rev (seq 0 (S ((hi - 1) / 2)))) data in
  (* for i := hi - 1; i >= 0; i-- *)
  fold_left (fun d i => siftDown_func i (Swap d first (first + i)) lo i first)
            (rev (seq 0 hi)) data.

(** *** [choosePivot_func] *)

Definition order2_func (data : list A) (a b swaps : nat)
  : nat * nat * nat :=
  if Less data b a then (b, a, S swaps) else (a, b, swaps).

Definition median_func (data : list A) (a b c swaps : nat) : nat * nat :=
  let '(a, b, swaps) := order2_func data a b swaps in
  let '(b, c, swaps) := order2_func data b c swaps in
  let '(a, b, swaps) := order2_func data a b swaps in
  (b, swaps).

Definition medianAdjacent_func (data : list A) (a swaps : nat)
  : nat * nat :=
  median_func data (a - 1) a (a + 1) swaps.

Definition shortestNinther : nat := 50.
Definition maxSwaps : nat := 4 * 3.

Definition choosePivot_func (data : list A) (a b : nat)
  : nat * sortedHint :=
  let l := (b - a)%nat in
  let i := (a + l / 4 * 1)%nat in
  let j := (a + l / 4 * 2)%nat in
  let k := (a + l / 4 * 3)%nat in
  let '(j, swaps) :=
    if (8 <=? l)%nat then
      let '(i, j, k, swaps) :=
        if (shortestNinther <=? l)%nat then
          let '(i, swaps) := medianAdjacent_func data i 0 in
          let '(j, swaps) := medianAdjacent_func data j swaps in
          let '(k, swaps) := medianAdjacent_func data k swaps in
          (i, j, k, swaps)
        else (i, j, k, O) in
      median_func data i j k swaps
    else (j, O) in
  if (swaps =? 0)%nat then (j, increasingHint)
  else if (swaps =? maxSwaps)%nat then (j, decreasingHint)
  else (j, unknownHint).

(** *** [reverseRange_func] *)

Fixpoint reverseRange_loop (n : nat) (data : list A) (i j : nat)
  : list A :=
  match n with
  | O => data
  | S n' =>
      if (i <? j)%nat
      then reverseRange_loop n' (Swap data i j) (S i) (j - 1)
      else data
  end.

Definition reverseRange_func (data : list A) (a b : nat) : list A :=
  reverseRange_loop ((b - a) / 2) data a (b - 1).

(** *** [partialInsertionSort_func] *)

Definition maxSteps : nat := 5.
Definition shortestShifting : nat := 50.

(** [for i < b && !less(i, i-1) { i++ }], with [n] the distance from
    [i] to [b]. *)
Fixpoint sortedRun (n : nat) (data : list A) (i b : nat) : nat :=
  match n with
  | O => i
  | S n' =>
      if (i <? b)%nat && negb (Less data i (i - 1))
      then sortedRun n' data (S i) b
      else i
  end.

(** [for j := i - 1; j >= 1; j--] *)
Fixpoint shiftLeft (data : list A) (j : nat) : list A :=
  match j with
  | O => data
  | S j' =>
      if negb (Less data j j') then data
      else shiftLeft (Swap data j j') j'
  end.

(** [for j := i + 1; j < b; j++], with [n] the distance from [j] to
    [b]. *)
Fixpoint shiftRight (n : nat) (data : list A) (j b : nat) : list A :=
  match n with
  | O => data
  | S n' =>
      if (j <? b)%nat then
        if negb (Less data j (j - 1)) then data
        else shiftRight n' (Swap data j (j - 1)) (S j) b
      else data
  end.

Fixpoint partialInsertionSort_steps (steps : nat) (data : list A)
  (a b i : nat) : list A * bool :=
  match steps with
  | O => (data, false)
  | S steps' =>
      let i := sortedRun (b - i) data i b in
      if (i =? b)%nat then (data, true)
      else if (b - a <? shortestShifting)%nat then (data, false)
      else
        let data := Swap data i (i - 1) in
        let data :=
          if (2 <=? i - a)%nat then shiftLeft data (i - 1) else data in
        let data :=
          if (2 <=? b - i)%nat
          then shiftRight (b - (i + 1)) data (i + 1) b else data in
        partialInsertionSort_steps steps' data a b i
  end.

Definition partialInsertionSort_func (data : list A) (a b : nat)
  : list A * bool :=
  partialInsertionSort_steps maxSteps data a b (a + 1).

(** *** [breakPatterns_func] *)

Definition breakPatterns_func (data : list A) (a b : nat) : list A :=
  let length := (b - a)%nat in
  if (8 <=? length)%nat then
    let random := Z.of_nat length in
    let modulus := nextPowerOfTwo length in
    let idx := (a + (length / 4) * 2 - 1)%nat in
    let pick (r : Z) : nat :=
      let other := Z.to_nat (Z.land r (modulus - 1)) in
      if (length <=? other)%nat then (other - length)%nat else other in
    let r0 := xorshift_Next random in
    let data := Swap data (idx - 1 + 0) (a + pick r0) in
    let r1 := xorshift_Next r0 in
    let data := Swap data (idx - 1 + 1) (a + pick r1) in
    let r2 := xorshift_Next r1 in
    Swap data (idx - 1 + 2) (a + pick r2)
  else data.

(** *** [partition_func] and [partitionEqual_func] *)

(** [for i <= j && less(i, a) { i++ }]; [n] is the number of
    candidates left between [i] and [j]. *)
Fixpoint scanLess (n : nat) (data : list A) (a i j : nat) : nat :=
  match n with
  | O => i
  | S n' =>
      if (i <=? j)%nat && Less data i a
      then scanLess n' data a (S i) j
      else i
  end.

(** [for i <= j && !less(j, a) { j-- }] *)
Fixpoint scanNotLess (n : nat) (data : list A) (a i j : nat) : nat :=
  match n with
  | O => j
  | S n' =>
      if (i <=? j)%nat && negb (Less data j a)
      then scanNotLess n' data a i (j - 1)
      else j
  end.

(** The closing [for] of [partition_func]: returns the contents and
    the final [j]. *)
Fixpoint partition_loop (n : nat) (data : list A) (a i j : nat)
  : list A * nat :=
  match n with
  | O => (data, j)
  | S n' =>
      let i := scanLess (S j - i) data a i j in
      let j := scanNotLess (S j - i) data a i j in
      if (j <? i)%nat then (data, j)
      else partition_loop n' (Swap data i j) a (S i) (j - 1)
  end.

Definition partition_func (data : list A) (a b pivot : nat)
  : list A * nat * bool :=
  let data := Swap data a pivot in
  let i := (a + 1)%nat in
  let j := (b - 1)%nat in
  let i := scanLess (S j - i) data a i j in
  let j := scanNotLess (S j - i) data a i j in
  if (j <? i)%nat then (Swap data j a, j, true)
  else
    let data := Swap data i j in
    let '(data, j) := partition_loop (S (j - 1) - S i) data a (S i) (j - 1) in
    (Swap data j a, j, false).

(** [for i <= j && !less(a, i) { i++ }] *)
Fixpoint scanNotGreater (n : nat) (data : list A) (a i j : nat) : nat :=
  match n with
  | O => i
  | S n' =>
      if (i <=? j)%nat && negb (Less data a i)
      then scanNotGreater n' data a (S i) j
      else i
  end.

(** [for i <= j && less(a, j) { j-- }] *)
Fixpoint scanGreater (n : nat) (data : list A) (a i j : nat) : nat :=
  match n with
  | O => j
  | S n' =>
      if (i <=? j)%nat && Less data a j
      then scanGreater n' data a i (j - 1)
      else j
  end.

Fixpoint partitionEqual_loop (n : nat) (data : list A) (a i j : nat)
  : list A * nat :=
  match n with
  | O => (data, i)
  | S n' =>
      let i := scanNotGreater (S j - i) data a i j in
      let j := scanGreater (S j - i) data a i j in
      if (j <? i)%nat then (data, i)
      else partitionEqual_loop n' (Swap data i j) a (S i) (j - 1)
  end.

Definition partitionEqual_func (data : list A) (a b pivot : nat)
  : list A * nat :=
  let data := Swap data a pivot in
  partitionEqual_loop (S (b - a)) data a (a + 1) (b - 1).

(** *** [pdqsort_func] *)

Definition maxInsertion : nat := 12.

(** One round of the loop of [pdqsort_func] per unit of [fuel], the
    nested call included; [None] when the fuel is used up.
    [wasBalanced] and [wasPartitioned] are the two loop-carried
    flags, [true] at entry of every call. *)
Fixpoint pdqsort_func (fuel : nat) (data : list A) (a b limit : nat)
  (wasBalanced wasPartitioned : bool) : option (list A) :=
  match fuel with
  | O => None
  | S fuel' =>
      let length := (b - a)%nat in
      if (length <=? maxInsertion)%nat then
        Some (insertionSort_func data a b)
      else if (limit =? 0)%nat then
        Some (heapSort_func data a b)
      else
        let '(data, limit) :=
          if negb wasBalanced
          then (breakPatterns_func data a b, (limit - 1)%nat)
          else (data, limit) in
        let '(pivot, hint) := choosePivot_func data a b in
        let '(data, pivot, hint) :=
          match hint with
          | decreasingHint =>
              (reverseRange_func data a b,
               ((b - 1) - (pivot - a))%nat, increasingHint)
          | _ => (data, pivot, hint)
          end in
        let likelySorted :=
          match hint with
          | increasingHint => wasBalanced && wasPartitioned
          | _ => false
          end in
        let '(data, done) :=
          if likelySorted then partialInsertionSort_func data a b
          else (data, false) in
        if done then Some data
        else if (0 <? a)%nat && negb (Less data (a - 1) pivot) then
          let '(data, mid) := partitionEqual_func data a b pivot in
          pdqsort_func fuel' data mid b limit wasBalanced wasPartitioned
        else
          let '(data, mid, alreadyPartitioned) :=
            partition_func data a b pivot in
          let leftLen := (mid - a)%nat in
          let rightLen := (b - mid)%nat in
          let balanceThreshold := (length / 8)%nat in
          if (leftLen <? rightLen)%nat then
            match pdqsort_func fuel' data a mid limit true true with
            | Some data =>
                pdqsort_func fuel' data (mid + 1) b limit
                             (balanceThreshold <=? leftLen)%nat
                             alreadyPartitioned
            | None => None
            end
          else
            match pdqsort_func fuel' data (mid + 1) b limit true true with
            | Some data =>
                pdqsort_func fuel' data a mid limit
                             (balanceThreshold <=? rightLen)%nat
                             alreadyPartitioned
            | None => None
            end
  end.

(** [sort.Slice(x, less)]: a range shrinks by at least one element
    from one round to the next, so one more unit of fuel than there
    are elements is never used up. *)
Definition Slice (data : list A) : option (list A) :=
  let length := List.length data in
  let limit := bits_Len length in
  pdqsort_func (S length) data 0 length limit true true.

End Slice.

End GoSort.

(** ** Package [internal/github] *)

Module Github.
Import GoTime.

(** [Hook]; [Hook_Config_URL] is the nested field [Config.URL]. *)
Record Hook : Type := mkHook {
  Hook_ID : Z;
  Hook_URL : string;
  Hook_Active : bool;
  Hook_Config_URL : string
}.

(** [Delivery]; [Duration] holds the bits of the [float64], which no
    function below reads. *)
Record Delivery : Type := mkDelivery {
  ID : Z;
  GUID : string;
  DeliveredAt : Time;
  Redelivery : bool;
  Duration : Z;
  Status : string;
  StatusCode : Z;
  Event : string;
  Action : string;
  URL : string;
  Repository : string;
  HookID : Z
}.

Definition with_URL (d : Delivery) (url : string) : Delivery :=
  mkDelivery (ID d) (GUID d) (DeliveredAt d) (Redelivery d) (Duration d)
             (Status d) (StatusCode d) (Event d) (Action d) url
             (Repository d) (HookID d).

Definition with_Repository_HookID (d : Delivery) (repo : string) (hookID : Z)
  : Delivery :=
  mkDelivery (ID d) (GUID d) (DeliveredAt d) (Redelivery d) (Duration d)
             (Status d) (StatusCode d) (Event d) (Action d) (URL d)
             repo hookID.

(** [GetTargetURL]: the configured URL, and the empty string when there
    is none. *)
Definition GetTargetURL (h : Hook) : string :=
  if negb (String.eqb (Hook_Config_URL h) "") then Hook_Config_URL h
  else "".

Section MatchesFilter.
Variable unicodeLower : string -> string.

Definition MatchesFilter (h : Hook) (pattern : string) : bool :=
  if String.eqb pattern "" then true
  else
    let targetURL := GetTargetURL h in
    GoStrings.Contains (GoStrings.ToLower unicodeLower targetURL)
                       (GoStrings.ToLower unicodeLower pattern).
End MatchesFilter.

(** The [less] closures handed to [sort.Slice], as functions of the
    two deliveries found at the indices compared. *)
Definition lessByTime (ascending : bool) (di dj : Delivery) : bool :=
  if ascending then Before (DeliveredAt di) (DeliveredAt dj)
  else After (DeliveredAt di) (DeliveredAt dj).

Definition lessByRepository (ascending : bool) (di dj : Delivery) : bool :=
  let cmp := GoStrings.Compare (Repository di) (Repository dj) in
  if ascending then cmp <? 0 else 0 <? cmp.

Definition lessByStatusCode (ascending : bool) (di dj : Delivery) : bool :=
  if ascending then StatusCode di <? StatusCode dj
  else StatusCode dj <? StatusCode di.

Definition lessByEvent (ascending : bool) (di dj : Delivery) : bool :=
  let cmp := GoStrings.Compare (Event di) (Event dj) in
  if ascending then cmp <? 0 else 0 <? cmp.

Section Sort.
Variable xorshift_Next : Z -> Z.

Definition SortDeliveriesByTime (deliveries : list Delivery)
  (ascending : bool) : option (list Delivery) :=
  GoSort.Slice xorshift_Next (lessByTime ascending) deliveries.

Definition SortDeliveriesByRepository (deliveries : list Delivery)
  (ascending : bool) : option (list Delivery) :=
  GoSort.Slice xorshift_Next (lessByRepository ascending) deliveries.

Definition SortDeliveriesByStatusCode (deliveries : list Delivery)
  (ascending : bool) : option (list Delivery) :=
  GoSort.Slice xorshift_Next (lessByStatusCode ascending) deliveries.

Definition SortDeliveriesByEvent (deliveries : list Delivery)
  (ascending : bool) : option (list Delivery) :=
  GoSort.Slice xorshift_Next (lessByEvent ascending) deliveries.

(** [ApplySort]: the slice after the in-place sort. *)
Definition ApplySort (deliveries : list Delivery) (sortBy : string)
  (ascending : bool) : option (list Delivery) :=
  if String.eqb sortBy "repository" then
    SortDeliveriesByRepository deliveries ascending
  else if String.eqb sortBy "code" then
    SortDeliveriesByStatusCode deliveries ascending
  else if String.eqb sortBy "event" then
    SortDeliveriesByEvent deliveries ascending
  else if String.eqb sortBy "timestamp" then
    SortDeliveriesByTime deliveries ascending
  else
    SortDeliveriesByTime deliveries false.
End Sort.

(** The comparison [ApplySort] sorts by, for each field and direction. *)
Definition lessFor (sortBy : string) (ascending : bool)
  : Delivery -> Delivery -> bool :=
  if String.eqb sortBy "repository" then lessByRepository ascending
  else if String.eqb sortBy "code" then lessByStatusCode ascending
  else if String.eqb sortBy "event" then lessByEvent ascending
  else if String.eqb sortBy "timestamp" then lessByTime ascending
  else lessByTime false.

Section Client.
(** The REST transport under [Client]: the decoded body of a hook
    listing, of a delivery listing, and of a delivery detail. *)
Variable rest_hooks : string -> result (list Hook).
Variable rest_deliveries : string -> Z -> Z -> result (list Delivery).
Variable rest_detail : string -> Z -> Z -> result Delivery.

(** [ListRepoWebhooks] *)
Definition ListRepoWebhooks (repo : string) : result (list Hook) :=
  match rest_hooks repo with
  | Err e => Err (Wrapf "failed to list repository webhooks" e)
  | Ok hooks => Ok hooks
  end.

(** [ListRepoHookDeliveries]: the listing, each delivery tagged with
    the repository and the hook it was asked for. *)
Definition ListRepoHookDeliveries (repo : string) (hookID perPage : Z)
  : result (list Delivery) :=
  let perPage := if perPage <=? 0 then 100 else perPage in
  match rest_deliveries repo hookID perPage with
  | Err e => Err (Wrapf "failed to list deliveries for repo hook" e)
  | Ok deliveries =>
      Ok (map (fun d => with_Repository_HookID d repo hookID) deliveries)
  end.

(** [GetRepoHookDeliveryDetail]: the embedded [Delivery] of the
    detail, tagged likewise. *)
Definition GetRepoHookDeliveryDetail (repo : string) (hookID deliveryID : Z)
  : result Delivery :=
  match rest_detail repo hookID deliveryID with
  | Err e => Err (Wrapf "failed to get delivery detail" e)
  | Ok detail => Ok (with_Repository_HookID detail repo hookID)
  end.
End Client.

(** What [c.rest.Request], [io.ReadAll] and [json.Unmarshal] make of
    one request, for the functions that tell the three failures
    apart. *)
Inductive response (A : Type) : Type :=
  | RequestFailed (e : error)
  | ReadFailed (e : error)
  | ParseFailed (e : error)
  | Decoded (a : A).
Arguments RequestFailed {A} e.
Arguments ReadFailed {A} e.
Arguments ParseFailed {A} e.
Arguments Decoded {A} a.

(** The [repo] struct of [ListOrgRepos]. *)
Record repo : Type := mkRepo { FullName : string }.

Section OrgClient.
(** The transport under the organization endpoints: the hooks of an
    organization, a page of its repositories (organization, page size
    and page number), the deliveries of one of its hooks, and the detail
    of one delivery. *)
Variable rest_org_hooks : string -> result (list Hook).
Variable rest_org_repos : string -> Z -> Z -> response (list repo).
Variable rest_org_deliveries : string -> Z -> Z -> response (list Delivery).
Variable rest_org_detail : string -> Z -> Z -> response Delivery.

(** [ListOrgWebhooks] *)
Definition ListOrgWebhooks (org : string) : result (list Hook) :=
  match rest_org_hooks org with
  | Err e => Err (Wrapf "failed to list organization webhooks" e)
  | Ok hooks => Ok hooks
  end.

(** The [for] loop of [ListOrgRepos], from [page] on, with the
    repositories gathered and the pages requested so far.  The loop has
    no bound of its own: [fuel] limits the rounds, and [None] says that
    they did not suffice. *)
Fixpoint ListOrgRepos_loop (fuel : nat) (org : string) (repos : list repo)
  (page : Z) (requested : list Z)
  : option (list Z * result (list repo)) :=
  match fuel with
  | O => None
  | S fuel' =>
      let perPage := 100 in
      let requested := requested ++ [page] in
      match rest_org_repos org perPage page with
      | RequestFailed e =>
          Some (requested,
                Err (Wrapf "failed to list organization repositories" e))
      | ReadFailed e =>
          Some (requested, Err (Wrapf "failed to read response body" e))
      | ParseFailed e =>
          Some (requested,
                Err (Wrapf "failed to parse repositories response" e))
      | Decoded pageRepos =>
          if (List.length pageRepos =? 0)%nat then Some (requested, Ok repos)
          else
            let repos := repos ++ pageRepos in
            if Z.of_nat (List.length pageRepos) <? perPage
            then Some (requested, Ok repos)
            else ListOrgRepos_loop fuel' org repos (page + 1) requested
      end
  end.

(** [ListOrgRepos]: the pages requested, and the full names of the
    repositories or the error. *)
Definition ListOrgRepos (fuel : nat) (org : string)
  : option (list Z * result (list string)) :=
  match ListOrgRepos_loop fuel org [] 1 [] with
  | None => None
  | Some (requested, Err e) => Some (requested, Err e)
  | Some (requested, Ok repos) => Some (requested, Ok (map FullName repos))
  end.


(** [GetOrgHookDeliveryDetail]: the embedded [Delivery] of the
    detail. *)
Definition GetOrgHookDeliveryDetail (org : string) (hookID deliveryID : Z)
  : result Delivery :=
  match rest_org_detail org hookID deliveryID with
  | RequestFailed e => Err (Wrapf "failed to get delivery detail" e)
  | ReadFailed e => Err (Wrapf "failed to read response body" e)
  | ParseFailed e => Err (Wrapf "failed to parse delivery detail" e)
  | Decoded detail => Ok (with_Repository_HookID detail org hookID)
  end.
End OrgClient.

End Github.

(** ** The worker pools of [cmd/root.go]

    [processOrganization] and [fetchDeliveryDetails] both start
    [numWorkers] goroutines that range over a buffered [jobs] channel and
    send one message per job, while the caller sends every job, closes
    [jobs] and then receives [len(items)] messages.  The goroutines are
    interleaved by the scheduler: the pool is a transition system whose
    steps are the channel operations, and a run is any sequence of
    enabled steps.  All channels have capacity [len(items)], so a send
    never blocks. *)

Module Pool.

Inductive worker (Item : Type) : Type :=
  | Idle                (* about to receive from [jobs] *)
  | Busy (it : Item)    (* inside the fetch for [it] *)
  | Exited.             (* left the [range jobs] loop *)
Arguments Idle {Item}.
Arguments Busy {Item} it.
Arguments Exited {Item}.

Inductive phase (Item : Type) : Type :=
  | Sending (rest : list Item)   (* [for _, x := range items { jobs <- x }] *)
  | Collecting (i : nat)         (* [for i := 0; i < len(items); i++] *)
  | Returned.
Arguments Sending {Item} rest.
Arguments Collecting {Item} i.
Arguments Returned {Item}.

Record state (Item Msg Acc : Type) : Type := mkState {
  mainPhase : phase Item;
  jobs : list Item;            (* contents of the [jobs] channel *)
  jobsClosed : bool;
  workers : list (worker Item);
  results : list Msg;          (* contents of the [results] channel *)
  errors : list Msg;           (* contents of the [errors] channel *)
  collected : Acc;             (* what the caller has gathered so far *)
  attempted : list Item        (* the fetches started so far *)
}.
Arguments mkState {Item Msg Acc}.
Arguments mainPhase {Item Msg Acc}.
Arguments jobs {Item Msg Acc}.
Arguments jobsClosed {Item Msg Acc}.
Arguments workers {Item Msg Acc}.
Arguments results {Item Msg Acc}.
Arguments errors {Item Msg Acc}.
Arguments collected {Item Msg Acc}.
Arguments attempted {Item Msg Acc}.

(** Who moves next: the caller (receiving from [results], or taking the
    [errors] case of its [select]), or the worker with a given index. *)
Inductive choice : Type :=
  | MainStep
  | MainSelectErrors
  | WorkerStep (w : nat).

Section Pool.
Context {Item Msg Acc : Type}.

(** The body of the worker loop: the fetch for one job and the
    message it sends. *)
Variable fetch : Item -> Msg.
(** Whether the worker sends that message on [errors] rather than on
    [results]. *)
Variable onErrors : Msg -> bool.
(** The body of the collecting loop. *)
Variable collect : Acc -> Msg -> Acc.
Variable empty : Acc.
Variable items : list Item.
Variable maxConcurrent : nat.

(** [numWorkers := maxConcurrent; if len(items) < numWorkers
    { numWorkers = len(items) }] *)
Definition numWorkers : nat :=
  if (List.length items <? maxConcurrent)%nat then List.length items
  else maxConcurrent.

Definition init : state Item Msg Acc :=
  mkState (Sending items) [] false (replicate numWorkers Idle)
          [] [] empty [].

Definition isBusy (w : worker Item) : bool :=
  match w with
  | Busy _ => true
  | _ => false
  end.

(** The number of fetches in flight. *)
Definition inFlight (s : state Item Msg Acc) : nat :=
  List.length (List.filter isBusy (workers s)).

Definition mainStep (s : state Item Msg Acc) : option (state Item Msg Acc) :=
  match mainPhase s with
  | Sending (x :: rest) =>
      Some (mkState (Sending rest) (jobs s ++ [x]) (jobsClosed s)
                    (workers s) (results s) (errors s) (collected s)
                    (attempted s))
  | Sending [] =>
      Some (mkState (Collecting 0) (jobs s) true (workers s)
                    (results s) (errors s) (collected s) (attempted s))
  | Collecting i =>
      if (i <? List.length items)%nat then
        match results s with
        | m :: rs =>
            Some (mkState (Collecting (S i)) (jobs s) (jobsClosed s)
                          (workers s) rs (errors s)
                          (collect (collected s) m) (attempted s))
        | [] => None
        end
      else
        Some (mkState Returned (jobs s) (jobsClosed s) (workers s)
                      (results s) (errors s) (collected s) (attempted s))
  | Returned => None
  end.

Definition mainSelectErrors (s : state Item Msg Acc)
  : option (state Item Msg Acc) :=
  match mainPhase s with
  | Collecting i =>
      if (i <? List.length items)%nat then
        match errors s with
        | m :: es =>
            Some (mkState (Collecting (S i)) (jobs s) (jobsClosed s)
                          (workers s) (results s) es
                          (collect (collected s) m) (attempted s))
        | [] => None
        end
      else None
  | _ => None
  end.

Definition workerStep (w : nat) (s : state Item Msg Acc)
  : option (state Item Msg Acc) :=
  match workers s !! w with
  | Some Idle =>
      match jobs s with
      | x :: js =>
          Some (mkState (mainPhase s) js (jobsClosed s)
                        (<[w := Busy x]> (workers s)) (results s)
                        (errors s) (collected s) (attempted s ++ [x]))
      | [] =>
          if jobsClosed s then
            Some (mkState (mainPhase s) [] (jobsClosed s)
                          (<[w := Exited]> (workers s)) (results s)
                          (errors s) (collected s) (attempted s))
          else None
      end
  | Some (Busy x) =>
      let m := fetch x in
      if onErrors m then
        Some (mkState (mainPhase s) (jobs s) (jobsClosed s)
                      (<[w := Idle]> (workers s)) (results s)
                      (errors s ++ [m]) (collected s) (attempted s))
      else
        Some (mkState (mainPhase s) (jobs s) (jobsClosed s)
                      (<[w := Idle]> (workers s)) (results s ++ [m])
                      (errors s) (collected s) (attempted s))
  | Some Exited => None
  | None => None
  end.

Definition step (c : choice) (s : state Item Msg Acc)
  : option (state Item Msg Acc) :=
  match c with
  | MainStep => mainStep s
  | MainSelectErrors => mainSelectErrors s
  | WorkerStep w => workerStep w s
  end.

(** Running a schedule, one choice after the other. *)
Fixpoint exec (sched : list choice) (s : state Item Msg Acc)
  : option (state Item Msg Acc) :=
  match sched with
  | [] => Some s
  | c :: sched' =>
      match step c s with
      | Some s' => exec sched' s'
      | None => None
      end
  end.

(** The states some schedule reaches from the start of the pool. *)
Definition reachable (s : state Item Msg Acc) : Prop :=
  exists sched, exec sched init = Some s.

(** The steps still ahead at most: every job moves from unsent to
    queued to being fetched to delivered to collected, every worker
    exits once, and the caller closes [jobs] and returns. *)
Definition phaseRank (p : phase Item) : nat :=
  match p with
  | Sending rest => (2 + 4 * List.length rest)%nat
  | Collecting _ => 1%nat
  | Returned => 0%nat
  end.

Definition workerRank (w : worker Item) : nat :=
  match w with
  | Idle => 1%nat
  | Busy _ => 3%nat
  | Exited => 0%nat
  end.

Definition measure (s : state Item Msg Acc) : nat :=
  (phaseRank (mainPhase s) + 3 * List.length (jobs s)
   + list_sum (map workerRank (workers s))
   + List.length (results s) + List.length (errors s))%nat.

End Pool.

End Pool.

(** ** Package [cmd] *)

Module Cmd.
Import GoTime Github.

(** What a run does besides computing: the calls that reach the
    network, and the warnings written to standard error. *)
Inductive event : Type :=
  | CallNewClient
  | CallListOrgRepos (org : string)
  | CallListRepoWebhooks (repo : string)
  | CallListRepoHookDeliveries (repo : string) (hookID perPage : Z)
  | CallFetchDeliveryDetails (deliveries : list Delivery)
  | WarnHookDeliveries (hookID : Z) (e : error)
  | WarnRepository (repo : string) (e : error)
  | WarnDetail (e : error).

(** *** [processRepository] *)

Section ProcessRepository.
Variable unicodeLower : string -> string.
Variable rest_hooks : string -> result (list Hook).
Variable rest_deliveries : string -> Z -> Z -> result (list Delivery).
(** The package-level [cfg]. *)
Variable cfg : Config.Config.

(** One round of [for _, hook := range hooks], on the events so far
    and [allDeliveries]. *)
Definition processHook (repo : string)
  (acc : list event * list Delivery) (hook : Hook)
  : list event * list Delivery :=
  let '(log, allDeliveries) := acc in
  if Config.nonempty (Config.Filter cfg)
     && negb (MatchesFilter unicodeLower hook (Config.Filter cfg))
  then (log, allDeliveries)
  else
    let log := log ++ [CallListRepoHookDeliveries repo (Hook_ID hook) 100] in
    match ListRepoHookDeliveries rest_deliveries repo (Hook_ID hook) 100 with
    | Err e => (log ++ [WarnHookDeliveries (Hook_ID hook) e], allDeliveries)
    | Ok deliveries =>
        let targetURL := GetTargetURL hook in
        (log,
         allDeliveries ++ map (fun d => with_URL d targetURL) deliveries)
    end.

Definition processHooks (repo : string) (hooks : list Hook)
  (acc : list event * list Delivery) : list event * list Delivery :=
  fold_left (processHook repo) hooks acc.

Definition processRepository (repo : string)
  : list event * result (list Delivery) :=
  let log := [CallListRepoWebhooks repo] in
  match ListRepoWebhooks rest_hooks repo with
  | Err e => (log, Err (Wrapf "failed to list webhooks" e))
  | Ok hooks =>
      if (List.length hooks =? 0)%nat then (log, Ok [])
      else
        let '(log, allDeliveries) := processHooks repo hooks (log, []) in
        (log, Ok allDeliveries)
  end.
End ProcessRepository.

(** *** The pool of [processOrganization] *)

(** [repoResult] *)
Record repoResult : Type := mkRepoResult {
  rr_repo : string;
  rr_outcome : result (list Delivery)   (* [deliveries] or [err] *)
}.

(** What the collecting loop has built: [allDeliveries], and the
    warnings it wrote. *)
Definition gathered : Type := list Delivery * list event.

Section ProcessOrganization.
(** The call [processRepository(client, repo)] of the worker. *)
Variable fetchRepository : string -> result (list Delivery).

Definition organizationWorker (repo : string) : repoResult :=
  mkRepoResult repo (fetchRepository repo).

Definition organizationCollect (acc : gathered) (r : repoResult)
  : gathered :=
  let '(allDeliveries, warnings) := acc in
  match rr_outcome r with
  | Err e => (allDeliveries, warnings ++ [WarnRepository (rr_repo r) e])
  | Ok deliveries => (allDeliveries ++ deliveries, warnings)
  end.

Definition organizationMaxConcurrent : nat := 10.

(** The pool started for [repos]; all its messages travel on
    [results]. *)
Definition organizationPool (repos : list string)
  : Pool.state string repoResult gathered :=
  Pool.init ([], []) repos organizationMaxConcurrent.

Definition organizationStep (repos : list string) :=
  Pool.step organizationWorker (fun _ => false) organizationCollect repos.

Definition organizationExec (repos : list string) :=
  Pool.exec organizationWorker (fun _ => false) organizationCollect repos.

Definition organizationReachable (repos : list string) :=
  Pool.reachable organizationWorker (fun _ => false) organizationCollect
                 ([], []) repos organizationMaxConcurrent.
End ProcessOrganization.

(** *** The pool of [fetchDeliveryDetails] *)

Section FetchDeliveryDetails.
Variable rest_detail : string -> Z -> Z -> result Delivery.

(** The body of the worker: the detail request, then either an error
    for the [errors] channel or the delivery with the URL of the
    detail for the [results] channel. *)
Definition detailWorker (d : Delivery) : result Delivery :=
  match GetRepoHookDeliveryDetail rest_detail (Repository d) (HookID d) (ID d) with
  | Err e => Err (Wrapf "failed to get delivery detail for" e)
  | Ok detail => Ok (with_URL d (URL detail))
  end.

Definition detailOnErrors (m : result Delivery) : bool :=
  match m with
  | Err _ => true
  | Ok _ => false
  end.

(** The two cases of the [select]. *)
Definition detailCollect (acc : gathered) (m : result Delivery)
  : gathered :=
  let '(detailedDeliveries, warnings) := acc in
  match m with
  | Ok detailed => (detailedDeliveries ++ [detailed], warnings)
  | Err e => (detailedDeliveries, warnings ++ [WarnDetail e])
  end.

Definition detailMaxConcurrent : nat := 5.

Definition detailPool (deliveries : list Delivery)
  : Pool.state Delivery (result Delivery) gathered :=
  Pool.init ([], []) deliveries detailMaxConcurrent.

Definition detailStep (deliveries : list Delivery) :=
  Pool.step detailWorker detailOnErrors detailCollect deliveries.

Definition detailExec (deliveries : list Delivery) :=
  Pool.exec detailWorker detailOnErrors detailCollect deliveries.

Definition detailReachable (deliveries : list Delivery) :=
  Pool.reachable detailWorker detailOnErrors detailCollect
                 ([], []) deliveries detailMaxConcurrent.
End FetchDeliveryDetails.

(** *** [applyHeadLimit] *)

(** [repoGroups[d.Repository] = append(repoGroups[d.Repository], d)] *)
Definition addToGroup (repoGroups : gmap string (list Delivery))
  (d : Delivery) : gmap string (list Delivery) :=
  <[Repository d := default [] (repoGroups !! Repository d) ++ [d]]>
    repoGroups.

Definition groupByRepository (deliveries : list Delivery)
  : gmap string (list Delivery) :=
  fold_left addToGroup deliveries ∅.

(** [count := limit; if count > len(group) { count = len(group) };
    group[:count]] *)
Definition headOfGroup (limit : Z) (group : list Delivery)
  : list Delivery :=
  let count :=
    if Z.of_nat (List.length group) <? limit
    then Z.of_nat (List.length group) else limit in
  take (Z.to_nat count) group.

Section ApplyHeadLimit.
Variable xorshift_Next : Z -> Z.
(** The order in which [range repoGroups] visits the map, which Go
    leaves unspecified. *)
Variable rangeOrder :
  gmap string (list Delivery) -> list (string * list Delivery).

Definition applyHeadLimit (deliveries : list Delivery) (limit : Z)
  (sortField : string) (ascending : bool) : option (list Delivery) :=
  if limit <=? 0 then Some deliveries
  else
    let repoGroups := groupByRepository deliveries in
    let result :=
      fold_left (fun result kv => result ++ headOfGroup limit (snd kv))
                (rangeOrder repoGroups) [] in
    ApplySort xorshift_Next result sortField ascending.
End ApplyHeadLimit.

(** *** [run] *)

Section Run.
Variable unicodeLower : string -> string.
Variable xorshift_Next : Z -> Z.
Variable rangeOrder :
  gmap string (list Delivery) -> list (string * list Delivery).
Variable time_Parse : string -> result Time.
(** The error of [github.NewClient], if any. *)
Variable NewClient : option error.
Variable rest_hooks : string -> result (list Hook).
Variable rest_deliveries : string -> Z -> Z -> result (list Delivery).
(** What the two pools hand back to [run] in the run at hand, with
    the events of their workers and collectors. *)
Variable processOrganization :
  string -> list event * result (list Delivery).
Variable fetchDeliveryDetails :
  list Delivery -> list event * list Delivery.

(** Apply date range filter. *)
Definition dateRangeFilter (cfg : Config.Config)
  (allDeliveries : list Delivery) : list Delivery :=
  List.filter
    (fun d => Filter.InRange (DeliveredAt d) (Config.Since cfg) (Config.Until cfg))
    allDeliveries.

(** Apply status filter if [--failed] is specified. *)
Definition failedFilter (cfg : Config.Config)
  (filteredDeliveries : list Delivery) : list Delivery :=
  if Config.Failed cfg then
    List.filter (fun d => Filter.IsFailed (StatusCode d)) filteredDeliveries
  else filteredDeliveries.

(** Filter by URL pattern, on the detailed deliveries. *)
Definition urlFilter (cfg : Config.Config)
  (detailedDeliveries : list Delivery) : list Delivery :=
  List.filter
    (fun d => Filter.MatchesPattern unicodeLower (URL d) (Config.Filter cfg))
    detailedDeliveries.

(** Sorting, then the per-repository head limit. *)
Definition sortAndLimit (cfg : Config.Config)
  (filteredDeliveries : list Delivery) : option (list Delivery) :=
  let '(sortField, ascending) := Config.GetSortConfig cfg in
  match ApplySort xorshift_Next filteredDeliveries sortField ascending with
  | None => None
  | Some filteredDeliveries =>
      if 0 <? Config.Head cfg then
        let '(sortField, ascending) := Config.GetSortConfig cfg in
        applyHeadLimit xorshift_Next rangeOrder filteredDeliveries
                       (Config.Head cfg) sortField ascending
      else Some filteredDeliveries
  end.

(** [run]: the events of the run and what it hands to the output
    formatter, or its error; [None] only if a sort ran out of
    fuel. *)
Definition run (sinceStr untilStr : string) (cfg : Config.Config)
  : option (list event * result (list Delivery)) :=
  match Config.ParseDateRange time_Parse sinceStr untilStr with
  | Err e => Some ([], Err e)
  | Ok (since, until) =>
      let cfg := Config.with_Since_Until cfg since until in
      match Config.Validate cfg with
      | Some e => Some ([], Err (Wrapf "validation error" e))
      | None =>
          match NewClient with
          | Some e =>
              Some ([CallNewClient],
                    Err (Wrapf "failed to create GitHub client" e))
          | None =>
              let '(log, fetched) :=
                if Config.nonempty (Config.Org cfg)
                then processOrganization (Config.Org cfg)
                else processRepository unicodeLower rest_hooks
                                       rest_deliveries cfg (Config.Repo cfg) in
              match fetched with
              | Err e => Some (CallNewClient :: log, Err e)
              | Ok allDeliveries =>
                  let filteredDeliveries :=
                    failedFilter cfg (dateRangeFilter cfg allDeliveries) in
                  let '(log', filteredDeliveries) :=
                    if Config.nonempty (Config.Filter cfg) then
                      let '(log', detailedDeliveries) :=
                        fetchDeliveryDetails filteredDeliveries in
                      (CallFetchDeliveryDetails filteredDeliveries :: log',
                       urlFilter cfg detailedDeliveries)
                    else ([], filteredDeliveries) in
                  match sortAndLimit cfg filteredDeliveries with
                  | None => None
                  | Some filteredDeliveries =>
                      Some (CallNewClient :: log ++ log',
                            Ok filteredDeliveries)
                  end
              end
          end
      end
  end.
End Run.

(** *** [processOrganization] and [fetchDeliveryDetails] as a whole *)

Section Calls.
(** What [client.ListOrgRepos], [processRepository] in a worker and the
    detail request return in the run at hand, and the interleaving of
    the goroutines of the pool: [None] when [schedule] is not a run of
    the pool up to the return of the caller. *)
Variable ListOrgRepos : string -> result (list string).
Variable fetchRepository : string -> result (list Delivery).
Variable rest_detail : string -> Z -> Z -> result Delivery.
Variable schedule : list Pool.choice.

(** [processOrganization]: the call and the warnings of the caller,
    and what it returns. *)
Definition processOrganization (org : string)
  : option (list event * result (list Delivery)) :=
  let log := [CallListOrgRepos org] in
  match ListOrgRepos org with
  | Err e =>
      Some (log, Err (Wrapf "failed to list organization repositories" e))
  | Ok repos =>
      if (List.length repos =? 0)%nat then Some (log, Ok [])
      else
        match organizationExec fetchRepository repos schedule
                               (organizationPool repos) with
        | Some s =>
            match Pool.mainPhase s with
            | Pool.Returned =>
                let '(allDeliveries, warnings) := Pool.collected s in
                Some (log ++ warnings, Ok allDeliveries)
            | _ => None
            end
        | None => None
        end
  end.

(** [fetchDeliveryDetails]; [isOrg] is not read. *)
Definition fetchDeliveryDetails (deliveries : list Delivery) (isOrg : bool)
  : option (list event * result (list Delivery)) :=
  if (List.length deliveries =? 0)%nat then Some ([], Ok deliveries)
  else
    match detailExec rest_detail deliveries schedule
                     (detailPool deliveries) with
    | Some s =>
        match Pool.mainPhase s with
        | Pool.Returned =>
            let '(detailedDeliveries, warnings) := Pool.collected s in
            Some (warnings, Ok detailedDeliveries)
        | _ => None
        end
    | None => None
    end.
End Calls.

End Cmd.

(** ** Package [internal/output] *)

Module Output.
Import GoTime Github.

(** The escape character, [\033]. *)
Definition esc : string := String "027"%char EmptyString.

(** [fmt.Sprintf("\033[31m%s\033[0m", s)] and the like. *)
Definition red (s : string) : string := esc +:+ "[31m" +:+ s +:+ esc +:+ "[0m".
Definition green (s : string) : string :=
  esc +:+ "[32m" +:+ s +:+ esc +:+ "[0m".
Definition yellow (s : string) : string :=
  esc +:+ "[33m" +:+ s +:+ esc +:+ "[0m".

Definition header : list string :=
  ["Delivery ID"; "Repository"; "Hook ID"; "Timestamp"; "Status"; "Code";
   "Event"; "Action"; "URL"].

(** The status cell of a row of [FormatTable]. *)
Definition statusCell (d : Delivery) : string :=
  if StatusCode d =? 0 then red "delivery failed"
  else if String.eqb (Status d) "" then "-"
  else if (200 <=? StatusCode d) && (StatusCode d <? 300) then
    green (Status d)
  else if 400 <=? StatusCode d then red (Status d)
  else if (300 <=? StatusCode d) && (StatusCode d <? 400) then
    yellow (Status d)
  else Status d.

(** The URL cell: [urlDisplay[:47] + "..."] beyond 50 bytes. *)
Definition urlCell (d : Delivery) : string :=
  if String.eqb (URL d) "" then "-"
  else if (50 <? String.length (URL d))%nat then
    String.substring 0 47 (URL d) +:+ "..."
  else URL d.

Definition actionCell (d : Delivery) : string :=
  if String.eqb (Action d) "" then "-" else Action d.

Section FormatTable.
(** [time.Time.Format(time.RFC3339)], and what [tablewriter] renders for
    a header and rows. *)
Variable time_Format : Time -> string.
Variable table_Render : list string -> list (list string) -> string.

(** The cells handed to [table.Append]; [fmt.Sprintf("%d", n)] is the
    decimal notation of [n]. *)
Definition row (d : Delivery) : list string :=
  [pretty (ID d); Repository d; pretty (HookID d);
   time_Format (DeliveredAt d); statusCell d; pretty (StatusCode d);
   Event d; actionCell d; urlCell d].

(** [FormatTable]: what is written to [w]. *)
Definition FormatTable (deliveries : list Delivery) : string :=
  if (List.length deliveries =? 0)%nat then
    "No webhook deliveries found" +:+ String "010"%char EmptyString
  else table_Render header (map row deliveries).
End FormatTable.

Definition with_Status (d : Delivery) (status : string) : Delivery :=
  mkDelivery (ID d) (GUID d) (DeliveredAt d) (Redelivery d) (Duration d)
             status (StatusCode d) (Event d) (Action d) (URL d)
             (Repository d) (HookID d).

(** One round of the loop of [FormatJSON]: [displayDeliveries[i]]. *)
Definition displayDelivery (d : Delivery) : Delivery :=
  if (StatusCode d =? 0) && String.eqb (Status d) "" then
    with_Status d "delivery failed"
  else d.

Definition displayDeliveries (deliveries : list Delivery) : list Delivery :=
  map displayDelivery deliveries.

Section FormatJSON.
(** [json.Encoder.Encode] with the indentation set: what it writes and
    its error. *)
Variable json_Encode : list Delivery -> string * option error.

Definition FormatJSON (deliveries : list Delivery) : string * option error :=
  json_Encode (displayDeliveries deliveries).
End FormatJSON.

End Output.

(** * Vocabulary of the properties *)

Import GoTime Github.

(** ** Sample inputs *)

(** A few deliveries and configurations to run the definitions on. *)
Definition sampleDelivery (id : Z) (repo : string) (t : Time) (code : Z)
  (event : string) : Delivery :=
  mkDelivery id "" t false 0 "" code event "" "" repo 1.

Definition sampleConfig (failed : bool) (head : Z) (sortBy : string)
  : Config.Config :=
  Config.mkConfig "acme" "" "" None None false failed head sortBy.

Definition sampleHook : Hook :=
  mkHook 7 "https://api.github.com/repos/a/x/hooks/7" true "".

Definition sampleFilterConfig : Config.Config :=
  Config.mkConfig "" "a/x" "slack.com" None None false false 0 "".

(** Thirteen deliveries of one repository, in the order of their
    identifiers: twelve with status 200, then one with no response. *)
Definition unstableInput : list Delivery :=
  map (fun id => sampleDelivery id "a/x" (1000 + id) 200 "push")
      [1; 2; 3; 4; 5; 6; 7; 8; 9; 10; 11; 12]
  ++ [sampleDelivery 13 "a/x" 1013 0 "push"].

(** What [ApplySort] by ascending status code makes of them. *)
Definition unstableOutput : list Delivery :=
  sampleDelivery 13 "a/x" 1013 0 "push"
  :: map (fun id => sampleDelivery id "a/x" (1000 + id) 200 "push")
         [7; 3; 4; 5; 6; 1; 8; 9; 10; 11; 12; 2].

(** Five deliveries, three of them with status 200. *)
Definition fiveDeliveries : list Delivery :=
  [sampleDelivery 1 "a/x" 50 200 "push";
   sampleDelivery 2 "a/x" 40 0 "push";
   sampleDelivery 3 "a/y" 30 200 "issues";
   sampleDelivery 4 "a/y" 20 500 "push";
   sampleDelivery 5 "a/x" 10 200 "push"].

(** The example of the specification: five deliveries of one repository
    and two of another, by descending timestamp, and a limit of 3. *)
Definition sevenDeliveries : list Delivery :=
  [sampleDelivery 7 "org/a" 70 200 "push";
   sampleDelivery 6 "org/b" 60 200 "push";
   sampleDelivery 5 "org/a" 50 500 "push";
   sampleDelivery 4 "org/a" 40 200 "issues";
   sampleDelivery 3 "org/b" 30 0 "push";
   sampleDelivery 2 "org/a" 20 200 "push";
   sampleDelivery 1 "org/a" 10 404 "push"].

(** A run of the pool of [processOrganization] over three repositories,
    the second of which fails. *)
Definition sampleRepos : list string := ["a/x"; "a/y"; "a/z"].

Definition sampleFetchRepository (repo : string) : result (list Delivery) :=
  if String.eqb repo "a/y" then Err (Errorf "failed to list webhooks")
  else Ok [sampleDelivery 1 repo 10 200 "push"].

Definition sampleSchedule : list Pool.choice :=
  [Pool.MainStep; Pool.WorkerStep 0; Pool.MainStep; Pool.MainStep;
   Pool.WorkerStep 1; Pool.WorkerStep 1; Pool.WorkerStep 2;
   Pool.MainStep; Pool.WorkerStep 1; Pool.MainStep;
   Pool.WorkerStep 0; Pool.WorkerStep 2; Pool.MainStep;
   Pool.WorkerStep 0; Pool.MainStep; Pool.MainStep].

Definition sampleFinal : Pool.state string Cmd.repoResult Cmd.gathered :=
  default (Cmd.organizationPool sampleRepos)
          (Cmd.organizationExec sampleFetchRepository sampleRepos
                                sampleSchedule
                                (Cmd.organizationPool sampleRepos)).

Definition sampleMidway : Pool.state string Cmd.repoResult Cmd.gathered :=
  default (Cmd.organizationPool sampleRepos)
          (Cmd.organizationExec sampleFetchRepository sampleRepos
                                (take 7 sampleSchedule)
                                (Cmd.organizationPool sampleRepos)).

(** ** Configurations *)

Definition recognizedField (field : string) : Prop :=
  field = "repository" \/ field = "timestamp" \/ field = "code"
  \/ field = "event".

(** The defects of a configuration named by the specification.  The
    sort field is the text of [--sort] before the first colon, the order
    token the text after it, when [--sort] is given at all. *)
Definition sortField (c : Config.Config) : string :=
  Config.at_index (GoStrings.Split (Config.SortBy c) ":"%char) 0.

Definition orderToken (c : Config.Config) : option string :=
  GoStrings.Split (Config.SortBy c) ":"%char !! 1%nat.

Definition defective (c : Config.Config) : Prop :=
  (Config.Org c = "" /\ Config.Repo c = "")
  \/ (Config.Org c <> "" /\ Config.Repo c <> "")
  \/ Config.Head c < 0
  \/ (Config.SortBy c <> "" /\ ~ recognizedField (sortField c))
  \/ (Config.SortBy c <> ""
      /\ exists order, orderToken c = Some order
                       /\ order <> "asc" /\ order <> "desc").

(** ** The worker pools *)

Section PoolInvariant.
Context {Item Msg Acc : Type}.
Variable fetch : Item -> Msg.
Variable collect : Acc -> Msg -> Acc.
Variable empty : Acc.
Variable items : list Item.
Variable maxConcurrent : nat.

Local Abbreviation state := (Pool.state Item Msg Acc).
Local Abbreviation numWorkers := (Pool.numWorkers items maxConcurrent).

(** The jobs the workers are busy with. *)
Definition busyItem (w : Pool.worker Item) : list Item :=
  match w with
  | Pool.Busy x => [x]
  | _ => []
  end.

Definition busyItems (ws : list (Pool.worker Item)) : list Item :=
  concat (map busyItem ws).

(** The jobs the caller has not sent yet. *)
Definition unsent (s : state) : list Item :=
  match Pool.mainPhase s with
  | Pool.Sending rest => rest
  | _ => []
  end.

(** Where every job is, between the start of the pool and its end:
    [done] lists the jobs whose message the caller has received, in the
    order of reception, [onResults] and [onErrors'] those whose message
    waits in a channel. *)
Record invariant (s : state) (done onResults onErrors' : list Item) : Prop := {
  inv_collected :
    Pool.collected s = fold_left collect (map fetch done) empty;
  inv_results : Pool.results s = map fetch onResults;
  inv_errors : Pool.errors s = map fetch onErrors';
  inv_items :
    done ++ onResults ++ onErrors' ++ busyItems (Pool.workers s)
      ++ Pool.jobs s ++ unsent s ≡ₚ items;
  inv_attempted :
    Pool.attempted s ≡ₚ done ++ onResults ++ onErrors' ++ busyItems (Pool.workers s);
  inv_workers : List.length (Pool.workers s) = numWorkers;
  inv_phase :
    match Pool.mainPhase s with
    | Pool.Sending _ => done = [] /\ Pool.jobsClosed s = false
    | Pool.Collecting i => i = List.length done /\ Pool.jobsClosed s = true
    | Pool.Returned => List.length done = List.length items
    end;
  inv_exited :
    Pool.Exited ∈ Pool.workers s ->
    Pool.jobsClosed s = true /\ Pool.jobs s = []
}.

End PoolInvariant.

(** What the collecting loop of [processOrganization] builds from the
    repositories in the order [order] of their messages. *)
Definition repoPayloads (fetchRepository : string -> result (list Delivery))
  (order : list string) : list (list Delivery) :=
  omap (fun repo => match fetchRepository repo with
                    | Ok deliveries => Some deliveries
                    | Err _ => None
                    end) order.

Definition repoWarnings (fetchRepository : string -> result (list Delivery))
  (order : list string) : list Cmd.event :=
  omap (fun repo => match fetchRepository repo with
                    | Ok _ => None
                    | Err e => Some (Cmd.WarnRepository repo e)
                    end) order.

Definition repoFails (fetchRepository : string -> result (list Delivery))
  (repo : string) : bool :=
  match fetchRepository repo with
  | Ok _ => false
  | Err _ => true
  end.

(** The same for [fetchDeliveryDetails]. *)
Definition detailPayloads (rest_detail : string -> Z -> Z -> result Delivery)
  (order : list Delivery) : list Delivery :=
  omap (fun d => match Cmd.detailWorker rest_detail d with
                 | Ok detailed => Some detailed
                 | Err _ => None
                 end) order.

Definition detailWarnings (rest_detail : string -> Z -> Z -> result Delivery)
  (order : list Delivery) : list Cmd.event :=
  omap (fun d => match Cmd.detailWorker rest_detail d with
                 | Ok _ => None
                 | Err e => Some (Cmd.WarnDetail e)
                 end) order.

Definition detailFails (rest_detail : string -> Z -> Z -> result Delivery)
  (d : Delivery) : bool :=
  Cmd.detailOnErrors (Cmd.detailWorker rest_detail d).

(** ** Orders and sorted lists *)

(** [less] is a strict weak order: what [sort.Slice] asks of its
    argument. *)
Record StrictWeakOrder {A : Type} (less : A -> A -> bool) : Prop := {
  swo_irrefl : forall x, less x x = false;
  swo_trans : forall x y z, less x y = true -> less y z = true -> less x z = true;
  swo_incomp :
    forall x y z, less x z = true -> less x y = true \/ less y z = true
}.

(** [l] is in the order of [less]: no element is less than one before
    it. *)
Definition sortedBy {A : Type} (less : A -> A -> bool) (l : list A) : Prop :=
  forall i j x y,
    (i < j)%nat -> l !! i = Some x -> l !! j = Some y -> less y x = false.

(** The same of the positions [a <= i < b] only. *)
Definition sortedRange {A : Type} (less : A -> A -> bool) (a b : nat)
  (l : list A) : Prop :=
  forall i j x y,
    (a <= i)%nat -> (i < j)%nat -> (j < b)%nat ->
    l !! i = Some x -> l !! j = Some y -> less y x = false.

(** No element of the positions [a <= j < b] is less than one before
    [a]. *)
Definition aboveLeft {A : Type} (less : A -> A -> bool) (a b : nat)
  (l : list A) : Prop :=
  forall i j x y,
    (i < a)%nat -> (a <= j)%nat -> (j < b)%nat ->
    l !! i = Some x -> l !! j = Some y -> less y x = false.

(** [l'] is [l] with the positions [a <= i < b] permuted. *)
Record rangePerm {A : Type} (a b : nat) (l l' : list A) : Prop := {
  rp_length : length l' = length l;
  rp_outside : forall i, (i < a)%nat \/ (b <= i)%nat -> l' !! i = l !! i;
  rp_perm : l' ≡ₚ l
}.

(** [strings.Compare(a, b) < 0] *)
Definition stringLess (a b : string) : bool := GoStrings.Compare a b <? 0.

Definition hasCode (code : Z) (d : Delivery) : bool := StatusCode d =? code.

(** The deliveries of one repository. *)
Definition inRepo (repo : string) (d : Delivery) : bool :=
  String.eqb (Repository d) repo.

(** ** The steps of [sort.Slice] *)

(** What the inner loop of [insertionSort_func] does to the sorted
    prefix, read from its last element to its first: [x] moves towards
    the front past every element it is less than. *)
Fixpoint insertBack {A : Type} (less : A -> A -> bool) (x : A)
  (r : list A) : list A :=
  match r with
  | [] => [x]
  | y :: r' => if less x y then y :: insertBack less x r' else x :: y :: r'
  end.

(** The outer loop: [r] is the sorted prefix, last element first, and
    [todo] what is still to insert. *)
Fixpoint insertAll {A : Type} (less : A -> A -> bool) (r todo : list A)
  : list A :=
  match todo with
  | [] => rev r
  | x :: todo' => insertAll less (insertBack less x r) todo'
  end.

(** Insertion sort as a function on lists. *)
Definition isort {A : Type} (less : A -> A -> bool) (l : list A) : list A :=
  insertAll less [] l.

(** [r] lists a sorted run from its last element to its first. *)
Definition descending {A : Type} (less : A -> A -> bool) (r : list A)
  : Prop :=
  StronglySorted (fun y z => less y z = false) r.

(** The positions [i <= k <= j'] hold elements less than [p], the
    positions [j' < k <= j] elements not less than [p]. *)
Definition splitBy {A : Type} (less : A -> A -> bool) (p : A)
  (i j' j : nat) (l : list A) : Prop :=
  (forall k x, (i <= k <= j')%nat -> l !! k = Some x -> less x p = true)
  /\ (forall k x, (j' < k <= j)%nat -> l !! k = Some x -> less x p = false).

(** What [partition_func] establishes: [p] sits at [mid], with the
    elements less than it before and the others after. *)
Definition partitioned {A : Type} (less : A -> A -> bool) (p : A)
  (a mid b : nat) (l : list A) : Prop :=
  (forall k x, (a <= k < mid)%nat -> l !! k = Some x -> less x p = true)
  /\ l !! mid = Some p
  /\ (forall k x, (mid < k < b)%nat -> l !! k = Some x -> less x p = false).

(** The positions [i <= k < i'] hold elements [p] is not less than, the
    positions [i' <= k <= j] elements [p] is less than. *)
Definition splitEqualBy {A : Type} (less : A -> A -> bool) (p : A)
  (i i' j : nat) (l : list A) : Prop :=
  (forall k x, (i <= k < i')%nat -> l !! k = Some x -> less p x = false)
  /\ (forall k x, (i' <= k <= j)%nat -> l !! k = Some x -> less p x = true).

(** In the heap laid out from position [first], no node from [lo] on is
    less than a child of its below [hi]. *)
Definition heapAt {A : Type} (less : A -> A -> bool) (first lo hi : nat)
  (l : list A) : Prop :=
  forall k c x y,
    (lo <= k)%nat -> (c < hi)%nat ->
    (c = 2 * k + 1 \/ c = 2 * k + 2)%nat ->
    l !! (first + k)%nat = Some x -> l !! (first + c)%nat = Some y ->
    less x y = false.

(** The same but for the node [r], whose children are instead bounded
    by its parent. *)
Definition heapExcept {A : Type} (less : A -> A -> bool)
  (first lo hi r : nat) (l : list A) : Prop :=
  (forall k c x y,
      (lo <= k)%nat -> k <> r -> (c < hi)%nat ->
      (c = 2 * k + 1 \/ c = 2 * k + 2)%nat ->
      l !! (first + k)%nat = Some x -> l !! (first + c)%nat = Some y ->
      less x y = false)
  /\ (forall k c x y,
        (lo <= k)%nat -> (r = 2 * k + 1 \/ r = 2 * k + 2)%nat ->
        (c < hi)%nat -> (c = 2 * r + 1 \/ c = 2 * r + 2)%nat ->
        l !! (first + k)%nat = Some x -> l !! (first + c)%nat = Some y ->
        less x y = false).

(** What [pdqsort_func] returns on the positions [a <= i < b] of [l]. *)
Definition pdqsortPost {A : Type} (less : A -> A -> bool) (a b : nat)
  (l : list A) (r : option (list A)) : Prop :=
  exists l', r = Some l' /\ rangePerm a b l l' /\ sortedRange less a b l'.

(** ** Well-formed configurations *)

(** The byte [c] occurs in [s]. *)
Definition hasByte (c : ascii) (s : string) : Prop :=
  In c (String.list_ascii_of_string s).

(** [s] is [owner/name], with neither part empty and no further
    slash. *)
Definition ownerAndName (s : string) : Prop :=
  exists owner name,
    s = owner +:+ "/" +:+ name
    /\ owner <> "" /\ name <> ""
    /\ ~ hasByte "/" owner /\ ~ hasByte "/" name.

(** [s] is a sort field, alone or followed by [:asc] or [:desc]. *)
Definition fieldAndOrder (s : string) : Prop :=
  exists field,
    recognizedField field
    /\ (s = field \/ s = field +:+ ":asc" \/ s = field +:+ ":desc").

Definition wellFormed (c : Config.Config) : Prop :=
  ((Config.Org c <> "" /\ Config.Repo c = "")
   \/ (Config.Org c = "" /\ ownerAndName (Config.Repo c)))
  /\ (forall since until,
         Config.Since c = Some since -> Config.Until c = Some until ->
         since <= until)
  /\ 0 <= Config.Head c
  /\ (Config.SortBy c = "" \/ fieldAndOrder (Config.SortBy c)).

(** ** Substrings *)

(** [sub] occurs in [s]. *)
Definition occursIn (sub s : string) : Prop :=
  exists pre post, s = pre +:+ sub +:+ post.

(** ** The pages of [ListOrgRepos] *)

Section Pages.
Variable rest_org_repos : string -> Z -> Z -> response (list repo).
Variable org : string.

(** What page [page] of the repositories of [org] decodes to. *)
Definition pageOf (page : Z) : list repo :=
  match rest_org_repos org 100 page with
  | Decoded pageRepos => pageRepos
  | _ => []
  end.

(** The [n] pages from [page] on, one after the other. *)
Definition pagesFrom (page : Z) (n : nat) : list repo :=
  concat (map pageOf (seqZ page (Z.of_nat n))).

(** The page arrives and is full: it holds 100 repositories or more. *)
Definition fullPage (page : Z) : Prop :=
  exists pageRepos,
    rest_org_repos org 100 page = Decoded pageRepos
    /\ (100 <= length pageRepos)%nat.
End Pages.

(** What [ListOrgRepos] makes of a failed request. *)
Definition pageError {A : Type} (r : response A) : option error :=
  match r with
  | RequestFailed e =>
      Some (Wrapf "failed to list organization repositories" e)
  | ReadFailed e => Some (Wrapf "failed to read response body" e)
  | ParseFailed e => Some (Wrapf "failed to parse repositories response" e)
  | Decoded _ => None
  end.

(** An organization of 103 repositories: a full first page and three
    repositories on the second; one whose second page fails; and one
    whose pages are all full. *)
Definition samplePages (org : string) (perPage page : Z)
  : response (list repo) :=
  if page =? 1 then Decoded (replicate 100 (mkRepo "acme/a"))
  else Decoded [mkRepo "acme/b"; mkRepo "acme/c"; mkRepo "acme/d"].

Definition samplePagesFailing (org : string) (perPage page : Z)
  : response (list repo) :=
  if page =? 1 then Decoded (replicate 100 (mkRepo "acme/a"))
  else RequestFailed (Errorf "HTTP 502").

Definition samplePagesFull (org : string) (perPage page : Z)
  : response (list repo) :=
  Decoded (replicate 100 (mkRepo "acme/a")).


(** ** The hooks of a repository *)

Section Hooks.
Variable unicodeLower : string -> string.
Variable rest_deliveries : string -> Z -> Z -> result (list Delivery).
Variable cfg : Config.Config.

(** The hook passes the pre-filter of [processRepository]. *)
Definition eligible (hook : Hook) : bool :=
  negb (Config.nonempty (Config.Filter cfg)
        && negb (MatchesFilter unicodeLower hook (Config.Filter cfg))).

(** What the listing of the deliveries of [hook] contributes to the
    result, and to the events. *)
Definition hookDeliveries (repo : string) (hook : Hook) : list Delivery :=
  match ListRepoHookDeliveries rest_deliveries repo (Hook_ID hook) 100 with
  | Ok deliveries => map (fun d => with_URL d (GetTargetURL hook)) deliveries
  | Err _ => []
  end.

Definition hookEvents (repo : string) (hook : Hook) : list Cmd.event :=
  Cmd.CallListRepoHookDeliveries repo (Hook_ID hook) 100
  :: match ListRepoHookDeliveries rest_deliveries repo (Hook_ID hook) 100 with
     | Ok _ => []
     | Err e => [Cmd.WarnHookDeliveries (Hook_ID hook) e]
     end.
End Hooks.

(** Two hooks of a repository, the second of which cannot be listed. *)
Definition sampleHooks (repo : string) : result (list Hook) :=
  Ok [mkHook 7 "" true "https://hooks.slack.com/a";
      mkHook 8 "" true "https://ci.example.org/b"].

Definition sampleHookListing (repo : string) (hookID perPage : Z)
  : result (list Delivery) :=
  if hookID =? 7 then Ok [sampleDelivery 1 "" 10 200 "push"]
  else Err (Errorf "HTTP 500").

(** The detail of a delivery: a URL for every delivery but the one with
    identifier 2, whose detail cannot be fetched. *)
Definition sampleDetail (repo : string) (hookID deliveryID : Z)
  : result Delivery :=
  if deliveryID =? 2 then Err (Errorf "HTTP 404")
  else Ok (with_URL (sampleDelivery deliveryID "" 0 0 "")
                    "https://hooks.slack.com/a").

Definition twoDeliveries : list Delivery :=
  [sampleDelivery 1 "a/x" 10 200 "push"; sampleDelivery 2 "a/x" 20 500 "push"].

(** A run of the pool of [fetchDeliveryDetails] over them. *)
Definition sampleDetailSchedule : list Pool.choice :=
  [Pool.MainStep; Pool.MainStep; Pool.MainStep; Pool.WorkerStep 0;
   Pool.WorkerStep 1; Pool.WorkerStep 1; Pool.WorkerStep 0;
   Pool.MainSelectErrors; Pool.MainStep; Pool.MainStep].

(** A run over an organization whose repositories hold
    [fiveDeliveries], with details that change nothing. *)
Definition sampleRun (sinceStr untilStr : string) (cfg : Config.Config)
  : option (list Cmd.event * result (list Delivery)) :=
  Cmd.run (fun s => s) (fun r => r) map_to_list (fun _ => Ok 0) None
          sampleHooks sampleHookListing
          (fun _ => ([], Ok fiveDeliveries)) (fun ds => ([], ds))
          sinceStr untilStr cfg.

(** * Properties *)

(** ** Strings *)

Lemma eqb_false_iff (s t : string) : String.eqb s t = false <-> s <> t.
Proof.
  destruct (String.eqb_spec s t); split; intros; congruence.
Qed.

Lemma nonempty_true (s : string) : Config.nonempty s = true <-> s <> "".
Proof.
  unfold Config.nonempty. rewrite negb_true_iff. apply eqb_false_iff.
Qed.

Lemma nonempty_false (s : string) : Config.nonempty s = false <-> s = "".
Proof.
  unfold Config.nonempty. rewrite negb_false_iff. apply String.eqb_eq.
Qed.

Lemma lower_bytes_empty (s : string) :
  GoStrings.lower_bytes s = "" -> s = "".
Proof. destruct s; simpl; intros H; [reflexivity | discriminate]. Qed.

Lemma Contains_empty_l (substr : string) :
  substr <> "" -> GoStrings.Contains "" substr = false.
Proof.
  intros Hne. destruct substr as [|c substr]; [congruence | reflexivity].
Qed.

(** ** The failure-status predicate *)

Lemma IsFailed_spec (statusCode : Z) :
  Filter.IsFailed statusCode = true <-> statusCode = 0 \/ 400 <= statusCode.
Proof.
  unfold Filter.IsFailed. rewrite orb_true_iff, Z.eqb_eq, Z.leb_le. tauto.
Qed.

(** ** The time-range predicate *)

Lemma InRange_spec (t : Time) (since until : option Time) :
  Filter.InRange t since until = true <->
  (forall lo, since = Some lo -> lo <= t) /\
  (forall hi, until = Some hi -> t <= hi).
Proof.
  unfold Filter.InRange, Before, After. split.
  - intros H. split; intros b ->.
    + destruct (Z.ltb_spec t b); [discriminate | lia].
    + destruct since as [lo|].
      * destruct (Z.ltb_spec t lo); [discriminate |].
        destruct (Z.ltb_spec b t); [discriminate | lia].
      * destruct (Z.ltb_spec b t); [discriminate | lia].
  - intros [Hlo Hhi].
    destruct since as [lo|].
    + specialize (Hlo lo eq_refl).
      destruct (Z.ltb_spec t lo); [lia |].
      destruct until as [hi|]; [| reflexivity].
      specialize (Hhi hi eq_refl).
      destruct (Z.ltb_spec hi t); [lia | reflexivity].
    + destruct until as [hi|]; [| reflexivity].
      specialize (Hhi hi eq_refl).
      destruct (Z.ltb_spec hi t); [lia | reflexivity].
Qed.

Lemma filter_ext_bool {A : Type} (f g : A -> bool) (l : list A) :
  (forall x, f x = g x) -> List.filter f l = List.filter g l.
Proof.
  intros Hfg. induction l as [|x l IH]; simpl; [reflexivity |].
  rewrite Hfg, IH. reflexivity.
Qed.

(** C5. With the failed-only filter enabled, the deliveries that pass are
    exactly those whose status code is 0 or at least 400: the filtered
    list is the input with the other deliveries taken out, in the same
    order. *)
Theorem failed_filter_keeps_exactly_failed
  (cfg : Config.Config) (deliveries : list Delivery)
  (Hfailed : Config.Failed cfg = true) :
  Cmd.failedFilter cfg deliveries
  = List.filter
      (fun d => bool_decide (StatusCode d = 0 \/ 400 <= StatusCode d))
      deliveries
  /\ (forall d, In d (Cmd.failedFilter cfg deliveries)
                <-> In d deliveries /\ (StatusCode d = 0 \/ 400 <= StatusCode d))
  /\ (forall statusCode,
        Filter.IsFailed statusCode = true
        <-> statusCode = 0 \/ 400 <= statusCode).
Proof.
  assert (Heq : Cmd.failedFilter cfg deliveries
                = List.filter
                    (fun d => bool_decide (StatusCode d = 0 \/ 400 <= StatusCode d))
                    deliveries).
  { unfold Cmd.failedFilter. rewrite Hfailed.
    apply filter_ext_bool. intros d.
    apply eq_true_iff_eq. rewrite IsFailed_spec, bool_decide_eq_true.
    reflexivity. }
  split; [exact Heq |]. split; [| exact IsFailed_spec].
  intros d. rewrite Heq, filter_In, bool_decide_eq_true. reflexivity.
Qed.

Lemma failed_filter_keeps_exactly_failed_witness :
  Cmd.failedFilter (sampleConfig true 0 "")
    [sampleDelivery 1 "a/x" 10 200 "push";
     sampleDelivery 2 "a/x" 20 0 "push";
     sampleDelivery 3 "a/y" 30 500 "issues";
     sampleDelivery 4 "a/y" 40 399 "issues"]
  = [sampleDelivery 2 "a/x" 20 0 "push";
     sampleDelivery 3 "a/y" 30 500 "issues"].
Proof.
  rewrite (proj1 (failed_filter_keeps_exactly_failed
                    (sampleConfig true 0 "") _ eq_refl)).
  reflexivity.
Defined.

(** C7. The time-range predicate keeps a delivery exactly when its
    timestamp is not before the lower bound, if one is set, and not after
    the upper bound, if one is set; an absent bound does not restrict,
    and a timestamp equal to a bound is kept. *)
Theorem time_range_bounds_inclusive :
  (forall (t : Time) (since until : option Time),
      Filter.InRange t since until = true
      <-> (forall lo, since = Some lo -> ~ t < lo)
          /\ (forall hi, until = Some hi -> ~ hi < t))
  /\ (forall t : Time, Filter.InRange t None None = true)
  /\ (forall t : Time,
        Filter.InRange t (Some t) None = true
        /\ Filter.InRange t None (Some t) = true
        /\ Filter.InRange t (Some t) (Some t) = true)
  /\ (forall (cfg : Config.Config) (deliveries : list Delivery) (d : Delivery),
        In d (Cmd.dateRangeFilter cfg deliveries)
        <-> In d deliveries
            /\ (forall lo, Config.Since cfg = Some lo -> ~ DeliveredAt d < lo)
            /\ (forall hi, Config.Until cfg = Some hi -> ~ hi < DeliveredAt d))
  /\ (forall (cfg : Config.Config) (deliveries : list Delivery),
        sublist (Cmd.dateRangeFilter cfg deliveries) deliveries).
Proof.
  assert (Hspec : forall (t : Time) (since until : option Time),
             Filter.InRange t since until = true
             <-> (forall lo, since = Some lo -> ~ t < lo)
                 /\ (forall hi, until = Some hi -> ~ hi < t)).
  { intros t since until. rewrite InRange_spec.
    split; intros [Hlo Hhi]; split; intros b Hb.
    - specialize (Hlo b Hb). lia.
    - specialize (Hhi b Hb). lia.
    - specialize (Hlo b Hb). lia.
    - specialize (Hhi b Hb). lia. }
  split; [exact Hspec |].
  split.
  { intros t. reflexivity. }
  split.
  { intros t. unfold Filter.InRange, Before, After.
    rewrite Z.ltb_irrefl. repeat split. }
  split.
  { intros cfg deliveries d. unfold Cmd.dateRangeFilter.
    rewrite filter_In, Hspec. reflexivity. }
  intros cfg deliveries. unfold Cmd.dateRangeFilter.
  induction deliveries as [|d l IH]; simpl; [constructor |].
  destruct (Filter.InRange _ _ _); [apply sublist_skip | apply sublist_cons];
    exact IH.
Qed.

(** ** Sort configuration *)

Lemma validField_spec (field : string) :
  Config.validField field = true <-> recognizedField field.
Proof.
  unfold Config.validField, Config.validFields, recognizedField.
  split.
  - intros H.
    destruct (decide (field = "repository")) as [->|H1]; [tauto |].
    destruct (decide (field = "timestamp")) as [->|H2]; [tauto |].
    destruct (decide (field = "code")) as [->|H3]; [tauto |].
    destruct (decide (field = "event")) as [->|H4]; [tauto |].
    rewrite !lookup_insert_ne, lookup_empty in H by congruence.
    discriminate.
  - intros [-> | [-> | [-> | ->]]]; reflexivity.
Qed.

Lemma ApplySort_unrecognized (next : Z -> Z) (deliveries : list Delivery)
  (field : string) (ascending : bool) :
  ~ recognizedField field ->
  ApplySort next deliveries field ascending
  = SortDeliveriesByTime next deliveries false.
Proof.
  unfold recognizedField, ApplySort. intros Hf.
  repeat match goal with
         | |- context [String.eqb field ?s] =>
             destruct (String.eqb_spec field s); [tauto |]
         end.
  reflexivity.
Qed.

(** C6. A sort field given without a direction gets the default of the
    field: ascending for repository and event, descending for timestamp
    and code.  With no sort field configured the sort is by timestamp,
    descending, and so is the sort [ApplySort] performs for a field it
    does not recognize, whichever direction comes with it. *)
Theorem sort_direction_defaults :
  (forall cfg, Config.SortBy cfg = "repository" ->
               Config.GetSortConfig cfg = ("repository", true))
  /\ (forall cfg, Config.SortBy cfg = "event" ->
                  Config.GetSortConfig cfg = ("event", true))
  /\ (forall cfg, Config.SortBy cfg = "timestamp" ->
                  Config.GetSortConfig cfg = ("timestamp", false))
  /\ (forall cfg, Config.SortBy cfg = "code" ->
                  Config.GetSortConfig cfg = ("code", false))
  /\ (forall cfg, Config.SortBy cfg = "" ->
                  Config.GetSortConfig cfg = ("timestamp", false))
  /\ (forall (next : Z -> Z) deliveries field ascending,
        ~ recognizedField field ->
        ApplySort next deliveries field ascending
        = ApplySort next deliveries "timestamp" false).
Proof.
  repeat split; try (intros cfg H; unfold Config.GetSortConfig; rewrite H;
                     reflexivity).
  intros next deliveries field ascending Hf.
  rewrite ApplySort_unrecognized by exact Hf. reflexivity.
Qed.

Lemma sort_direction_defaults_witness :
  Config.GetSortConfig (sampleConfig false 0 "repository") = ("repository", true)
  /\ Config.GetSortConfig (sampleConfig false 0 "event") = ("event", true)
  /\ Config.GetSortConfig (sampleConfig false 0 "timestamp") = ("timestamp", false)
  /\ Config.GetSortConfig (sampleConfig false 0 "code") = ("code", false)
  /\ Config.GetSortConfig (sampleConfig false 0 "") = ("timestamp", false)
  /\ ApplySort (fun r => r) [sampleDelivery 1 "a/x" 10 200 "push";
                             sampleDelivery 2 "a/x" 20 0 "push"] "status" true
     = ApplySort (fun r => r) [sampleDelivery 1 "a/x" 10 200 "push";
                               sampleDelivery 2 "a/x" 20 0 "push"]
                 "timestamp" false.
Proof.
  destruct sort_direction_defaults as (H1 & H2 & H3 & H4 & H5 & H6).
  split; [apply H1; reflexivity |].
  split; [apply H2; reflexivity |].
  split; [apply H3; reflexivity |].
  split; [apply H4; reflexivity |].
  split; [apply H5; reflexivity |].
  apply H6. unfold recognizedField.
  intros [H | [H | [H | H]]]; discriminate H.
Defined.

(** ** Validation *)

(** What a configuration that passes [Validate] has gone through. *)
Lemma Validate_None_inv (c : Config.Config) :
  Config.Validate c = None ->
  String.eqb (Config.Org c) "" && String.eqb (Config.Repo c) "" = false
  /\ Config.nonempty (Config.Org c) && Config.nonempty (Config.Repo c) = false
  /\ (Config.Head c <? 0) = false
  /\ (Config.nonempty (Config.SortBy c) = true ->
      let parts := GoStrings.Split (Config.SortBy c) ":"%char in
      (2 <? List.length parts)%nat = false
      /\ Config.validField (Config.at_index parts 0) = true
      /\ (List.length parts =? 2)%nat
         && negb (String.eqb (Config.at_index parts 1) "asc")
         && negb (String.eqb (Config.at_index parts 1) "desc") = false).
Proof.
  unfold Config.Validate.
  repeat match goal with
         | |- (if ?b then _ else _) = None -> _ =>
             destruct b eqn:?; [discriminate |]
         end.
  destruct (Config.nonempty (Config.SortBy c)) eqn:Hsort.
  - cbv zeta.
    repeat match goal with
           | |- (if ?b then _ else _) = None -> _ =>
               destruct b eqn:?; [discriminate |]
           end.
    intros _. do 3 (split; [reflexivity |]).
    intros _. split; [reflexivity |].
    split; [apply negb_false_iff; assumption | reflexivity].
  - intros _. do 3 (split; [reflexivity |]). intros H. discriminate H.
Qed.

Lemma Validate_rejects_defective (c : Config.Config) :
  defective c -> exists e, Config.Validate c = Some e.
Proof.
  intros Hdef.
  destruct (Config.Validate c) as [e|] eqn:Hval; [exists e; reflexivity |].
  exfalso.
  apply Validate_None_inv in Hval.
  destruct Hval as (Hnone & Hboth & Hhead & Hsort).
  destruct Hdef as [[Ho Hr] | [[Ho Hr] | [Hneg | Hs]]].
  - rewrite Ho, Hr in Hnone. discriminate Hnone.
  - apply nonempty_true in Ho. apply nonempty_true in Hr.
    rewrite Ho, Hr in Hboth. discriminate Hboth.
  - apply Z.ltb_ge in Hhead. lia.
  - assert (Hne : Config.SortBy c <> "")
      by (destruct Hs as [[? _] | [? _]]; assumption).
    apply nonempty_true in Hne. specialize (Hsort Hne).
    cbv zeta in Hsort. destruct Hsort as (Hlen & Hvalid & Horder).
    destruct Hs as [[_ Hbad] | [_ (order & Htok & Hasc & Hdesc)]].
    + apply Hbad. apply validField_spec. exact Hvalid.
    + unfold orderToken in Htok.
      assert (Hl2 : List.length (GoStrings.Split (Config.SortBy c) ":"%char)
                    = 2%nat).
      { apply lookup_lt_Some in Htok. apply Nat.ltb_ge in Hlen. lia. }
      rewrite Hl2 in Horder. unfold Config.at_index in Horder.
      rewrite Htok in Horder. simpl in Horder.
      apply eqb_false_iff in Hasc. apply eqb_false_iff in Hdesc.
      rewrite Hasc, Hdesc in Horder. discriminate Horder.
Qed.

Lemma defective_with_Since_Until (c : Config.Config)
  (since until : option Time) :
  defective (Config.with_Since_Until c since until) <-> defective c.
Proof. reflexivity. Qed.

Section RunValidation.
Variable unicodeLower : string -> string.
Variable xorshift_Next : Z -> Z.
Variable rangeOrder :
  gmap string (list Delivery) -> list (string * list Delivery).
Variable time_Parse : string -> result Time.
Variable NewClient : option error.
Variable rest_hooks : string -> result (list Hook).
Variable rest_deliveries : string -> Z -> Z -> result (list Delivery).
Variable processOrganization :
  string -> list Cmd.event * result (list Delivery).
Variable fetchDeliveryDetails :
  list Delivery -> list Cmd.event * list Delivery.

Let run :=
  Cmd.run unicodeLower xorshift_Next rangeOrder time_Parse NewClient
          rest_hooks rest_deliveries processOrganization
          fetchDeliveryDetails.

(** C8. A configuration with both or neither of [--org] and [--repo],
    a negative [--head], a sort field outside repository, timestamp,
    code and event, or an order token other than asc and desc is
    rejected by [Validate], and [run] then returns that error with no
    event behind it: no client, no network call, no fetch.  A run with
    any event therefore has a configuration with none of these
    defects. *)
Theorem validation_precedes_all_fetching
  (sinceStr untilStr : string) (cfg : Config.Config) :
  (defective cfg -> exists e, Config.Validate cfg = Some e)
  /\ (defective cfg ->
      exists e, run sinceStr untilStr cfg = Some ([], Err e))
  /\ (forall log outcome,
        run sinceStr untilStr cfg = Some (log, outcome) ->
        log <> [] -> ~ defective cfg).
Proof.
  assert (Hrej : defective cfg ->
                 exists e, run sinceStr untilStr cfg = Some ([], Err e)).
  { intros Hdef. unfold run, Cmd.run.
    destruct (Config.ParseDateRange time_Parse sinceStr untilStr)
      as [[since until]|e]; [| exists e; reflexivity].
    destruct (Validate_rejects_defective
                (Config.with_Since_Until cfg since until)) as [e He].
    { apply defective_with_Since_Until. exact Hdef. }
    rewrite He. eexists. reflexivity. }
  split; [apply Validate_rejects_defective |].
  split; [exact Hrej |].
  intros log outcome Hrun Hlog Hdef.
  destruct (Hrej Hdef) as [e He].
  rewrite He in Hrun. injection Hrun as <- _. apply Hlog. reflexivity.
Qed.
End RunValidation.

Lemma validation_precedes_all_fetching_witness :
  defective (sampleConfig false (-1) "")
  /\ exists e,
      Cmd.run (fun s => s) (fun r => r) map_to_list (fun _ => Ok 0) None
              (fun _ => Ok []) (fun _ _ _ => Ok [])
              (fun _ => ([], Ok [])) (fun ds => ([], ds))
              "2026-01-01" "" (sampleConfig false (-1) "")
      = Some ([], Err e).
Proof.
  assert (Hdef : defective (sampleConfig false (-1) "")).
  { unfold defective. right. right. left. simpl. lia. }
  split; [exact Hdef |].
  exact (proj1 (proj2 (validation_precedes_all_fetching
                         (fun s => s) (fun r => r) map_to_list
                         (fun _ => Ok 0) None (fun _ => Ok [])
                         (fun _ _ _ => Ok []) (fun _ => ([], Ok []))
                         (fun ds => ([], ds)) "2026-01-01" ""
                         (sampleConfig false (-1) ""))) Hdef).
Defined.

(** ** The discovery pre-filter *)

Lemma prefix_refl (s : string) : String.prefix s s = true.
Proof.
  induction s as [|c s IH]; simpl; [reflexivity |].
  destruct (Ascii.ascii_dec c c); [exact IH | congruence].
Qed.

Lemma Contains_refl (s : string) : GoStrings.Contains s s = true.
Proof.
  destruct s; simpl; [reflexivity |].
  destruct (Ascii.ascii_dec a a); [| congruence].
  rewrite prefix_refl. reflexivity.
Qed.

Section PreFilter.
Variable unicodeLower : string -> string.
(** [strings.Map] drops no character when the mapping is
    [unicode.ToLower]. *)
Hypothesis unicodeLower_nonempty :
  forall s, s <> "" -> unicodeLower s <> "".

Lemma ToLower_nonempty (s : string) :
  s <> "" -> GoStrings.ToLower unicodeLower s <> "".
Proof.
  intros Hs. unfold GoStrings.ToLower.
  destruct (GoStrings.isASCII s).
  - intros H. apply Hs. apply lower_bytes_empty. exact H.
  - apply unicodeLower_nonempty. exact Hs.
Qed.

Lemma MatchesFilter_no_target (h : Hook) (pattern : string) :
  Hook_Config_URL h = "" -> pattern <> "" ->
  MatchesFilter unicodeLower h pattern = false.
Proof.
  intros Hurl Hpat. unfold MatchesFilter, GetTargetURL.
  apply eqb_false_iff in Hpat as Hpat'. rewrite Hpat', Hurl. simpl.
  apply Contains_empty_l. apply ToLower_nonempty. exact Hpat.
Qed.

Lemma processHooks_app rest_deliveries cfg repo hooks1 hooks2 acc :
  Cmd.processHooks unicodeLower rest_deliveries cfg repo (hooks1 ++ hooks2) acc
  = Cmd.processHooks unicodeLower rest_deliveries cfg repo hooks2
      (Cmd.processHooks unicodeLower rest_deliveries cfg repo hooks1 acc).
Proof. unfold Cmd.processHooks. apply fold_left_app. Qed.

(** C10. A hook with no configured target URL answers the empty string
    to [GetTargetURL], which contains no non-empty pattern: with a URL
    filter set, the loop of [processRepository] passes over the hook
    without a call for its deliveries and without adding a delivery,
    so the repository yields what it would yield without that hook;
    and this whatever the URL predicate of [run] would say of the
    hook's deliveries, which accepts, for one, a delivery URL equal to
    the pattern. *)
Theorem hook_without_target_url_is_never_fetched
  (h : Hook) (cfg : Config.Config)
  (Hurl : Hook_Config_URL h = "")
  (Hpattern : Config.Filter cfg <> "") :
  GetTargetURL h = ""
  /\ MatchesFilter unicodeLower h (Config.Filter cfg) = false
  /\ (forall rest_deliveries repo acc,
        Cmd.processHook unicodeLower rest_deliveries cfg repo acc h = acc)
  /\ (forall rest_hooks rest_hooks' rest_deliveries repo hooks1 hooks2,
        rest_hooks repo = Ok (hooks1 ++ h :: hooks2) ->
        rest_hooks' repo = Ok (hooks1 ++ hooks2) ->
        Cmd.processRepository unicodeLower rest_hooks rest_deliveries cfg repo
        = Cmd.processRepository unicodeLower rest_hooks' rest_deliveries cfg repo)
  /\ Filter.MatchesPattern unicodeLower (Config.Filter cfg) (Config.Filter cfg)
     = true.
Proof.
  assert (Hskip : forall rest_deliveries repo acc,
             Cmd.processHook unicodeLower rest_deliveries cfg repo acc h = acc).
  { intros rest_deliveries repo [log allDeliveries]. unfold Cmd.processHook.
    rewrite MatchesFilter_no_target by assumption.
    apply nonempty_true in Hpattern. rewrite Hpattern. reflexivity. }
  split; [unfold GetTargetURL; rewrite Hurl; reflexivity |].
  split; [apply MatchesFilter_no_target; assumption |].
  split; [exact Hskip |].
  split.
  - intros rest_hooks rest_hooks' rest_deliveries repo hooks1 hooks2 H1 H2.
    unfold Cmd.processRepository, ListRepoWebhooks. rewrite H1, H2.
    assert (Hloop : forall acc,
               Cmd.processHooks unicodeLower rest_deliveries cfg repo
                                (hooks1 ++ h :: hooks2) acc
               = Cmd.processHooks unicodeLower rest_deliveries cfg repo
                                  (hooks1 ++ hooks2) acc).
    { intros acc. rewrite !processHooks_app.
      unfold Cmd.processHooks at 1. simpl. rewrite Hskip. reflexivity. }
    rewrite Hloop.
    replace (List.length (hooks1 ++ h :: hooks2) =? 0)%nat with false
      by (symmetry; apply Nat.eqb_neq; rewrite length_app; simpl; lia).
    destruct (List.length (hooks1 ++ hooks2) =? 0)%nat eqn:Hlen;
      [| reflexivity].
    apply Nat.eqb_eq in Hlen. apply nil_length_inv in Hlen.
    rewrite Hlen. reflexivity.
  - unfold Filter.MatchesPattern.
    destruct (String.eqb (Config.Filter cfg) ""); [reflexivity |].
    apply Contains_refl.
Qed.
End PreFilter.

Lemma hook_without_target_url_is_never_fetched_witness :
  (Hook_Config_URL sampleHook = "" /\ Config.Filter sampleFilterConfig <> "")
  /\ Cmd.processRepository
       (fun s => s)
       (fun _ => Ok [sampleHook])
       (fun _ _ _ => Ok [sampleDelivery 1 "a/x" 10 200 "push"])
       sampleFilterConfig "a/x"
     = Cmd.processRepository
         (fun s => s)
         (fun _ => Ok [])
         (fun _ _ _ => Ok [sampleDelivery 1 "a/x" 10 200 "push"])
         sampleFilterConfig "a/x".
Proof.
  assert (Hurl : Hook_Config_URL sampleHook = "") by reflexivity.
  assert (Hpat : Config.Filter sampleFilterConfig <> "") by discriminate.
  split; [split; assumption |].
  apply (proj1 (proj2 (proj2 (proj2
           (hook_without_target_url_is_never_fetched
              (fun s => s) (fun s Hs => Hs) sampleHook sampleFilterConfig
              Hurl Hpat))))
           (fun _ => Ok [sampleHook]) (fun _ => Ok [])
           (fun _ _ _ => Ok [sampleDelivery 1 "a/x" 10 200 "push"])
           "a/x" [] []); reflexivity.
Defined.

(** ** The worker pools *)

Lemma list_sum_insert {A : Type} (f : A -> nat) (l : list A) (i : nat)
  (old new : A) :
  l !! i = Some old ->
  (list_sum (map f (<[i := new]> l)) + f old = list_sum (map f l) + f new)%nat.
Proof.
  revert i. induction l as [|x l IH]; intros [|i] H; simpl in *;
    try discriminate.
  - injection H as ->. lia.
  - specialize (IH i H). lia.
Qed.

Section PoolFacts.
Context {Item Msg Acc : Type}.
Variable fetch : Item -> Msg.
Variable onErrors : Msg -> bool.
Variable collect : Acc -> Msg -> Acc.
Variable empty : Acc.
Variable items : list Item.
Variable maxConcurrent : nat.

Local Abbreviation state := (Pool.state Item Msg Acc).
Local Abbreviation step := (Pool.step fetch onErrors collect items).
Local Abbreviation exec := (Pool.exec fetch onErrors collect items).
Local Abbreviation init := (Pool.init (Msg := Msg) empty items maxConcurrent).
Local Abbreviation reachable :=
  (Pool.reachable fetch onErrors collect empty items maxConcurrent).
Local Abbreviation numWorkers := (Pool.numWorkers items maxConcurrent).

Local Abbreviation invariant :=
  (invariant fetch collect empty items maxConcurrent).

Lemma busyItems_replicate_Idle (n : nat) :
  busyItems (replicate n (Pool.Idle (Item := Item))) = [].
Proof. induction n; simpl; [reflexivity | assumption]. Qed.

Lemma busyItems_insert (ws : list (Pool.worker Item)) (w : nat)
  (old new : Pool.worker Item) :
  ws !! w = Some old ->
  busyItems (<[w := new]> ws) ++ busyItem old ≡ₚ busyItems ws ++ busyItem new.
Proof.
  revert w. induction ws as [|x ws IH]; intros [|w] H; simpl in *;
    try discriminate.
  - injection H as ->. unfold busyItems. simpl.
    rewrite <- !app_assoc.
    rewrite (Permutation_app_comm (concat _) (busyItem old)).
    rewrite (Permutation_app_comm (concat _) (busyItem new)).
    rewrite !app_assoc.
    apply Permutation_app_tail. apply Permutation_app_comm.
  - unfold busyItems in *. simpl. rewrite <- !app_assoc.
    apply Permutation_app_head. apply IH. exact H.
Qed.

Lemma invariant_init : invariant init [] [] [].
Proof.
  constructor; simpl; try reflexivity.
  - rewrite busyItems_replicate_Idle. reflexivity.
  - rewrite busyItems_replicate_Idle. reflexivity.
  - apply length_replicate.
  - split; reflexivity.
  - intros H. apply elem_of_replicate in H. destruct H as [H _]. discriminate H.
Qed.

Lemma elem_of_insert_inv {A : Type} (l : list A) (i : nat) (x y : A) :
  y ∈ <[i := x]> l -> y = x \/ y ∈ l.
Proof.
  revert i. induction l as [|z l IH]; intros i H; simpl in *.
  - right. exact H.
  - destruct i as [|i]; simpl in H.
    + apply elem_of_cons in H as [-> | H]; [left; reflexivity |].
      right. apply elem_of_cons. right. exact H.
    + apply elem_of_cons in H as [-> | H].
      * right. apply elem_of_cons. left. reflexivity.
      * destruct (IH i H) as [-> | H']; [left; reflexivity |].
        right. apply elem_of_cons. right. exact H'.
Qed.

Lemma invariant_step (c : Pool.choice) (s s' : state)
  (done onResults onErrors' : list Item) :
  invariant s done onResults onErrors' ->
  step c s = Some s' ->
  exists done' onResults' onErrors'',
    invariant s' done' onResults' onErrors''.
Proof.
  intros [Hcol Hres Herr Hitems Hatt Hws Hphase Hexit] Hstep.
  destruct c as [| |w]; simpl in Hstep.
  - (* the caller, sending, closing, receiving from [results], returning *)
    unfold Pool.mainStep in Hstep. unfold unsent in Hitems.
    destruct (Pool.mainPhase s) as [[|x rest]|i|] eqn:Hmain;
      try discriminate.
    + (* [close(jobs)] *)
      injection Hstep as <-. destruct Hphase as [-> Hclosed].
      exists [], onResults, onErrors'.
      constructor; simpl; try assumption; try reflexivity.
      * split; reflexivity.
      * intros Hin. destruct (Hexit Hin) as [Hc _]. congruence.
    + (* [jobs <- x] *)
      injection Hstep as <-. destruct Hphase as [-> Hclosed].
      exists [], onResults, onErrors'.
      constructor; simpl; try assumption; try reflexivity.
      * unfold unsent; simpl. rewrite <- Hitems. simpl.
        rewrite <- !app_assoc. simpl.
        reflexivity.
      * split; [reflexivity | exact Hclosed].
      * intros Hin. destruct (Hexit Hin) as [Hc _]. congruence.
    + destruct Hphase as [-> Hclosed].
      destruct (List.length done <? List.length items)%nat eqn:Hlt.
      * destruct (Pool.results s) as [|m rs] eqn:Hrs; [discriminate |].
        injection Hstep as <-.
        destruct onResults as [|x onResults]; [discriminate |].
        simpl in Hres. injection Hres as -> ->.
        exists (done ++ [x]), onResults, onErrors'.
        constructor; simpl; try assumption; try reflexivity.
        -- rewrite map_app, fold_left_app, <- Hcol. reflexivity.
        -- unfold unsent; simpl. rewrite <- Hitems. simpl.
           rewrite <- !app_assoc. reflexivity.
        -- rewrite Hatt. simpl. rewrite <- !app_assoc. reflexivity.
        -- rewrite length_app. simpl. split; [lia | exact Hclosed].
      * injection Hstep as <-.
        exists done, onResults, onErrors'.
        constructor; simpl; try assumption; try reflexivity.
        apply Nat.ltb_ge in Hlt.
        apply Permutation_length in Hitems.
        rewrite !length_app in Hitems. lia.
  - (* the caller, taking the [errors] case of its [select] *)
    unfold Pool.mainSelectErrors in Hstep. unfold unsent in Hitems.
    destruct (Pool.mainPhase s) as [rest|i|] eqn:Hmain; try discriminate.
    destruct Hphase as [-> Hclosed].
    destruct (List.length done <? List.length items)%nat eqn:Hlt;
      [| discriminate].
    destruct (Pool.errors s) as [|m es] eqn:Hes; [discriminate |].
    injection Hstep as <-.
    destruct onErrors' as [|x onErrors']; [discriminate |].
    simpl in Herr. injection Herr as -> ->.
    exists (done ++ [x]), onResults, onErrors'.
    constructor; simpl; try assumption; try reflexivity.
    + rewrite map_app, fold_left_app, <- Hcol. reflexivity.
    + unfold unsent; simpl. rewrite <- Hitems. solve_Permutation.
    + rewrite Hatt. solve_Permutation.
    + rewrite length_app. simpl. split; [lia | exact Hclosed].
  - (* a worker, receiving a job, exiting, or sending its message *)
    unfold Pool.workerStep in Hstep. unfold unsent in *.
    destruct (Pool.workers s !! w) as [[|x|]|] eqn:Hw; try discriminate.
    + destruct (Pool.jobs s) as [|x js] eqn:Hjobs.
      * destruct (Pool.jobsClosed s) eqn:Hclosed; [| discriminate].
        injection Hstep as <-.
        exists done, onResults, onErrors'.
        pose proof (busyItems_insert _ w _ Pool.Exited Hw) as Hbusy.
        simpl in Hbusy. rewrite !app_nil_r in Hbusy.
        constructor; simpl; try assumption; try reflexivity.
        -- rewrite Hbusy. exact Hitems.
        -- rewrite Hbusy. exact Hatt.
        -- rewrite length_insert. exact Hws.
        -- intros _. split; reflexivity.
      * injection Hstep as <-.
        exists done, onResults, onErrors'.
        pose proof (busyItems_insert _ w _ (Pool.Busy x) Hw) as Hbusy.
        simpl in Hbusy. rewrite !app_nil_r in Hbusy.
        constructor; simpl; try assumption; try reflexivity.
        -- rewrite Hbusy, <- Hitems. solve_Permutation.
        -- rewrite Hbusy, Hatt. solve_Permutation.
        -- rewrite length_insert. exact Hws.
        -- intros Hin. apply elem_of_insert_inv in Hin as [Hin | Hin];
             [discriminate |].
           destruct (Hexit Hin) as [_ Hnil]. discriminate Hnil.
    + pose proof (busyItems_insert _ w _ Pool.Idle Hw) as Hbusy.
      simpl in Hbusy. rewrite app_nil_r in Hbusy.
      destruct (onErrors (fetch x)) eqn:Hon; injection Hstep as <-.
      * exists done, onResults, (onErrors' ++ [x]).
        constructor; simpl; try assumption; try reflexivity.
        -- rewrite map_app, Herr. reflexivity.
        -- rewrite <- Hitems, <- Hbusy. solve_Permutation.
        -- rewrite Hatt, <- Hbusy. solve_Permutation.
        -- rewrite length_insert. exact Hws.
        -- intros Hin. apply elem_of_insert_inv in Hin as [Hin | Hin];
             [discriminate |]. exact (Hexit Hin).
      * exists done, (onResults ++ [x]), onErrors'.
        constructor; simpl; try assumption; try reflexivity.
        -- rewrite map_app, Hres. reflexivity.
        -- rewrite <- Hitems, <- Hbusy. solve_Permutation.
        -- rewrite Hatt, <- Hbusy. solve_Permutation.
        -- rewrite length_insert. exact Hws.
        -- intros Hin. apply elem_of_insert_inv in Hin as [Hin | Hin];
             [discriminate |]. exact (Hexit Hin).
Qed.

Lemma invariant_exec (sched : list Pool.choice) (s s' : state)
  (done onResults onErrors' : list Item) :
  invariant s done onResults onErrors' ->
  exec sched s = Some s' ->
  exists done' onResults' onErrors'',
    invariant s' done' onResults' onErrors''.
Proof.
  revert s done onResults onErrors'.
  induction sched as [|c sched IH]; intros s done onResults onErrors' Hinv Hexec;
    simpl in Hexec.
  - injection Hexec as <-. eauto.
  - destruct (step c s) as [s1|] eqn:Hstep; [| discriminate].
    destruct (invariant_step _ _ _ _ _ _ Hinv Hstep) as (d1 & r1 & e1 & Hinv1).
    exact (IH _ _ _ _ Hinv1 Hexec).
Qed.

Lemma invariant_reachable (s : state) :
  reachable s ->
  exists done onResults onErrors', invariant s done onResults onErrors'.
Proof.
  intros [sched Hexec]. exact (invariant_exec _ _ _ _ _ _ invariant_init Hexec).
Qed.

(** Once the caller has returned, every job has been collected. *)
Lemma invariant_returned (s : state) (done onResults onErrors' : list Item) :
  invariant s done onResults onErrors' ->
  Pool.mainPhase s = Pool.Returned ->
  done ≡ₚ items
  /\ Pool.collected s = fold_left collect (map fetch done) empty
  /\ Pool.attempted s ≡ₚ items
  /\ Pool.results s = [] /\ Pool.errors s = [] /\ Pool.jobs s = []
  /\ Pool.inFlight s = 0%nat.
Proof.
  intros [Hcol Hres Herr Hitems Hatt Hws Hphase Hexit] Hret.
  rewrite Hret in Hphase. unfold unsent in Hitems. rewrite Hret in Hitems.
  assert (Hlen := Permutation_length Hitems).
  rewrite !length_app in Hlen. simpl in Hlen.
  assert (HonR : onResults = []) by (apply nil_length_inv; lia).
  assert (HonE : onErrors' = []) by (apply nil_length_inv; lia).
  assert (Hbusy : busyItems (Pool.workers s) = []) by (apply nil_length_inv; lia).
  assert (Hjobs : Pool.jobs s = []) by (apply nil_length_inv; lia).
  subst onResults onErrors'. rewrite Hbusy, Hjobs in Hitems.
  rewrite Hbusy in Hatt. simpl in *. rewrite !app_nil_r in *.
  repeat split; try assumption.
  - rewrite Hatt. exact Hitems.
  - unfold Pool.inFlight. clear -Hbusy.
    induction (Pool.workers s) as [|w ws IH]; [reflexivity |].
    unfold busyItems in Hbusy. simpl in Hbusy.
    apply app_eq_nil in Hbusy as [Hw Hrest].
    destruct w; simpl in *; try discriminate; apply IH; exact Hrest.
Qed.

(** Every step uses up some of [Pool.measure]. *)
Lemma measure_step (c : Pool.choice) (s s' : state) :
  step c s = Some s' -> (Pool.measure s' < Pool.measure s)%nat.
Proof.
  intros Hstep. unfold Pool.measure.
  destruct c as [| |w]; simpl in Hstep.
  - unfold Pool.mainStep in Hstep.
    destruct (Pool.mainPhase s) as [[|x rest]|i|] eqn:Hmain;
      try discriminate.
    + injection Hstep as <-. simpl. lia.
    + injection Hstep as <-. simpl. rewrite length_app. simpl. lia.
    + destruct (i <? List.length items)%nat.
      * destruct (Pool.results s) as [|m rs] eqn:Hrs; [discriminate |].
        injection Hstep as <-. simpl. lia.
      * injection Hstep as <-. simpl. lia.
  - unfold Pool.mainSelectErrors in Hstep.
    destruct (Pool.mainPhase s) as [rest|i|] eqn:Hmain; try discriminate.
    destruct (i <? List.length items)%nat; [| discriminate].
    destruct (Pool.errors s) as [|m es] eqn:Hes; [discriminate |].
    injection Hstep as <-. simpl. lia.
  - unfold Pool.workerStep in Hstep.
    destruct (Pool.workers s !! w) as [[|x|]|] eqn:Hw; try discriminate.
    + destruct (Pool.jobs s) as [|x js] eqn:Hjobs.
      * destruct (Pool.jobsClosed s); [| discriminate].
        injection Hstep as <-. simpl.
        pose proof (list_sum_insert Pool.workerRank _ w _ Pool.Exited Hw).
        simpl in *. lia.
      * injection Hstep as <-. simpl.
        pose proof (list_sum_insert Pool.workerRank _ w _ (Pool.Busy x) Hw).
        simpl in *. lia.
    + pose proof (list_sum_insert Pool.workerRank _ w _ Pool.Idle Hw).
      destruct (onErrors (fetch x)); injection Hstep as <-; simpl;
        rewrite ?length_app; simpl in *; lia.
Qed.

Lemma measure_exec (sched : list Pool.choice) (s s' : state) :
  exec sched s = Some s' ->
  (List.length sched + Pool.measure s' <= Pool.measure s)%nat.
Proof.
  revert s. induction sched as [|c sched IH]; intros s Hexec; simpl in Hexec.
  - injection Hexec as <-. simpl. lia.
  - destruct (step c s) as [s1|] eqn:Hstep; [| discriminate].
    apply measure_step in Hstep. apply IH in Hexec. simpl. lia.
Qed.

Lemma exec_app (sched1 sched2 : list Pool.choice) (s s1 : state) :
  exec sched1 s = Some s1 ->
  exec (sched1 ++ sched2) s = exec sched2 s1.
Proof.
  revert s. induction sched1 as [|c sched1 IH]; intros s H; simpl in *.
  - injection H as <-. reflexivity.
  - destruct (step c s) as [s'|]; [| discriminate]. apply IH. exact H.
Qed.

Lemma busyItems_nonempty (ws : list (Pool.worker Item)) :
  busyItems ws <> [] -> exists w x, ws !! w = Some (Pool.Busy x).
Proof.
  induction ws as [|v ws IH]; intros H; [exfalso; apply H; reflexivity |].
  destruct v as [|x|].
  - destruct (IH H) as (w & x & Hw). exists (S w), x. exact Hw.
  - exists 0%nat, x. reflexivity.
  - destruct (IH H) as (w & x & Hw). exists (S w), x. exact Hw.
Qed.

Section Progress.
Hypothesis maxConcurrent_pos : (0 < maxConcurrent)%nat.

(** Until the caller has returned, some goroutine can move. *)
Lemma invariant_progress (s : state) (done onResults onErrors' : list Item) :
  invariant s done onResults onErrors' ->
  Pool.mainPhase s <> Pool.Returned ->
  exists c s', step c s = Some s'.
Proof.
  intros [Hcol Hres Herr Hitems Hatt Hws Hphase Hexit] Hnot.
  destruct (Pool.mainPhase s) as [rest|i|] eqn:Hmain; [| | congruence].
  - exists Pool.MainStep. simpl. unfold Pool.mainStep. rewrite Hmain.
    destruct rest; eauto.
  - destruct Hphase as [-> Hclosed].
    destruct (List.length done <? List.length items)%nat eqn:Hlt.
    2: { exists Pool.MainStep. simpl. unfold Pool.mainStep.
         rewrite Hmain, Hlt. eauto. }
    apply Nat.ltb_lt in Hlt.
    destruct onResults as [|x onResults].
    2: { exists Pool.MainStep. simpl. unfold Pool.mainStep.
         rewrite Hmain, Hres. simpl.
         apply Nat.ltb_lt in Hlt. rewrite Hlt. eauto. }
    destruct onErrors' as [|x onErrors'].
    2: { exists Pool.MainSelectErrors. simpl. unfold Pool.mainSelectErrors.
         rewrite Hmain, Herr. simpl.
         apply Nat.ltb_lt in Hlt. rewrite Hlt. eauto. }
    destruct (busyItems (Pool.workers s)) as [|x busy] eqn:Hbusy.
    2: { destruct (busyItems_nonempty (Pool.workers s)) as (w & y & Hw);
           [rewrite Hbusy; discriminate |].
         exists (Pool.WorkerStep w). simpl. unfold Pool.workerStep.
         rewrite Hw. destruct (onErrors (fetch y)); eauto. }
    unfold unsent in Hitems. rewrite Hmain in Hitems. simpl in Hitems.
    rewrite app_nil_r in Hitems.
    assert (Hlen := Permutation_length Hitems).
    rewrite length_app in Hlen.
    destruct (Pool.jobs s) as [|x js] eqn:Hjobs;
      [simpl in Hlen; lia |].
    assert (Hn : (0 < numWorkers)%nat).
    { unfold Pool.numWorkers.
      destruct (List.length items <? maxConcurrent)%nat; lia. }
    destruct (Pool.workers s) as [|v ws] eqn:Hworkers;
      [simpl in Hws; lia |].
    exists (Pool.WorkerStep 0). simpl. unfold Pool.workerStep.
    rewrite Hworkers, Hjobs. simpl.
    destruct v as [|y|].
    + eauto.
    + destruct (onErrors (fetch y)); eauto.
    + destruct Hexit as [_ Hnil]; [apply elem_of_cons; left; reflexivity |].
      discriminate Hnil.
Qed.

(** From wherever the pool has got to, it can be run to the return of
    the caller. *)
Lemma invariant_completes (n : nat) (s : state)
  (done onResults onErrors' : list Item) :
  (Pool.measure s <= n)%nat ->
  invariant s done onResults onErrors' ->
  exists sched s', exec sched s = Some s'
                   /\ Pool.mainPhase s' = Pool.Returned.
Proof.
  revert s done onResults onErrors'.
  induction n as [|n IH]; intros s done onResults onErrors' Hn Hinv.
  - destruct (Pool.mainPhase s) eqn:Hmain.
    + unfold Pool.measure in Hn. rewrite Hmain in Hn. simpl in Hn. lia.
    + unfold Pool.measure in Hn. rewrite Hmain in Hn. simpl in Hn. lia.
    + exists [], s. split; [reflexivity | exact Hmain].
  - destruct (Pool.mainPhase s) eqn:Hmain.
    3: { exists [], s. split; [reflexivity | exact Hmain]. }
    all: destruct (invariant_progress s _ _ _ Hinv) as (c & s1 & Hstep);
      [rewrite Hmain; discriminate |].
    all: destruct (invariant_step _ _ _ _ _ _ Hinv Hstep) as (d1 & r1 & e1 & Hinv1).
    all: pose proof (measure_step _ _ _ Hstep) as Hm.
    all: destruct (IH s1 d1 r1 e1 ltac:(lia) Hinv1) as (sched & s' & Hexec & Hret).
    all: exists (c :: sched), s'; simpl; rewrite Hstep; split; assumption.
Qed.
End Progress.

(** The fetches in flight are never more than the workers started. *)
Lemma inFlight_le_workers (s : state) :
  (Pool.inFlight s <= List.length (Pool.workers s))%nat.
Proof.
  unfold Pool.inFlight.
  pose proof (List.filter_length Pool.isBusy (Pool.workers s)). lia.
Qed.

Lemma numWorkers_min :
  numWorkers = Nat.min maxConcurrent (List.length items).
Proof.
  unfold Pool.numWorkers.
  destruct (Nat.ltb_spec (List.length items) maxConcurrent); lia.
Qed.

End PoolFacts.

(** ** The two pools of [cmd/root.go] *)

Lemma organizationCollect_fold fetchRepository (order : list string)
  (allDeliveries : list Delivery) (warnings : list Cmd.event) :
  fold_left Cmd.organizationCollect
            (map (Cmd.organizationWorker fetchRepository) order)
            (allDeliveries, warnings)
  = (allDeliveries ++ concat (repoPayloads fetchRepository order),
     warnings ++ repoWarnings fetchRepository order).
Proof.
  revert allDeliveries warnings.
  induction order as [|repo order IH]; intros allDeliveries warnings;
    cbn [map fold_left].
  - unfold repoPayloads, repoWarnings. simpl. rewrite !app_nil_r. reflexivity.
  - assert (Hstep :
        Cmd.organizationCollect (allDeliveries, warnings)
          (Cmd.organizationWorker fetchRepository repo)
        = match fetchRepository repo with
          | Ok deliveries => (allDeliveries ++ deliveries, warnings)
          | Err e => (allDeliveries, warnings ++ [Cmd.WarnRepository repo e])
          end).
    { unfold Cmd.organizationCollect, Cmd.organizationWorker. simpl.
      destruct (fetchRepository repo); reflexivity. }
    rewrite Hstep. unfold repoPayloads, repoWarnings in *. simpl.
    destruct (fetchRepository repo) as [deliveries|e]; simpl;
      rewrite IH, <- ?app_assoc; reflexivity.
Qed.

Lemma detailCollect_fold rest_detail (order : list Delivery)
  (detailed : list Delivery) (warnings : list Cmd.event) :
  fold_left Cmd.detailCollect (map (Cmd.detailWorker rest_detail) order)
            (detailed, warnings)
  = (detailed ++ detailPayloads rest_detail order,
     warnings ++ detailWarnings rest_detail order).
Proof.
  revert detailed warnings.
  induction order as [|d order IH]; intros detailed warnings;
    cbn [map fold_left].
  - unfold detailPayloads, detailWarnings. simpl. rewrite !app_nil_r.
    reflexivity.
  - assert (Hstep :
        Cmd.detailCollect (detailed, warnings) (Cmd.detailWorker rest_detail d)
        = match Cmd.detailWorker rest_detail d with
          | Ok d' => (detailed ++ [d'], warnings)
          | Err e => (detailed, warnings ++ [Cmd.WarnDetail e])
          end).
    { unfold Cmd.detailCollect.
      destruct (Cmd.detailWorker rest_detail d); reflexivity. }
    rewrite Hstep. unfold detailPayloads, detailWarnings in *. simpl.
    destruct (Cmd.detailWorker rest_detail d) as [d'|e]; simpl;
      rewrite IH, <- ?app_assoc; reflexivity.
Qed.

(** Successes and failures split the jobs. *)
Lemma omap_split_length {A B C : Type} (ok : A -> option B)
  (bad : A -> option C) (fails : A -> bool) (l : list A) :
  (forall x, fails x = false -> is_Some (ok x) /\ bad x = None) ->
  (forall x, fails x = true -> ok x = None /\ is_Some (bad x)) ->
  length (omap bad l) = length (List.filter fails l)
  /\ length (omap ok l) = (length l - length (List.filter fails l))%nat.
Proof.
  intros Hok Hbad. induction l as [|x l [IH1 IH2]]; [split; reflexivity |].
  pose proof (List.filter_length fails l) as Hle.
  cbn [omap list_omap List.filter length].
  destruct (fails x) eqn:Hx.
  - destruct (Hbad x Hx) as [-> [c ->]]. cbn [length]. split; lia.
  - destruct (Hok x Hx) as [[b ->] ->]. cbn [length]. split; lia.
Qed.

Lemma filter_length_Permutation {A : Type} (f : A -> bool) (l l' : list A) :
  l ≡ₚ l' -> length (List.filter f l) = length (List.filter f l').
Proof.
  induction 1 as [|x l l' _ IH|x y l|l l' l'' _ IH1 _ IH2]; simpl.
  - reflexivity.
  - destruct (f x); simpl; lia.
  - destruct (f x), (f y); reflexivity.
  - lia.
Qed.

(** C2. Both fan-outs give one outcome per job.  Whatever the
    interleaving of the goroutines, when the caller returns it has
    received the message of every job exactly once, in some order
    [order] of the jobs: the successful payloads (one per job that did
    not fail) on one side, one warning per failed job on the other; every
    job has been fetched exactly once; and from wherever the pool has got
    to it can be run to the caller's return, in a number of steps bounded
    from the start, so that no failure blocks the other jobs or the
    return. *)
Theorem fan_out_yields_one_outcome_per_item :
  (forall (fetchRepository : string -> result (list Delivery))
          (repos : list string),
      (forall s,
          Cmd.organizationReachable fetchRepository repos s ->
          Pool.mainPhase s = Pool.Returned ->
          exists order,
            order ≡ₚ repos
            /\ Pool.collected s
               = (concat (repoPayloads fetchRepository order),
                  repoWarnings fetchRepository order)
            /\ length (repoPayloads fetchRepository order)
               = (length repos
                  - length (List.filter (repoFails fetchRepository) repos))%nat
            /\ length (repoWarnings fetchRepository order)
               = length (List.filter (repoFails fetchRepository) repos)
            /\ Pool.attempted s ≡ₚ repos)
      /\ (forall s,
            Cmd.organizationReachable fetchRepository repos s ->
            exists sched s',
              Cmd.organizationExec fetchRepository repos sched s = Some s'
              /\ Pool.mainPhase s' = Pool.Returned)
      /\ (forall sched s,
            Cmd.organizationExec fetchRepository repos sched
                                 (Cmd.organizationPool repos) = Some s ->
            (length sched <= Pool.measure (Cmd.organizationPool repos))%nat))
  /\ (forall (rest_detail : string -> Z -> Z -> result Delivery)
             (deliveries : list Delivery),
        (forall s,
            Cmd.detailReachable rest_detail deliveries s ->
            Pool.mainPhase s = Pool.Returned ->
            exists order,
              order ≡ₚ deliveries
              /\ Pool.collected s
                 = (detailPayloads rest_detail order,
                    detailWarnings rest_detail order)
              /\ length (detailPayloads rest_detail order)
                 = (length deliveries
                    - length (List.filter (detailFails rest_detail) deliveries))%nat
              /\ length (detailWarnings rest_detail order)
                 = length (List.filter (detailFails rest_detail) deliveries)
              /\ Pool.attempted s ≡ₚ deliveries)
        /\ (forall s,
              Cmd.detailReachable rest_detail deliveries s ->
              exists sched s',
                Cmd.detailExec rest_detail deliveries sched s = Some s'
                /\ Pool.mainPhase s' = Pool.Returned)
        /\ (forall sched s,
              Cmd.detailExec rest_detail deliveries sched
                             (Cmd.detailPool deliveries) = Some s ->
              (length sched <= Pool.measure (Cmd.detailPool deliveries))%nat)).
Proof.
  split.
  - intros fetchRepository repos. split; [| split].
    + intros s Hreach Hret.
      destruct (invariant_reachable _ _ _ _ _ _ _ Hreach)
        as (done & onR & onE & Hinv).
      destruct (invariant_returned _ _ _ _ _ _ _ _ _ Hinv Hret)
        as (Hperm & Hcol & Hatt & _).
      exists done. split; [exact Hperm |].
      rewrite organizationCollect_fold in Hcol. simpl in Hcol.
      split; [exact Hcol |].
      destruct (omap_split_length
                  (fun repo => match fetchRepository repo with
                               | Ok deliveries => Some deliveries
                               | Err _ => None
                               end)
                  (fun repo => match fetchRepository repo with
                               | Ok _ => None
                               | Err e => Some (Cmd.WarnRepository repo e)
                               end)
                  (repoFails fetchRepository) done) as [Hbad Hok].
      { intros x. unfold repoFails. destruct (fetchRepository x); [| discriminate].
        intros _. split; [eexists; reflexivity | reflexivity]. }
      { intros x. unfold repoFails. destruct (fetchRepository x); [discriminate |].
        intros _. split; [reflexivity | eexists; reflexivity]. }
      rewrite (filter_length_Permutation _ _ _ Hperm) in Hbad, Hok.
      rewrite (Permutation_length Hperm) in Hok.
      repeat split; assumption.
    + intros s Hreach.
      destruct (invariant_reachable _ _ _ _ _ _ _ Hreach)
        as (done & onR & onE & Hinv).
      eapply (invariant_completes _ _ _ _ _ _); [| reflexivity | exact Hinv].
      unfold Cmd.organizationMaxConcurrent. lia.
    + intros sched s Hexec. apply measure_exec in Hexec.
      eapply Nat.le_trans; [| exact Hexec]. lia.
  - intros rest_detail deliveries. split; [| split].
    + intros s Hreach Hret.
      destruct (invariant_reachable _ _ _ _ _ _ _ Hreach)
        as (done & onR & onE & Hinv).
      destruct (invariant_returned _ _ _ _ _ _ _ _ _ Hinv Hret)
        as (Hperm & Hcol & Hatt & _).
      exists done. split; [exact Hperm |].
      rewrite detailCollect_fold in Hcol. simpl in Hcol.
      split; [exact Hcol |].
      destruct (omap_split_length
                  (fun d => match Cmd.detailWorker rest_detail d with
                            | Ok detailed => Some detailed
                            | Err _ => None
                            end)
                  (fun d => match Cmd.detailWorker rest_detail d with
                            | Ok _ => None
                            | Err e => Some (Cmd.WarnDetail e)
                            end)
                  (detailFails rest_detail) done) as [Hbad Hok].
      { intros x. unfold detailFails.
        destruct (Cmd.detailWorker rest_detail x); [| discriminate].
        intros _. split; [eexists; reflexivity | reflexivity]. }
      { intros x. unfold detailFails.
        destruct (Cmd.detailWorker rest_detail x); [discriminate |].
        intros _. split; [reflexivity | eexists; reflexivity]. }
      rewrite (filter_length_Permutation _ _ _ Hperm) in Hbad, Hok.
      rewrite (Permutation_length Hperm) in Hok.
      repeat split; assumption.
    + intros s Hreach.
      destruct (invariant_reachable _ _ _ _ _ _ _ Hreach)
        as (done & onR & onE & Hinv).
      eapply (invariant_completes _ _ _ _ _ _); [| reflexivity | exact Hinv].
      unfold Cmd.detailMaxConcurrent. lia.
    + intros sched s Hexec. apply measure_exec in Hexec.
      eapply Nat.le_trans; [| exact Hexec]. lia.
Qed.

(** C9. At every state a run of either pool can reach, the fetches in
    flight are no more than the workers started, and these are the
    smaller of the cap (10 for the repositories of an organization, 5
    for the delivery details) and the number of jobs. *)
Theorem in_flight_fetches_never_exceed_workers :
  (forall (fetchRepository : string -> result (list Delivery))
          (repos : list string) s,
      Cmd.organizationReachable fetchRepository repos s ->
      (Pool.inFlight s <= Nat.min 10 (length repos))%nat
      /\ length (Pool.workers s) = Nat.min 10 (length repos))
  /\ (forall (rest_detail : string -> Z -> Z -> result Delivery)
             (deliveries : list Delivery) s,
        Cmd.detailReachable rest_detail deliveries s ->
        (Pool.inFlight s <= Nat.min 5 (length deliveries))%nat
        /\ length (Pool.workers s) = Nat.min 5 (length deliveries))
  /\ (forall repos : list string,
        Pool.numWorkers repos Cmd.organizationMaxConcurrent
        = if (length repos <? 10)%nat then length repos else 10%nat)
  /\ (forall deliveries : list Delivery,
        Pool.numWorkers deliveries Cmd.detailMaxConcurrent
        = if (length deliveries <? 5)%nat then length deliveries else 5%nat).
Proof.
  split; [| split; [| split; reflexivity]].
  - intros fetchRepository repos s Hreach.
    destruct (invariant_reachable _ _ _ _ _ _ _ Hreach)
      as (done & onR & onE & Hinv).
    pose proof (inv_workers _ _ _ _ _ _ _ _ _ Hinv) as Hws.
    rewrite numWorkers_min in Hws.
    pose proof (inFlight_le_workers s). split; [| exact Hws].
    unfold Cmd.organizationMaxConcurrent in Hws. lia.
  - intros rest_detail deliveries s Hreach.
    destruct (invariant_reachable _ _ _ _ _ _ _ Hreach)
      as (done & onR & onE & Hinv).
    pose proof (inv_workers _ _ _ _ _ _ _ _ _ Hinv) as Hws.
    rewrite numWorkers_min in Hws.
    pose proof (inFlight_le_workers s). split; [| exact Hws].
    unfold Cmd.detailMaxConcurrent in Hws. lia.
Qed.

Lemma fan_out_yields_one_outcome_per_item_witness :
  (Cmd.organizationReachable sampleFetchRepository sampleRepos sampleFinal
   /\ Pool.mainPhase sampleFinal = Pool.Returned)
  /\ exists order,
      order ≡ₚ sampleRepos
      /\ Pool.collected sampleFinal
         = (concat (repoPayloads sampleFetchRepository order),
            repoWarnings sampleFetchRepository order)
      /\ length (repoPayloads sampleFetchRepository order) = 2%nat
      /\ length (repoWarnings sampleFetchRepository order) = 1%nat
      /\ Pool.attempted sampleFinal ≡ₚ sampleRepos.
Proof.
  assert (Hreach : Cmd.organizationReachable sampleFetchRepository sampleRepos
                                             sampleFinal).
  { exists sampleSchedule. vm_compute. reflexivity. }
  assert (Hret : Pool.mainPhase sampleFinal = Pool.Returned)
    by (vm_compute; reflexivity).
  split; [split; assumption |].
  exact (proj1 (proj1 fan_out_yields_one_outcome_per_item
                      sampleFetchRepository sampleRepos)
               sampleFinal Hreach Hret).
Defined.

Lemma in_flight_fetches_never_exceed_workers_witness :
  Cmd.organizationReachable sampleFetchRepository sampleRepos sampleMidway
  /\ Pool.inFlight sampleMidway = 2%nat
  /\ (Pool.inFlight sampleMidway <= Nat.min 10 (length sampleRepos))%nat
  /\ length (Pool.workers sampleMidway) = Nat.min 10 (length sampleRepos).
Proof.
  assert (Hreach : Cmd.organizationReachable sampleFetchRepository sampleRepos
                                             sampleMidway).
  { exists (take 7 sampleSchedule). vm_compute. reflexivity. }
  split; [exact Hreach |].
  split; [vm_compute; reflexivity |].
  exact (proj1 in_flight_fetches_never_exceed_workers
               sampleFetchRepository sampleRepos sampleMidway Hreach).
Defined.

(** ** [sort.Slice] *)

Section SwapFacts.
Context {A : Type}.
Implicit Types l : list A.

Lemma Swap_length l i j : length (GoSort.Swap l i j) = length l.
Proof.
  unfold GoSort.Swap. destruct (l !! i), (l !! j); try reflexivity.
  rewrite !length_insert. reflexivity.
Qed.

Lemma Swap_lookup l i j x y k :
  l !! i = Some x -> l !! j = Some y ->
  GoSort.Swap l i j !! k
  = if decide (k = j) then Some x
    else if decide (k = i) then Some y else l !! k.
Proof.
  intros Hi Hj. unfold GoSort.Swap. rewrite Hi, Hj.
  pose proof (lookup_lt_Some _ _ _ Hi). pose proof (lookup_lt_Some _ _ _ Hj).
  destruct (decide (k = j)) as [->|Hkj].
  - rewrite list_lookup_insert_eq by (rewrite length_insert; lia). reflexivity.
  - rewrite list_lookup_insert_ne by congruence.
    destruct (decide (k = i)) as [->|Hki].
    + rewrite list_lookup_insert_eq by lia. reflexivity.
    + rewrite list_lookup_insert_ne by congruence. reflexivity.
Qed.

Lemma Swap_lookup_l l i j x y :
  l !! i = Some x -> l !! j = Some y -> GoSort.Swap l i j !! i = Some y.
Proof.
  intros Hi Hj. rewrite (Swap_lookup _ _ _ _ _ _ Hi Hj).
  destruct (decide (i = j)) as [->|]; [congruence |].
  destruct (decide (i = i)); [reflexivity | congruence].
Qed.

Lemma Swap_lookup_r l i j x y :
  l !! i = Some x -> l !! j = Some y -> GoSort.Swap l i j !! j = Some x.
Proof.
  intros Hi Hj. rewrite (Swap_lookup _ _ _ _ _ _ Hi Hj).
  destruct (decide (j = j)); [reflexivity | congruence].
Qed.

Lemma Swap_lookup_other l i j k :
  k <> i -> k <> j -> GoSort.Swap l i j !! k = l !! k.
Proof.
  intros Hi Hj. unfold GoSort.Swap.
  destruct (l !! i), (l !! j); try reflexivity.
  rewrite !list_lookup_insert_ne by congruence. reflexivity.
Qed.

Lemma Swap_same l i : GoSort.Swap l i i = l.
Proof.
  unfold GoSort.Swap. destruct (l !! i) as [x|] eqn:Hi; [| reflexivity].
  rewrite list_insert_insert_eq. apply list_insert_id. exact Hi.
Qed.

Lemma Swap_Permutation l i j : GoSort.Swap l i j ≡ₚ l.
Proof.
  unfold GoSort.Swap.
  destruct (l !! i) as [x|] eqn:Hi; [| reflexivity].
  destruct (l !! j) as [y|] eqn:Hj; [| reflexivity].
  apply Permutation_insert_swap; assumption.
Qed.

Lemma rangePerm_refl a b l : rangePerm a b l l.
Proof. constructor; reflexivity. Qed.

Lemma rangePerm_trans a b l1 l2 l3 :
  rangePerm a b l1 l2 -> rangePerm a b l2 l3 -> rangePerm a b l1 l3.
Proof.
  intros [H1 H2 H3] [H4 H5 H6]. constructor.
  - congruence.
  - intros i Hi. rewrite H5, H2 by exact Hi. reflexivity.
  - rewrite H6. exact H3.
Qed.

Lemma rangePerm_weaken a b a' b' l l' :
  (a' <= a)%nat -> (b <= b')%nat ->
  rangePerm a b l l' -> rangePerm a' b' l l'.
Proof.
  intros Ha Hb [H1 H2 H3]. constructor; [assumption | | assumption].
  intros i Hi. apply H2. lia.
Qed.

Lemma Swap_rangePerm a b l i j :
  (a <= i < b)%nat -> (a <= j < b)%nat -> rangePerm a b l (GoSort.Swap l i j).
Proof.
  intros Hi Hj. constructor.
  - apply Swap_length.
  - intros k Hk. apply Swap_lookup_other; lia.
  - apply Swap_Permutation.
Qed.

(** The elements of a permuted range are those it had. *)
Lemma rangePerm_seg a b l l' :
  (a <= b)%nat ->
  rangePerm a b l l' ->
  take (b - a) (drop a l') ≡ₚ take (b - a) (drop a l).
Proof.
  intros Hab [Hlen Hout Hperm].
  assert (Hsplit : forall k : list A,
             k = take a k ++ take (b - a) (drop a k) ++ drop b k).
  { intros k. rewrite <- (take_drop a k) at 1. f_equal.
    rewrite <- (take_drop (b - a) (drop a k)) at 1. f_equal.
    rewrite drop_drop. f_equal. lia. }
  assert (Htake : take a l' = take a l).
  { apply list_eq. intros i. destruct (decide (i < a)%nat).
    - rewrite !lookup_take_lt by lia. apply Hout. lia.
    - rewrite !lookup_take_ge by lia. reflexivity. }
  assert (Hdrop : drop b l' = drop b l).
  { apply list_eq. intros i. rewrite !lookup_drop. apply Hout. lia. }
  rewrite (Hsplit l), (Hsplit l') in Hperm.
  rewrite Htake, Hdrop in Hperm.
  apply Permutation_app_inv_l in Hperm.
  apply Permutation_app_inv_r in Hperm. exact Hperm.
Qed.

Lemma lookup_seg a b l k :
  (k < b - a)%nat -> take (b - a) (drop a l) !! k = l !! (a + k)%nat.
Proof. intros Hk. rewrite lookup_take_lt by lia. apply lookup_drop. Qed.

Lemma rangePerm_elem a b l l' j y :
  rangePerm a b l l' ->
  (a <= j < b)%nat -> l' !! j = Some y ->
  exists j', (a <= j' < b)%nat /\ l !! j' = Some y.
Proof.
  intros Hrp Hj Hy.
  assert (Hin : y ∈ take (b - a) (drop a l')).
  { apply list_elem_of_lookup. exists (j - a)%nat.
    rewrite lookup_seg by lia. rewrite <- Hy. f_equal. lia. }
  rewrite (rangePerm_seg a b l l') in Hin by (lia || assumption).
  apply list_elem_of_lookup in Hin as [k Hk].
  assert (k < b - a)%nat.
  { apply lookup_lt_Some in Hk. rewrite length_take in Hk. lia. }
  rewrite lookup_seg in Hk by lia.
  exists (a + k)%nat. split; [lia | exact Hk].
Qed.

Lemma rangePerm_sym a b l l' : rangePerm a b l l' -> rangePerm a b l' l.
Proof.
  intros [H1 H2 H3]. constructor.
  - congruence.
  - intros i Hi. symmetry. apply H2. exact Hi.
  - symmetry. exact H3.
Qed.

End SwapFacts.

(** *** Insertion sort *)

Section InsertionSort.
Context {A : Type}.
Variable less : A -> A -> bool.
Implicit Types l pre post r : list A.

Lemma elem_of_rev (x : A) l : x ∈ rev l <-> x ∈ l.
Proof. rewrite !list_elem_of_In. symmetry. apply in_rev. Qed.

Lemma Less_lookup l i j x y :
  l !! i = Some x -> l !! j = Some y -> GoSort.Less less l i j = less x y.
Proof. intros Hi Hj. unfold GoSort.Less. rewrite Hi, Hj. reflexivity. Qed.

Lemma Swap_adjacent pre post x y :
  GoSort.Swap (pre ++ y :: x :: post) (S (length pre)) (length pre)
  = pre ++ x :: y :: post.
Proof.
  unfold GoSort.Swap.
  replace ((pre ++ y :: x :: post) !! S (length pre)) with (Some x).
  2: { symmetry. rewrite lookup_app_r by lia.
       replace (S (length pre) - length pre)%nat with 1%nat by lia.
       reflexivity. }
  rewrite list_lookup_middle by reflexivity.
  rewrite !insert_app_r_alt by lia.
  replace (S (length pre) - length pre)%nat with 1%nat by lia.
  rewrite Nat.sub_diag. reflexivity.
Qed.

Lemma insertBack_length x r :
  length (insertBack less x r) = S (length r).
Proof.
  induction r as [|y r IH]; simpl; [reflexivity |].
  destruct (less x y); simpl; [rewrite IH |]; reflexivity.
Qed.

Lemma insertionInner_insertBack r pre post x :
  GoSort.insertionInner less (pre ++ rev r ++ x :: post)
                        (length pre) (length pre + length r)
  = pre ++ rev (insertBack less x r) ++ post.
Proof.
  revert post. induction r as [|y r IH]; intros post.
  - simpl. rewrite Nat.add_0_r.
    destruct (length pre) as [|a] eqn:Ha; cbn [GoSort.insertionInner];
      [reflexivity |].
    rewrite Nat.ltb_irrefl. reflexivity.
  - replace (length pre + length (y :: r))%nat
      with (S (length pre + length r)) by (simpl; lia).
    cbn [GoSort.insertionInner rev].
    replace (length pre <? S (length pre + length r))%nat with true
      by (symmetry; apply Nat.ltb_lt; lia).
    assert (Hdecomp : pre ++ (rev r ++ [y]) ++ x :: post
                      = (pre ++ rev r) ++ y :: x :: post).
    { rewrite <- !app_assoc. reflexivity. }
    assert (Hlen : length (pre ++ rev r) = (length pre + length r)%nat).
    { rewrite length_app, length_rev. reflexivity. }
    rewrite Hdecomp.
    rewrite (Less_lookup _ _ _ x y).
    2: { rewrite lookup_app_r by lia. rewrite Hlen.
         replace (S (length pre + length r) - (length pre + length r))%nat
           with 1%nat by lia. reflexivity. }
    2: { rewrite <- Hlen. apply list_lookup_middle. reflexivity. }
    cbn [andb insertBack].
    destruct (less x y).
    + rewrite <- Hlen. rewrite Swap_adjacent. rewrite Hlen.
      rewrite <- app_assoc. rewrite IH.
      cbn [rev]. rewrite <- !app_assoc. reflexivity.
    + cbn [rev]. rewrite <- !app_assoc. reflexivity.
Qed.

Lemma insertionLoop_insertAll todo r pre post :
  fold_left (fun d i => GoSort.insertionInner less d (length pre) i)
            (seq (length pre + length r) (length todo))
            (pre ++ rev r ++ todo ++ post)
  = pre ++ insertAll less r todo ++ post.
Proof.
  revert r. induction todo as [|x todo IH]; intros r.
  - reflexivity.
  - cbn [length seq fold_left insertAll].
    change ((x :: todo) ++ post) with (x :: todo ++ post).
    rewrite insertionInner_insertBack.
    replace (S (length pre + length r))
      with (length pre + length (insertBack less x r))%nat
      by (rewrite insertBack_length; lia).
    apply IH.
Qed.

(** [insertionSort_func] on the positions of [mid] is [isort] of
    [mid]. *)
Lemma insertionSort_func_isort pre mid post :
  GoSort.insertionSort_func less (pre ++ mid ++ post)
                            (length pre) (length pre + length mid)
  = pre ++ isort less mid ++ post.
Proof.
  unfold GoSort.insertionSort_func, isort.
  destruct mid as [|x mid].
  - simpl. replace (length pre + 0 - S (length pre))%nat with 0%nat by lia.
    reflexivity.
  - replace (length pre + length (x :: mid) - S (length pre))%nat
      with (length mid) by (simpl; lia).
    pose proof (insertionLoop_insertAll mid [x] pre post) as H.
    simpl in H. replace (length pre + 1)%nat with (S (length pre)) in H by lia.
    exact H.
Qed.

Lemma insertBack_Permutation x r : insertBack less x r ≡ₚ x :: r.
Proof.
  induction r as [|y r IH]; simpl; [reflexivity |].
  destruct (less x y); [| reflexivity].
  rewrite IH. apply Permutation_swap.
Qed.

Lemma insertAll_Permutation r todo : insertAll less r todo ≡ₚ r ++ todo.
Proof.
  revert r. induction todo as [|x todo IH]; intros r; simpl.
  - rewrite app_nil_r. symmetry. apply Permutation_rev.
  - rewrite IH, insertBack_Permutation. apply Permutation_middle.
Qed.

Lemma isort_Permutation l : isort less l ≡ₚ l.
Proof. unfold isort. rewrite insertAll_Permutation. reflexivity. Qed.

Lemma isort_length l : length (isort less l) = length l.
Proof. apply Permutation_length, isort_Permutation. Qed.

(** Stability: insertion never carries an element past one it is not
    less than, so a class [p] of pairwise incomparable elements keeps its
    order. *)
Lemma insertBack_filter (p : A -> bool) x r :
  (forall y, p x = true -> p y = true -> less x y = false) ->
  List.filter p (rev (insertBack less x r))
  = List.filter p (rev r) ++ List.filter p [x].
Proof.
  intros Hp. induction r as [|y r IH]; [reflexivity |].
  cbn [insertBack]. destruct (less x y) eqn:Hxy.
  - cbn [rev]. rewrite !List.filter_app, IH, <- !app_assoc. f_equal.
    simpl. destruct (p x) eqn:Hx, (p y) eqn:Hy; try reflexivity.
    rewrite (Hp y eq_refl Hy) in Hxy. discriminate Hxy.
  - cbn [rev]. rewrite !List.filter_app. reflexivity.
Qed.

Lemma insertAll_filter (p : A -> bool) r todo :
  (forall x y, p x = true -> p y = true -> less x y = false) ->
  List.filter p (insertAll less r todo)
  = List.filter p (rev r) ++ List.filter p todo.
Proof.
  intros Hp. revert r. induction todo as [|x todo IH]; intros r; simpl.
  - rewrite app_nil_r. reflexivity.
  - rewrite IH, insertBack_filter by (intros y; apply Hp).
    rewrite <- app_assoc. f_equal. simpl. destruct (p x); reflexivity.
Qed.

Lemma isort_stable (p : A -> bool) l :
  (forall x y, p x = true -> p y = true -> less x y = false) ->
  List.filter p (isort less l) = List.filter p l.
Proof. intros Hp. unfold isort. rewrite insertAll_filter by exact Hp. reflexivity. Qed.

Section Ordered.
Hypothesis Hless : StrictWeakOrder less.

Lemma less_asym x y : less x y = true -> less y x = false.
Proof.
  intros Hxy. destruct (less y x) eqn:Hyx; [| reflexivity].
  rewrite <- (swo_irrefl less Hless x). symmetry.
  exact (swo_trans less Hless _ _ _ Hxy Hyx).
Qed.

Lemma notLess_trans x y z :
  less y x = false -> less z y = false -> less z x = false.
Proof.
  intros Hyx Hzy. destruct (less z x) eqn:Hzx; [| reflexivity].
  destruct (swo_incomp less Hless z y x Hzx); congruence.
Qed.

Lemma less_notLess_trans x y z :
  less x y = true -> less z y = false -> less x z = true.
Proof.
  intros Hxy Hzy.
  destruct (swo_incomp less Hless x z y Hxy); [assumption | congruence].
Qed.

Lemma notLess_less_trans x y z :
  less y x = false -> less y z = true -> less x z = true.
Proof.
  intros Hyx Hyz.
  destruct (swo_incomp less Hless y x z Hyz); [congruence | assumption].
Qed.

Local Abbreviation descending := (descending less).

Lemma insertBack_descending x r :
  descending r -> descending (insertBack less x r).
Proof.
  unfold descending. induction r as [|y r IH]; intros Hr; simpl.
  - repeat constructor.
  - apply StronglySorted_cons in Hr as [Hy Hr].
    destruct (less x y) eqn:Hxy.
    + apply StronglySorted_cons. split; [| apply IH; exact Hr].
      rewrite insertBack_Permutation. constructor; [| exact Hy].
      apply less_asym. exact Hxy.
    + apply StronglySorted_cons. split.
      * constructor; [exact Hxy |].
        eapply Forall_impl; [exact Hy |]. simpl. intros z Hyz.
        exact (notLess_trans _ _ _ Hyz Hxy).
      * apply StronglySorted_cons. split; assumption.
Qed.

Lemma insertAll_sorted r todo :
  descending r ->
  StronglySorted (fun x y => less y x = false) (insertAll less r todo).
Proof.
  revert r. induction todo as [|x todo IH]; intros r Hr; simpl.
  - clear -Hr. unfold descending in Hr.
    induction Hr as [|y r Hr IH Hy]; simpl; [constructor |].
    apply StronglySorted_app. repeat split.
    + intros x1 x2 H1 H2. apply list_elem_of_singleton in H2 as ->.
      apply (proj1 (elem_of_rev _ _)) in H1.
      rewrite Forall_forall in Hy. apply Hy. exact H1.
    + exact IH.
    + repeat constructor.
  - apply IH. apply insertBack_descending. exact Hr.
Qed.

Lemma isort_sorted l :
  StronglySorted (fun x y => less y x = false) (isort less l).
Proof. apply insertAll_sorted. constructor. Qed.

End Ordered.

(** Idempotence: a sorted run is left as it is. *)
Lemma insertBack_sorted_id x r :
  Forall (fun y => less x y = false) r -> insertBack less x r = x :: r.
Proof.
  intros Hr. destruct r as [|y r]; [reflexivity |].
  simpl. apply Forall_cons in Hr as [-> _]. reflexivity.
Qed.

Lemma insertAll_sorted_id r todo :
  StronglySorted (fun x y => less y x = false) (rev r ++ todo) ->
  insertAll less r todo = rev r ++ todo.
Proof.
  revert r. induction todo as [|x todo IH]; intros r Hs; simpl.
  - rewrite app_nil_r. reflexivity.
  - rewrite insertBack_sorted_id.
    + rewrite IH; simpl; rewrite <- app_assoc; [reflexivity | exact Hs].
    + apply Forall_forall. intros y Hy.
      apply (StronglySorted_app_1_elem_of _ _ _ y x) in Hs.
      * exact Hs.
      * apply (proj2 (elem_of_rev _ _)). exact Hy.
      * apply elem_of_cons. left. reflexivity.
Qed.

Lemma isort_sorted_id l :
  StronglySorted (fun x y => less y x = false) l -> isort less l = l.
Proof. intros Hs. unfold isort. apply (insertAll_sorted_id []). exact Hs. Qed.

End InsertionSort.

Section Ranges.
Context {A : Type}.
Variable less : A -> A -> bool.
Implicit Types l pre mid post : list A.

Lemma StronglySorted_lookup (R : A -> A -> Prop) l i j x y :
  StronglySorted R l -> (i < j)%nat ->
  l !! i = Some x -> l !! j = Some y -> R x y.
Proof.
  intros Hs. revert i j. induction Hs as [|z l Hs IH Hz]; intros i j Hij Hi Hj.
  - discriminate Hi.
  - destruct j as [|j]; [lia |]. simpl in Hj.
    destruct i as [|i]; simpl in Hi.
    + injection Hi as ->. rewrite Forall_forall in Hz. apply Hz.
      apply list_elem_of_lookup. exists j. exact Hj.
    + apply (IH i j); [lia | assumption | assumption].
Qed.

Lemma sortedBy_StronglySorted l :
  sortedBy less l <-> StronglySorted (fun x y => less y x = false) l.
Proof.
  split.
  - induction l as [|x l IH]; intros Hs; [constructor |].
    constructor.
    + apply IH. intros i j y z Hij Hi Hj.
      apply (Hs (S i) (S j) y z); [lia | exact Hi | exact Hj].
    + apply Forall_forall. intros y Hy.
      apply list_elem_of_lookup in Hy as [j Hj].
      apply (Hs 0%nat (S j) x y); [lia | reflexivity | exact Hj].
  - intros Hs i j x y Hij Hi Hj.
    exact (StronglySorted_lookup _ _ _ _ _ _ Hs Hij Hi Hj).
Qed.

Lemma sortedRange_whole l :
  sortedRange less 0 (length l) l <-> sortedBy less l.
Proof.
  split.
  - intros Hs i j x y Hij Hi Hj.
    apply (Hs i j x y); try assumption; [lia |].
    apply lookup_lt_Some in Hj. exact Hj.
  - intros Hs i j x y _ Hij _ Hi Hj. exact (Hs i j x y Hij Hi Hj).
Qed.

(** A list cut at [a] and [b]. *)
Lemma split_range l a b :
  (a <= b)%nat -> (b <= length l)%nat ->
  l = take a l ++ take (b - a) (drop a l) ++ drop b l
  /\ length (take a l) = a
  /\ length (take (b - a) (drop a l)) = (b - a)%nat.
Proof.
  intros Hab Hb. split; [| split].
  - rewrite <- (take_drop a l) at 1. f_equal.
    rewrite <- (take_drop (b - a) (drop a l)) at 1. f_equal.
    rewrite drop_drop. f_equal. lia.
  - rewrite length_take. lia.
  - rewrite length_take, length_drop. lia.
Qed.

Lemma rangePerm_of_split pre mid mid' post :
  mid' ≡ₚ mid ->
  rangePerm (length pre) (length pre + length mid)
            (pre ++ mid ++ post) (pre ++ mid' ++ post).
Proof.
  intros Hperm. pose proof (Permutation_length Hperm) as Hlen. constructor.
  - rewrite !length_app. lia.
  - intros i [Hi | Hi].
    + rewrite !lookup_app_l by lia. reflexivity.
    + rewrite !lookup_app_r by lia. rewrite Hlen. reflexivity.
  - rewrite Hperm. reflexivity.
Qed.

Lemma sortedRange_of_split pre mid post :
  StronglySorted (fun x y => less y x = false) mid ->
  sortedRange less (length pre) (length pre + length mid)
              (pre ++ mid ++ post).
Proof.
  intros Hs i j x y Ha Hij Hb Hi Hj.
  rewrite lookup_app_r in Hi, Hj by lia.
  rewrite lookup_app_l in Hi, Hj by lia.
  apply (StronglySorted_lookup _ _ (i - length pre)%nat (j - length pre)%nat
                               x y Hs); [lia | assumption | assumption].
Qed.

Lemma insertionSort_func_range l a b :
  (a <= b)%nat -> (b <= length l)%nat ->
  GoSort.insertionSort_func less l a b
  = take a l ++ isort less (take (b - a) (drop a l)) ++ drop b l.
Proof.
  intros Hab Hb.
  destruct (split_range l a b Hab Hb) as (Hl & Hpre & Hmid).
  pose proof (insertionSort_func_isort less (take a l)
                (take (b - a) (drop a l)) (drop b l)) as H.
  rewrite Hpre, Hmid, <- Hl in H.
  replace (a + (b - a))%nat with b in H by lia. exact H.
Qed.

Lemma insertionSort_func_rangePerm l a b :
  (a <= b)%nat -> (b <= length l)%nat ->
  rangePerm a b l (GoSort.insertionSort_func less l a b).
Proof.
  intros Hab Hb. rewrite insertionSort_func_range by assumption.
  destruct (split_range l a b Hab Hb) as (Hl & Hpre & Hmid).
  rewrite Hl at 1.
  pose proof (rangePerm_of_split (take a l) (take (b - a) (drop a l))
                (isort less (take (b - a) (drop a l))) (drop b l)
                (isort_Permutation less _)) as H.
  rewrite Hpre, Hmid in H. replace (a + (b - a))%nat with b in H by lia.
  exact H.
Qed.

Lemma insertionSort_func_sorted l a b :
  StrictWeakOrder less ->
  (a <= b)%nat -> (b <= length l)%nat ->
  sortedRange less a b (GoSort.insertionSort_func less l a b).
Proof.
  intros Hless Hab Hb. rewrite insertionSort_func_range by assumption.
  destruct (split_range l a b Hab Hb) as (Hl & Hpre & Hmid).
  pose proof (sortedRange_of_split (take a l)
                (isort less (take (b - a) (drop a l))) (drop b l)
                (isort_sorted less Hless _)) as H.
  rewrite isort_length, Hpre, Hmid in H.
  replace (a + (b - a))%nat with b in H by lia. exact H.
Qed.

End Ranges.

Section SliceSmallAndSorted.
Context {A : Type}.
Variable xorshift_Next : Z -> Z.
Variable less : A -> A -> bool.
Implicit Types l : list A.

(** Up to 12 elements [sort.Slice] is insertion sort. *)
Lemma Slice_short l :
  (length l <= 12)%nat ->
  GoSort.Slice xorshift_Next less l = Some (isort less l).
Proof.
  intros Hlen. unfold GoSort.Slice. cbn [GoSort.pdqsort_func].
  rewrite Nat.sub_0_r. unfold GoSort.maxInsertion.
  replace (length l <=? 12)%nat with true by (symmetry; apply Nat.leb_le; lia).
  rewrite insertionSort_func_range by lia.
  rewrite Nat.sub_0_r, drop_0, take_0, firstn_all, drop_all, app_nil_r.
  reflexivity.
Qed.

Lemma Less_sorted l i j :
  sortedBy less l -> (j < i)%nat -> GoSort.Less less l i j = false.
Proof.
  intros Hs Hij. unfold GoSort.Less.
  destruct (l !! i) as [x|] eqn:Hi; [| reflexivity].
  destruct (l !! j) as [y|] eqn:Hj; [| reflexivity].
  exact (Hs j i y x Hij Hj Hi).
Qed.

Lemma order2_func_sorted l a b swaps :
  sortedBy less l -> (a < b)%nat ->
  GoSort.order2_func less l a b swaps = (a, b, swaps).
Proof.
  intros Hs Hab. unfold GoSort.order2_func.
  rewrite Less_sorted by assumption. reflexivity.
Qed.

Lemma median_func_sorted l a b c swaps :
  sortedBy less l -> (a < b)%nat -> (b < c)%nat ->
  GoSort.median_func less l a b c swaps = (b, swaps).
Proof.
  intros Hs Hab Hbc. unfold GoSort.median_func.
  rewrite !order2_func_sorted by assumption. reflexivity.
Qed.

Lemma choosePivot_func_sorted l a b :
  sortedBy less l -> (8 <= b - a)%nat ->
  GoSort.choosePivot_func less l a b
  = ((a + (b - a) / 4 * 2)%nat, GoSort.increasingHint).
Proof.
  intros Hs Hlen. unfold GoSort.choosePivot_func.
  replace (8 <=? b - a)%nat with true by (symmetry; apply Nat.leb_le; lia).
  assert (Hq : (2 <= (b - a) / 4)%nat).
  { change 2%nat with (8 / 4)%nat. apply Nat.Div0.div_le_mono. lia. }
  destruct (GoSort.shortestNinther <=? b - a)%nat eqn:Hn.
  - unfold GoSort.medianAdjacent_func.
    rewrite !median_func_sorted by (assumption || lia).
    reflexivity.
  - rewrite !median_func_sorted by (assumption || lia).
    reflexivity.
Qed.

Lemma sortedRun_sorted n l i b :
  sortedBy less l -> (1 <= i)%nat -> (i <= b)%nat -> n = (b - i)%nat ->
  GoSort.sortedRun less n l i b = b.
Proof.
  intros Hs. revert i. induction n as [|n IH]; intros i Hi Hib Hn; simpl.
  - lia.
  - replace (i <? b)%nat with true by (symmetry; apply Nat.ltb_lt; lia).
    rewrite Less_sorted by (assumption || lia). simpl.
    apply IH; lia.
Qed.

Lemma partialInsertionSort_steps_sorted steps l a b i :
  sortedBy less l -> (1 <= i)%nat -> (i <= b)%nat ->
  GoSort.partialInsertionSort_steps less (S steps) l a b i = (l, true).
Proof.
  intros Hs Hi Hib. cbn [GoSort.partialInsertionSort_steps].
  rewrite (sortedRun_sorted _ l i b) by (assumption || lia).
  rewrite Nat.eqb_refl. reflexivity.
Qed.

Lemma partialInsertionSort_func_sorted l a b :
  sortedBy less l -> (a < b)%nat ->
  GoSort.partialInsertionSort_func less l a b = (l, true).
Proof.
  intros Hs Hab. unfold GoSort.partialInsertionSort_func, GoSort.maxSteps.
  apply partialInsertionSort_steps_sorted; [assumption | lia | lia].
Qed.

Lemma bits_Len_pos n : (0 < n)%nat -> (0 < GoSort.bits_Len n)%nat.
Proof. destruct n; simpl; lia. Qed.

(** A slice already in order comes back as it is. *)
Lemma Slice_sorted l :
  sortedBy less l -> GoSort.Slice xorshift_Next less l = Some l.
Proof.
  intros Hs.
  destruct (Nat.le_gt_cases (length l) 12) as [Hlen | Hlen].
  - rewrite Slice_short by exact Hlen. f_equal.
    apply isort_sorted_id. apply sortedBy_StronglySorted. exact Hs.
  - unfold GoSort.Slice. cbn [GoSort.pdqsort_func].
    rewrite Nat.sub_0_r. unfold GoSort.maxInsertion.
    replace (length l <=? 12)%nat with false
      by (symmetry; apply Nat.leb_gt; lia).
    pose proof (bits_Len_pos (length l) ltac:(lia)) as Hlimit.
    replace (GoSort.bits_Len (length l) =? 0)%nat with false
      by (symmetry; apply Nat.eqb_neq; lia).
    cbn [negb].
    rewrite choosePivot_func_sorted by (assumption || lia).
    cbn [andb].
    rewrite partialInsertionSort_func_sorted by (assumption || lia).
    reflexivity.
Qed.

End SliceSmallAndSorted.

(** *** Partitioning *)

Section Partition.
Context {A : Type}.
Variable less : A -> A -> bool.
Implicit Types l : list A.

Lemma scanLess_spec n l a p i j :
  l !! a = Some p -> (j < length l)%nat ->
  (S j - i <= n)%nat -> (i <= S j)%nat ->
  let i' := GoSort.scanLess less n l a i j in
  (i <= i' <= S j)%nat
  /\ (forall k x, (i <= k < i')%nat -> l !! k = Some x -> less x p = true)
  /\ ((i' <= j)%nat -> exists x, l !! i' = Some x /\ less x p = false).
Proof.
  intros Hp Hj. revert i. induction n as [|n IH]; intros i Hn Hi; simpl.
  - split; [lia |]. split; [intros; lia | intros; lia].
  - destruct (Nat.leb_spec i j) as [Hij | Hij]; simpl.
    + destruct (lookup_lt_is_Some_2 l i ltac:(lia)) as [x Hx].
      rewrite (Less_lookup less l i a x p Hx Hp).
      destruct (less x p) eqn:Hxp.
      * destruct (IH (S i) ltac:(lia) ltac:(lia)) as (H1 & H2 & H3).
        split; [lia |]. split; [| exact H3].
        intros k y Hk Hy. destruct (decide (k = i)) as [->|Hne].
        -- congruence.
        -- apply (H2 k y); [lia | exact Hy].
      * split; [lia |]. split; [intros; lia |].
        intros _. exists x. split; assumption.
    + split; [lia |]. split; [intros; lia | intros; lia].
Qed.

Lemma scanNotLess_spec n l a p i j :
  l !! a = Some p -> (j < length l)%nat -> (1 <= i)%nat ->
  (S j - i <= n)%nat -> (i <= S j)%nat ->
  let j' := GoSort.scanNotLess less n l a i j in
  (j' <= j)%nat /\ (i <= S j')%nat
  /\ (forall k x, (j' < k <= j)%nat -> l !! k = Some x -> less x p = false)
  /\ ((i <= j')%nat -> exists x, l !! j' = Some x /\ less x p = true).
Proof.
  intros Hp Hj Hi1. revert j Hj. induction n as [|n IH]; intros j Hj Hn Hi; simpl.
  - split; [lia |]. split; [lia |]. split; [intros; lia | intros; lia].
  - destruct (Nat.leb_spec i j) as [Hij | Hij]; simpl.
    + destruct (lookup_lt_is_Some_2 l j ltac:(lia)) as [x Hx].
      rewrite (Less_lookup less l j a x p Hx Hp).
      destruct (less x p) eqn:Hxp; simpl.
      * split; [lia |]. split; [lia |]. split; [intros; lia |].
        intros _. exists x. split; assumption.
      * destruct (IH (j - 1)%nat ltac:(lia) ltac:(lia) ltac:(lia))
          as (H1 & H2 & H3 & H4).
        split; [lia |]. split; [lia |]. split; [| exact H4].
        intros k y Hk Hy. destruct (decide (k = j)) as [->|Hne].
        -- congruence.
        -- apply (H3 k y); [lia | exact Hy].
    + split; [lia |]. split; [lia |]. split; [intros; lia | intros; lia].
Qed.

(** One round of the loop of [partition_func]: the two scans, the swap of
    the two elements they stop at, and the rest of the loop on what lies
    between. *)
Lemma partition_round l a p i j l' j'' :
  l !! a = Some p -> (j < length l)%nat -> (a < i)%nat -> (i <= S j)%nat ->
  let i' := GoSort.scanLess less (S j - i) l a i j in
  let j' := GoSort.scanNotLess less (S j - i') l a i' j in
  (i' <= j')%nat ->
  rangePerm (S i') (S (j' - 1)) (GoSort.Swap l i' j') l' ->
  (S i' <= S j'')%nat -> (j'' <= j' - 1)%nat ->
  splitBy less p (S i') j'' (j' - 1) l' ->
  rangePerm i (S j) l l'
  /\ (i <= S j'')%nat /\ (j'' <= j)%nat
  /\ splitBy less p i j'' j l'.
Proof.
  intros Hp Hj Hai Hi i' j'.
  pose proof (scanLess_spec (S j - i) l a p i j Hp Hj ltac:(lia) Hi) as Hsl.
  cbv zeta in Hsl. fold i' in Hsl. destruct Hsl as (Hi1 & Hi2 & Hi3).
  pose proof (scanNotLess_spec (S j - i') l a p i' j Hp Hj ltac:(lia)
                               ltac:(lia) ltac:(lia)) as Hsn.
  cbv zeta in Hsn. fold j' in Hsn. destruct Hsn as (Hj1 & Hj2 & Hj3 & Hj4).
  intros Hge Hrp Hb1 Hb2 [Hs1 Hs2].
  destruct (Hi3 ltac:(lia)) as (xi & Hxi & Hxi').
  destruct (Hj4 Hge) as (xj & Hxj & Hxj').
  assert (Hne : i' <> j') by (intros Heq; rewrite Heq in Hxi; congruence).
  assert (Hsw : rangePerm i (S j) l (GoSort.Swap l i' j'))
    by (apply Swap_rangePerm; lia).
  split.
  { eapply rangePerm_trans; [exact Hsw |].
    eapply rangePerm_weaken; [| | exact Hrp]; lia. }
  split; [lia |]. split; [lia |].
  pose proof (rp_outside _ _ _ _ Hrp) as Hout.
  split.
  - intros k x Hk Hx.
    destruct (decide (k < i')%nat) as [Hk1 | Hk1].
    { rewrite Hout, Swap_lookup_other in Hx by lia.
      apply (Hi2 k x); [lia | exact Hx]. }
    destruct (decide (k = i')) as [-> | Hk2].
    { rewrite Hout in Hx by lia.
      rewrite (Swap_lookup_l _ _ _ _ _ Hxi Hxj) in Hx. congruence. }
    apply (Hs1 k x); [lia | exact Hx].
  - intros k x Hk Hx.
    destruct (decide (k <= j' - 1)%nat) as [Hk1 | Hk1].
    { apply (Hs2 k x); [lia | exact Hx]. }
    destruct (decide (k = j')) as [-> | Hk2].
    { rewrite Hout in Hx by lia.
      rewrite (Swap_lookup_r _ _ _ _ _ Hxi Hxj) in Hx. congruence. }
    rewrite Hout, Swap_lookup_other in Hx by lia.
    apply (Hj3 k x); [lia | exact Hx].
Qed.

(** The round that ends the loop: the scans have crossed. *)
Lemma partition_crossed l a p i j :
  l !! a = Some p -> (j < length l)%nat -> (a < i)%nat -> (i <= S j)%nat ->
  let i' := GoSort.scanLess less (S j - i) l a i j in
  let j' := GoSort.scanNotLess less (S j - i') l a i' j in
  (j' < i')%nat ->
  (i <= S j')%nat /\ (j' <= j)%nat /\ splitBy less p i j' j l.
Proof.
  intros Hp Hj Hai Hi i' j'.
  pose proof (scanLess_spec (S j - i) l a p i j Hp Hj ltac:(lia) Hi) as Hsl.
  cbv zeta in Hsl. fold i' in Hsl. destruct Hsl as (Hi1 & Hi2 & Hi3).
  pose proof (scanNotLess_spec (S j - i') l a p i' j Hp Hj ltac:(lia)
                               ltac:(lia) ltac:(lia)) as Hsn.
  cbv zeta in Hsn. fold j' in Hsn. destruct Hsn as (Hj1 & Hj2 & Hj3 & Hj4).
  intros Hlt.
  split; [lia |]. split; [lia |]. split.
  - intros k x Hk Hx. apply (Hi2 k x); [lia | exact Hx].
  - exact Hj3.
Qed.

Lemma scan_bounds l a p i j :
  l !! a = Some p -> (j < length l)%nat -> (a < i)%nat -> (i <= S j)%nat ->
  let i' := GoSort.scanLess less (S j - i) l a i j in
  let j' := GoSort.scanNotLess less (S j - i') l a i' j in
  (i <= i' <= S j)%nat /\ (j' <= j)%nat /\ (i' <= S j')%nat
  /\ ((i' <= j')%nat -> (i' < j')%nat).
Proof.
  intros Hp Hj Hai Hi i' j'.
  pose proof (scanLess_spec (S j - i) l a p i j Hp Hj ltac:(lia) Hi) as Hsl.
  cbv zeta in Hsl. fold i' in Hsl. destruct Hsl as (Hi1 & Hi2 & Hi3).
  pose proof (scanNotLess_spec (S j - i') l a p i' j Hp Hj ltac:(lia)
                               ltac:(lia) ltac:(lia)) as Hsn.
  cbv zeta in Hsn. fold j' in Hsn. destruct Hsn as (Hj1 & Hj2 & Hj3 & Hj4).
  split; [lia |]. split; [lia |]. split; [lia |].
  intros Hge.
  destruct (Hi3 ltac:(lia)) as (xi & Hxi & Hxi').
  destruct (Hj4 Hge) as (xj & Hxj & Hxj').
  assert (Hne : i' <> j') by (intros Heq; rewrite Heq in Hxi; congruence).
  lia.
Qed.

Lemma partition_loop_spec n l a p i j :
  l !! a = Some p -> (j < length l)%nat -> (a < i)%nat ->
  (S j - i <= n)%nat -> (i <= S j)%nat ->
  exists l' j',
    GoSort.partition_loop less n l a i j = (l', j')
    /\ rangePerm i (S j) l l'
    /\ (i <= S j')%nat /\ (j' <= j)%nat
    /\ splitBy less p i j' j l'.
Proof.
  intros Hp. revert l i j Hp.
  induction n as [|n IH]; intros l i j Hp Hj Hai Hn Hi.
  - exists l, j. simpl. split; [reflexivity |].
    split; [apply rangePerm_refl |]. split; [lia |]. split; [lia |].
    split; intros; lia.
  - cbn [GoSort.partition_loop].
    pose proof (scan_bounds l a p i j Hp Hj Hai Hi) as Hb.
    pose proof (partition_crossed l a p i j Hp Hj Hai Hi) as Hcross.
    pose proof (partition_round l a p i j) as Hround.
    cbv zeta in Hb, Hcross, Hround.
    set (i' := GoSort.scanLess less (S j - i) l a i j) in *.
    set (j' := GoSort.scanNotLess less (S j - i') l a i' j) in *.
    destruct (Nat.ltb_spec j' i') as [Hlt | Hge].
    + exists l, j'. split; [reflexivity |].
      split; [apply rangePerm_refl |]. apply Hcross. exact Hlt.
    + destruct (IH (GoSort.Swap l i' j') (S i') (j' - 1)%nat)
        as (l' & j'' & Heq & Hrp & Hb1 & Hb2 & Hs).
      { rewrite Swap_lookup_other by lia. exact Hp. }
      { rewrite Swap_length. lia. }
      { lia. }
      { lia. }
      { lia. }
      exists l', j''. split; [exact Heq |].
      apply Hround; assumption.
Qed.

(** Putting the pivot between the two sides. *)
Lemma partition_finish l a b p j :
  l !! a = Some p -> (a <= j)%nat -> (j < b)%nat -> (b <= length l)%nat ->
  splitBy less p (a + 1) j (b - 1) l ->
  rangePerm a b l (GoSort.Swap l j a)
  /\ partitioned less p a j b (GoSort.Swap l j a).
Proof.
  intros Hp Haj Hjb Hb [Hs1 Hs2].
  split; [apply Swap_rangePerm; lia |].
  destruct (lookup_lt_is_Some_2 l j ltac:(lia)) as [xj Hxj].
  split; [| split].
  - intros k x Hk Hx.
    rewrite (Swap_lookup _ _ _ _ _ _ Hxj Hp) in Hx.
    destruct (decide (k = a)) as [-> | Hka].
    + injection Hx as <-. apply (Hs1 j xj); [lia | exact Hxj].
    + destruct (decide (k = j)); [lia |].
      apply (Hs1 k x); [lia | exact Hx].
  - rewrite (Swap_lookup _ _ _ _ _ _ Hxj Hp).
    destruct (decide (j = a)) as [-> | Hja]; [congruence |].
    destruct (decide (j = j)); [reflexivity | congruence].
  - intros k x Hk Hx.
    rewrite (Swap_lookup _ _ _ _ _ _ Hxj Hp) in Hx.
    destruct (decide (k = a)); [lia |]. destruct (decide (k = j)); [lia |].
    apply (Hs2 k x); [lia | exact Hx].
Qed.

Lemma partition_func_spec l a b pivot p :
  (a <= pivot)%nat -> (pivot < b)%nat -> (b <= length l)%nat ->
  l !! pivot = Some p ->
  exists l' mid alreadyPartitioned,
    GoSort.partition_func less l a b pivot = (l', mid, alreadyPartitioned)
    /\ rangePerm a b l l'
    /\ (a <= mid)%nat /\ (mid < b)%nat
    /\ partitioned less p a mid b l'.
Proof.
  intros Hap Hpb Hb Hp. unfold GoSort.partition_func.
  destruct (lookup_lt_is_Some_2 l a ltac:(lia)) as [xa Hxa].
  set (l1 := GoSort.Swap l a pivot).
  assert (Hl1 : rangePerm a b l l1) by (apply Swap_rangePerm; lia).
  assert (Hp1 : l1 !! a = Some p) by (exact (Swap_lookup_l _ _ _ _ _ Hxa Hp)).
  assert (Hlen1 : length l1 = length l) by apply Swap_length.
  pose proof (scan_bounds l1 a p (a + 1) (b - 1) Hp1 ltac:(lia) ltac:(lia)
                          ltac:(lia)) as Hbnd.
  pose proof (partition_crossed l1 a p (a + 1) (b - 1) Hp1 ltac:(lia)
                                ltac:(lia) ltac:(lia)) as Hcross.
  pose proof (partition_round l1 a p (a + 1) (b - 1)) as Hround.
  cbv zeta in Hbnd, Hcross, Hround.
  set (i' := GoSort.scanLess less (S (b - 1) - (a + 1)) l1 a (a + 1) (b - 1)) in *.
  set (j' := GoSort.scanNotLess less (S (b - 1) - i') l1 a i' (b - 1)) in *.
  destruct (Nat.ltb_spec j' i') as [Hlt | Hge].
  - destruct (Hcross Hlt) as (Hb1 & Hb2 & Hs).
    destruct (partition_finish l1 a b p j' Hp1 ltac:(lia) ltac:(lia)
                               ltac:(lia) Hs) as [Hrp Hpart].
    eexists _, _, _. split; [reflexivity |].
    split; [eapply rangePerm_trans; eassumption |].
    split; [lia |]. split; [lia | exact Hpart].
  - destruct (partition_loop_spec (S (j' - 1) - S i') (GoSort.Swap l1 i' j')
                                  a p (S i') (j' - 1))
      as (l3 & j'' & Heq & Hrp3 & Hb1 & Hb2 & Hs3).
    { rewrite Swap_lookup_other by lia. exact Hp1. }
    { rewrite Swap_length. lia. }
    { lia. }
    { lia. }
    { lia. }
    rewrite Heq.
    destruct (Hround l3 j'' Hp1 ltac:(lia) ltac:(lia) ltac:(lia) Hge Hrp3
                     Hb1 Hb2 Hs3) as (Hrp & Hc1 & Hc2 & Hs).
    assert (Hp3 : l3 !! a = Some p).
    { rewrite (rp_outside _ _ _ _ Hrp) by lia. exact Hp1. }
    destruct (partition_finish l3 a b p j'' Hp3 ltac:(lia) ltac:(lia)
                               ltac:(rewrite (rp_length _ _ _ _ Hrp); lia) Hs)
      as [Hrpf Hpart].
    eexists _, _, _. split; [reflexivity |].
    split.
    { eapply rangePerm_trans; [exact Hl1 |].
      eapply rangePerm_trans; [| exact Hrpf].
      eapply rangePerm_weaken; [| | exact Hrp]; lia. }
    split; [lia |]. split; [lia | exact Hpart].
Qed.

End Partition.

Section PartitionEqual.
Context {A : Type}.
Variable less : A -> A -> bool.
Implicit Types l : list A.

Lemma scanNotGreater_spec n l a p i j :
  l !! a = Some p -> (j < length l)%nat ->
  (S j - i <= n)%nat -> (i <= S j)%nat ->
  let i' := GoSort.scanNotGreater less n l a i j in
  (i <= i' <= S j)%nat
  /\ (forall k x, (i <= k < i')%nat -> l !! k = Some x -> less p x = false)
  /\ ((i' <= j)%nat -> exists x, l !! i' = Some x /\ less p x = true).
Proof.
  intros Hp Hj. revert i. induction n as [|n IH]; intros i Hn Hi; simpl.
  - split; [lia |]. split; [intros; lia | intros; lia].
  - destruct (Nat.leb_spec i j) as [Hij | Hij]; simpl.
    + destruct (lookup_lt_is_Some_2 l i ltac:(lia)) as [x Hx].
      rewrite (Less_lookup less l a i p x Hp Hx).
      destruct (less p x) eqn:Hxp; simpl.
      * split; [lia |]. split; [intros; lia |].
        intros _. exists x. split; assumption.
      * destruct (IH (S i) ltac:(lia) ltac:(lia)) as (H1 & H2 & H3).
        split; [lia |]. split; [| exact H3].
        intros k y Hk Hy. destruct (decide (k = i)) as [->|Hne].
        -- congruence.
        -- apply (H2 k y); [lia | exact Hy].
    + split; [lia |]. split; [intros; lia | intros; lia].
Qed.

Lemma scanGreater_spec n l a p i j :
  l !! a = Some p -> (j < length l)%nat -> (1 <= i)%nat ->
  (S j - i <= n)%nat -> (i <= S j)%nat ->
  let j' := GoSort.scanGreater less n l a i j in
  (j' <= j)%nat /\ (i <= S j')%nat
  /\ (forall k x, (j' < k <= j)%nat -> l !! k = Some x -> less p x = true)
  /\ ((i <= j')%nat -> exists x, l !! j' = Some x /\ less p x = false).
Proof.
  intros Hp Hj Hi1. revert j Hj. induction n as [|n IH]; intros j Hj Hn Hi; simpl.
  - split; [lia |]. split; [lia |]. split; [intros; lia | intros; lia].
  - destruct (Nat.leb_spec i j) as [Hij | Hij]; simpl.
    + destruct (lookup_lt_is_Some_2 l j ltac:(lia)) as [x Hx].
      rewrite (Less_lookup less l a j p x Hp Hx).
      destruct (less p x) eqn:Hxp; simpl.
      * destruct (IH (j - 1)%nat ltac:(lia) ltac:(lia) ltac:(lia))
          as (H1 & H2 & H3 & H4).
        split; [lia |]. split; [lia |]. split; [| exact H4].
        intros k y Hk Hy. destruct (decide (k = j)) as [->|Hne].
        -- congruence.
        -- apply (H3 k y); [lia | exact Hy].
      * split; [lia |]. split; [lia |]. split; [intros; lia |].
        intros _. exists x. split; assumption.
    + split; [lia |]. split; [lia |]. split; [intros; lia | intros; lia].
Qed.

Lemma partitionEqual_loop_spec n l a p i j :
  l !! a = Some p -> (j < length l)%nat -> (a < i)%nat ->
  (S j - i <= n)%nat -> (i <= S j)%nat ->
  exists l' mid,
    GoSort.partitionEqual_loop less n l a i j = (l', mid)
    /\ rangePerm i (S j) l l'
    /\ (i <= mid)%nat /\ (mid <= S j)%nat
    /\ splitEqualBy less p i mid j l'.
Proof.
  intros Hp. revert l i j Hp.
  induction n as [|n IH]; intros l i j Hp Hj Hai Hn Hi.
  - exists l, i. simpl. split; [reflexivity |].
    split; [apply rangePerm_refl |]. split; [lia |]. split; [lia |].
    split; intros; lia.
  - cbn [GoSort.partitionEqual_loop].
    destruct (scanNotGreater_spec (S j - i) l a p i j Hp Hj ltac:(lia) Hi)
      as (Hi1 & Hi2 & Hi3).
    set (i' := GoSort.scanNotGreater less (S j - i) l a i j) in *.
    destruct (scanGreater_spec (S j - i') l a p i' j Hp Hj ltac:(lia)
                               ltac:(lia) ltac:(lia))
      as (Hj1 & Hj2 & Hj3 & Hj4).
    set (j' := GoSort.scanGreater less (S j - i') l a i' j) in *.
    destruct (Nat.ltb_spec j' i') as [Hlt | Hge].
    + exists l, i'. split; [reflexivity |].
      split; [apply rangePerm_refl |]. split; [lia |]. split; [lia |].
      split.
      * exact Hi2.
      * intros k x Hk Hx. apply (Hj3 k x); [lia | exact Hx].
    + destruct (Hi3 ltac:(lia)) as (xi & Hxi & Hxi').
      destruct (Hj4 Hge) as (xj & Hxj & Hxj').
      assert (Hne : i' <> j') by (intros Heq; rewrite Heq in Hxi; congruence).
      assert (Hsw : rangePerm i (S j) l (GoSort.Swap l i' j'))
        by (apply Swap_rangePerm; lia).
      destruct (IH (GoSort.Swap l i' j') (S i') (j' - 1)%nat)
        as (l' & mid & Heq & Hrp & Hb1 & Hb2 & Hs1 & Hs2).
      { rewrite Swap_lookup_other by lia. exact Hp. }
      { rewrite Swap_length. lia. }
      { lia. }
      { lia. }
      { lia. }
      exists l', mid. split; [exact Heq |].
      split.
      { eapply rangePerm_trans; [exact Hsw |].
        eapply rangePerm_weaken; [| | exact Hrp]; lia. }
      split; [lia |]. split; [lia |].
      pose proof (rp_outside _ _ _ _ Hrp) as Hout.
      split.
      * intros k x Hk Hx.
        destruct (decide (k < i')%nat) as [Hk1 | Hk1].
        { rewrite Hout, Swap_lookup_other in Hx by lia.
          apply (Hi2 k x); [lia | exact Hx]. }
        destruct (decide (k = i')) as [-> | Hk2].
        { rewrite Hout in Hx by lia.
          rewrite (Swap_lookup_l _ _ _ _ _ Hxi Hxj) in Hx. congruence. }
        apply (Hs1 k x); [lia | exact Hx].
      * intros k x Hk Hx.
        destruct (decide (k <= j' - 1)%nat) as [Hk1 | Hk1].
        { apply (Hs2 k x); [lia | exact Hx]. }
        destruct (decide (k = j')) as [-> | Hk2].
        { rewrite Hout in Hx by lia.
          rewrite (Swap_lookup_r _ _ _ _ _ Hxi Hxj) in Hx. congruence. }
        rewrite Hout, Swap_lookup_other in Hx by lia.
        apply (Hj3 k x); [lia | exact Hx].
Qed.

Lemma partitionEqual_func_spec l a b pivot p :
  less p p = false ->
  (a <= pivot)%nat -> (pivot < b)%nat -> (b <= length l)%nat ->
  l !! pivot = Some p ->
  exists l' mid,
    GoSort.partitionEqual_func less l a b pivot = (l', mid)
    /\ rangePerm a b l l'
    /\ (a < mid)%nat /\ (mid <= b)%nat
    /\ splitEqualBy less p a mid (b - 1) l'.
Proof.
  intros Hirr Hap Hpb Hb Hp. unfold GoSort.partitionEqual_func.
  destruct (lookup_lt_is_Some_2 l a ltac:(lia)) as [xa Hxa].
  set (l1 := GoSort.Swap l a pivot).
  assert (Hl1 : rangePerm a b l l1) by (apply Swap_rangePerm; lia).
  assert (Hp1 : l1 !! a = Some p) by (exact (Swap_lookup_l _ _ _ _ _ Hxa Hp)).
  assert (Hlen1 : length l1 = length l) by apply Swap_length.
  destruct (partitionEqual_loop_spec (S (b - a)) l1 a p (a + 1) (b - 1))
    as (l' & mid & Heq & Hrp & Hb1 & Hb2 & Hs1 & Hs2);
    [exact Hp1 | lia | lia | lia | lia |].
  exists l', mid. split; [exact Heq |].
  split.
  { eapply rangePerm_trans; [exact Hl1 |].
    eapply rangePerm_weaken; [| | exact Hrp]; lia. }
  split; [lia |]. split; [lia |].
  split.
  - intros k x Hk Hx. destruct (decide (k = a)) as [-> | Hka].
    + rewrite (rp_outside _ _ _ _ Hrp) in Hx by lia. congruence.
    + apply (Hs1 k x); [lia | exact Hx].
  - exact Hs2.
Qed.

End PartitionEqual.

(** *** Choosing the pivot, reversing, breaking patterns *)

Section PivotAndPatterns.
Context {A : Type}.
Variable xorshift_Next : Z -> Z.
Variable less : A -> A -> bool.
Implicit Types l : list A.

Lemma median_func_cases l a b c swaps :
  exists m swaps',
    GoSort.median_func less l a b c swaps = (m, swaps')
    /\ (m = a \/ m = b \/ m = c).
Proof.
  unfold GoSort.median_func, GoSort.order2_func.
  destruct (GoSort.Less less l b a);
    destruct (GoSort.Less less l c _);
    destruct (GoSort.Less less l _ _);
    eexists _, _; (split; [reflexivity | tauto]).
Qed.

Lemma div4_bounds n : (n / 4 * 4 <= n)%nat /\ (n < n / 4 * 4 + 4)%nat.
Proof.
  pose proof (Nat.div_mod_eq n 4) as H.
  pose proof (Nat.mod_upper_bound n 4 ltac:(lia)). lia.
Qed.

Lemma choosePivot_func_bounds l a b :
  (8 <= b - a)%nat ->
  exists pivot hint,
    GoSort.choosePivot_func less l a b = (pivot, hint)
    /\ (a <= pivot)%nat /\ (pivot < b)%nat.
Proof.
  intros Hlen. unfold GoSort.choosePivot_func.
  replace (8 <=? b - a)%nat with true by (symmetry; apply Nat.leb_le; lia).
  destruct (div4_bounds (b - a)) as [Hq1 Hq2].
  set (q := ((b - a) / 4)%nat) in *.
  assert (Hq : (2 <= q)%nat) by lia.
  destruct (GoSort.shortestNinther <=? b - a)%nat eqn:Hn.
  - apply Nat.leb_le in Hn. unfold GoSort.shortestNinther in Hn.
    assert (Hq12 : (12 <= q)%nat) by lia.
    unfold GoSort.medianAdjacent_func.
    destruct (median_func_cases l (a + q * 1 - 1) (a + q * 1) (a + q * 1 + 1) 0)
      as (i & s1 & -> & Hi).
    destruct (median_func_cases l (a + q * 2 - 1) (a + q * 2) (a + q * 2 + 1) s1)
      as (j & s2 & -> & Hj).
    destruct (median_func_cases l (a + q * 3 - 1) (a + q * 3) (a + q * 3 + 1) s2)
      as (k & s3 & -> & Hk).
    destruct (median_func_cases l i j k s3) as (m & s4 & -> & Hm).
    assert (a <= m /\ m < b)%nat by lia.
    destruct (s4 =? 0)%nat; [eexists _, _; split; [reflexivity | lia] |].
    destruct (s4 =? GoSort.maxSwaps)%nat;
      eexists _, _; (split; [reflexivity | lia]).
  - destruct (median_func_cases l (a + q * 1) (a + q * 2) (a + q * 3) 0)
      as (m & s4 & -> & Hm).
    assert (a <= m /\ m < b)%nat by lia.
    destruct (s4 =? 0)%nat; [eexists _, _; split; [reflexivity | lia] |].
    destruct (s4 =? GoSort.maxSwaps)%nat;
      eexists _, _; (split; [reflexivity | lia]).
Qed.

Lemma reverseRange_loop_rangePerm n l i j :
  rangePerm i (S j) l (GoSort.reverseRange_loop n l i j).
Proof.
  revert l i j. induction n as [|n IH]; intros l i j; simpl.
  - apply rangePerm_refl.
  - destruct (Nat.ltb_spec i j) as [Hij | Hij]; [| apply rangePerm_refl].
    apply (rangePerm_trans _ _ _ (GoSort.Swap l i j));
      [apply Swap_rangePerm; lia |].
    eapply rangePerm_weaken; [| | apply IH]; lia.
Qed.

Lemma reverseRange_func_rangePerm l a b :
  (a < b)%nat -> rangePerm a b l (GoSort.reverseRange_func l a b).
Proof.
  intros Hab. unfold GoSort.reverseRange_func.
  eapply rangePerm_weaken; [| | apply reverseRange_loop_rangePerm]; lia.
Qed.

Lemma nextPowerOfTwo_le (length : nat) :
  (0 < length)%nat ->
  GoSort.nextPowerOfTwo length - 1 = Z.ones (Z.of_nat (GoSort.bits_Len length))
  /\ 2 ^ Z.of_nat (GoSort.bits_Len length) <= 2 * Z.of_nat length.
Proof.
  intros Hpos. unfold GoSort.nextPowerOfTwo. split.
  - rewrite Z.ones_equiv, Z.shiftl_1_l. lia.
  - destruct length as [|n]; [lia |]. unfold GoSort.bits_Len.
    pose proof (Nat.log2_spec (S n) ltac:(lia)) as [Hlo _].
    rewrite Nat2Z.inj_succ, Z.pow_succ_r by lia.
    apply Nat2Z.inj_le in Hlo. rewrite Nat2Z.inj_pow in Hlo.
    change (Z.of_nat 2) with 2 in Hlo. lia.
Qed.

Lemma breakPatterns_func_rangePerm l a b :
  rangePerm a b l (GoSort.breakPatterns_func xorshift_Next l a b).
Proof.
  unfold GoSort.breakPatterns_func.
  destruct (Nat.leb_spec 8 (b - a)) as [Hlen | Hlen]; [| apply rangePerm_refl].
  destruct (div4_bounds (b - a)) as [Hq1 Hq2].
  set (q := ((b - a) / 4)%nat) in *.
  destruct (nextPowerOfTwo_le (b - a) ltac:(lia)) as [Hones Hpow].
  rewrite Hones.
  assert (Hpick : forall r,
             ((if (b - a <=? Z.to_nat (Z.land r (Z.ones (Z.of_nat (GoSort.bits_Len (b - a))))))%nat
               then Z.to_nat (Z.land r (Z.ones (Z.of_nat (GoSort.bits_Len (b - a))))) - (b - a)
               else Z.to_nat (Z.land r (Z.ones (Z.of_nat (GoSort.bits_Len (b - a))))))
              < b - a)%nat).
  { intros r. rewrite Z.land_ones by lia.
    pose proof (Z.mod_pos_bound r (2 ^ Z.of_nat (GoSort.bits_Len (b - a)))
                                ltac:(apply Z.pow_pos_nonneg; lia)) as Hmod.
    destruct (Nat.leb_spec (b - a)
                (Z.to_nat (r mod 2 ^ Z.of_nat (GoSort.bits_Len (b - a)))));
      lia. }
  cbv zeta.
  do 2 (eapply rangePerm_trans;
        [| apply Swap_rangePerm;
           [lia
           | match goal with
             | |- context [Z.land ?r _] => pose proof (Hpick r); lia
             end]]).
  apply Swap_rangePerm;
    [lia
    | match goal with
      | |- context [Z.land ?r _] => pose proof (Hpick r); lia
      end].
Qed.

End PivotAndPatterns.

(** *** [partialInsertionSort_func] *)

Section PartialInsertionSort.
Context {A : Type}.
Variable less : A -> A -> bool.
Hypothesis Hless : StrictWeakOrder less.
Implicit Types l : list A.

Lemma sortedRange_seg l a b :
  (b <= length l)%nat ->
  sortedRange less a b l ->
  StronglySorted (fun x y => less y x = false) (take (b - a) (drop a l)).
Proof.
  intros Hb Hs. apply sortedBy_StronglySorted. intros i j x y Hij Hi Hj.
  assert (j < b - a)%nat.
  { apply lookup_lt_Some in Hj. rewrite length_take in Hj. lia. }
  rewrite lookup_seg in Hi, Hj by lia.
  apply (Hs (a + i)%nat (a + j)%nat x y); (lia || assumption).
Qed.

Lemma descending_rev (r : list A) :
  descending less r <-> StronglySorted (fun x y => less y x = false) (rev r).
Proof.
  unfold descending. induction r as [|y r IH]; simpl.
  - split; constructor.
  - rewrite StronglySorted_cons, StronglySorted_app, IH, Forall_forall.
    split.
    + intros [Hy Hr]. split; [| split; [exact Hr | repeat constructor]].
      intros x1 x2 H1 H2. apply list_elem_of_singleton in H2 as ->.
      apply Hy. apply (proj1 (elem_of_rev _ _)). exact H1.
    + intros (Hy & Hr & _). split; [| exact Hr].
      intros x Hx. apply (Hy x y).
      * apply (proj2 (elem_of_rev _ _)). exact Hx.
      * apply list_elem_of_singleton. reflexivity.
Qed.

(** The inner loop of insertion sort, on positions: it extends a sorted
    run by the element after it. *)
Lemma insertionInner_spec l a j :
  (a <= j)%nat -> (j < length l)%nat ->
  sortedRange less a j l ->
  rangePerm a (S j) l (GoSort.insertionInner less l a j)
  /\ sortedRange less a (S j) (GoSort.insertionInner less l a j).
Proof.
  intros Haj Hj Hs.
  destruct (lookup_lt_is_Some_2 l j Hj) as [x Hx].
  destruct (split_range l a j Haj ltac:(lia)) as (Hl & Hpre & Hmid).
  set (pre := take a l) in *. set (mid := take (j - a) (drop a l)) in *.
  assert (Hpost : drop j l = x :: drop (S j) l).
  { apply drop_S. exact Hx. }
  rewrite Hpost in Hl.
  pose proof (insertionInner_insertBack less (rev mid) pre (drop (S j) l) x)
    as Heq.
  rewrite rev_involutive, length_rev, Hpre, Hmid, <- Hl in Heq.
  replace (a + (j - a))%nat with j in Heq by lia.
  rewrite Heq.
  assert (Hsorted : StronglySorted (fun x y => less y x = false)
                      (rev (insertBack less x (rev mid)))).
  { apply descending_rev. apply insertBack_descending; [exact Hless |].
    apply descending_rev. rewrite rev_involutive.
    apply sortedRange_seg; [lia | exact Hs]. }
  assert (Hperm : rev (insertBack less x (rev mid)) ≡ₚ mid ++ [x]).
  { rewrite <- Permutation_rev, insertBack_Permutation, <- Permutation_rev.
    apply Permutation_cons_append. }
  split.
  - pose proof (rangePerm_of_split pre (mid ++ [x])
                  (rev (insertBack less x (rev mid))) (drop (S j) l) Hperm)
      as H.
    rewrite length_app, Hpre, Hmid in H. simpl in H.
    replace (a + (j - a + 1))%nat with (S j) in H by lia.
    rewrite <- app_assoc in H. simpl in H. rewrite <- Hl in H. exact H.
  - pose proof (sortedRange_of_split less pre
                  (rev (insertBack less x (rev mid))) (drop (S j) l) Hsorted)
      as H.
    rewrite (Permutation_length Hperm), length_app, Hpre, Hmid in H.
    simpl in H. replace (a + (j - a + 1))%nat with (S j) in H by lia.
    exact H.
Qed.

Lemma aboveLeft_rangePerm l l' a b :
  rangePerm a b l l' -> aboveLeft less a b l -> aboveLeft less a b l'.
Proof.
  intros Hrp Habove i j x y Hi Hj1 Hj2 Hx Hy.
  rewrite (rp_outside _ _ _ _ Hrp) in Hx by lia.
  destruct (rangePerm_elem a b l l' j y Hrp ltac:(lia) Hy) as (j' & Hj' & Hy').
  apply (Habove i j' x y); (lia || assumption).
Qed.

Lemma aboveLeft_weaken l a b b' :
  (b' <= b)%nat -> aboveLeft less a b l -> aboveLeft less a b' l.
Proof.
  intros Hb Habove i j x y Hi Hj1 Hj2. apply Habove; lia.
Qed.

(** Below an element nothing before [a] is greater than, the shifting
    loop of [partialInsertionSort_func] stops at [a] like the inner loop
    of insertion sort. *)
Lemma shiftLeft_insertionInner l a j :
  (a <= j)%nat -> (j < length l)%nat ->
  aboveLeft less a (S j) l ->
  GoSort.shiftLeft less l j = GoSort.insertionInner less l a j.
Proof.
  revert l. induction j as [|j IH]; intros l Haj Hj Habove; [reflexivity |].
  cbn [GoSort.shiftLeft GoSort.insertionInner].
  destruct (Nat.ltb_spec a (S j)) as [Hlt | Hge]; cbn [andb].
  - destruct (GoSort.Less less l (S j) j) eqn:HL; cbn [negb]; [| reflexivity].
    apply IH; [lia | rewrite Swap_length; lia |].
    apply (aboveLeft_weaken _ a (S (S j))); [lia |].
    eapply aboveLeft_rangePerm; [| exact Habove].
    apply Swap_rangePerm; lia.
  - assert (a = S j) by lia. subst a.
    destruct (lookup_lt_is_Some_2 l (S j) Hj) as [x Hx].
    destruct (lookup_lt_is_Some_2 l j ltac:(lia)) as [y Hy].
    rewrite (Less_lookup less l (S j) j x y Hx Hy).
    rewrite (Habove j (S j) y x) by (lia || assumption). reflexivity.
Qed.

Lemma shiftRight_rangePerm n l j b :
  (1 <= j)%nat -> rangePerm (j - 1) b l (GoSort.shiftRight less n l j b).
Proof.
  revert l j. induction n as [|n IH]; intros l j Hj; simpl.
  - apply rangePerm_refl.
  - destruct (Nat.ltb_spec j b) as [Hjb | Hjb]; [| apply rangePerm_refl].
    destruct (GoSort.Less less l j (j - 1)); simpl; [| apply rangePerm_refl].
    apply (rangePerm_trans _ _ _ (GoSort.Swap l j (j - 1)));
      [apply Swap_rangePerm; lia |].
    eapply rangePerm_weaken; [| | apply IH]; lia.
Qed.

Lemma sortedRun_spec n l a i b :
  (a < i)%nat -> (i <= b)%nat -> (b <= length l)%nat ->
  sortedRange less a i l ->
  let i' := GoSort.sortedRun less n l i b in
  (i <= i')%nat /\ (i' <= b)%nat /\ sortedRange less a i' l.
Proof.
  revert i. induction n as [|n IH]; intros i Hai Hib Hb Hs; simpl.
  - split; [lia |]. split; [lia | exact Hs].
  - destruct (Nat.ltb_spec i b) as [Hlt | Hge]; simpl.
    2: { split; [lia |]. split; [lia | exact Hs]. }
    destruct (lookup_lt_is_Some_2 l i ltac:(lia)) as [x Hx].
    destruct (lookup_lt_is_Some_2 l (i - 1) ltac:(lia)) as [y Hy].
    rewrite (Less_lookup less l i (i - 1) x y Hx Hy).
    destruct (less x y) eqn:Hxy; simpl.
    { split; [lia |]. split; [lia | exact Hs]. }
    destruct (IH (S i) ltac:(lia) ltac:(lia) Hb) as (H1 & H2 & H3).
    { intros p q u v Hp Hpq Hq Hu Hv.
      destruct (decide (q = i)) as [-> | Hqi].
      - assert (v = x) by congruence. subst v.
        destruct (decide (p = i - 1)%nat) as [-> | Hpi].
        + assert (u = y) by congruence. subst u. exact Hxy.
        + apply (notLess_trans less Hless u y x); [| exact Hxy].
          apply (Hs p (i - 1)%nat u y); (lia || assumption).
      - apply (Hs p q u v); (lia || assumption). }
    split; [lia |]. split; [lia | exact H3].
Qed.

Lemma partialInsertionSort_steps_spec steps l a b i :
  (a < i)%nat -> (i <= b)%nat -> (b <= length l)%nat ->
  aboveLeft less a b l ->
  sortedRange less a i l ->
  exists l' done,
    GoSort.partialInsertionSort_steps less steps l a b i = (l', done)
    /\ rangePerm a b l l'
    /\ (done = true -> sortedRange less a b l').
Proof.
  revert l i. induction steps as [|steps IH]; intros l i Hai Hib Hb Habove Hs.
  - exists l, false. split; [reflexivity |].
    split; [apply rangePerm_refl | discriminate].
  - cbn [GoSort.partialInsertionSort_steps].
    pose proof (sortedRun_spec (b - i) l a i b Hai Hib Hb Hs) as Hrun.
    cbv zeta in Hrun.
    set (i' := GoSort.sortedRun less (b - i) l i b) in *.
    destruct Hrun as (Hi1 & Hi2 & Hs').
    destruct (Nat.eqb_spec i' b) as [Heq | Hne].
    { exists l, true. split; [reflexivity |].
      split; [apply rangePerm_refl |]. intros _. rewrite <- Heq. exact Hs'. }
    destruct (b - a <? GoSort.shortestShifting)%nat.
    { exists l, false. split; [reflexivity |].
      split; [apply rangePerm_refl | discriminate]. }
    set (l1 := GoSort.Swap l i' (i' - 1)).
    assert (Hrp1 : rangePerm a b l l1) by (apply Swap_rangePerm; lia).
    assert (Hlen1 : length l1 = length l) by apply Swap_length.
    assert (Hs1 : sortedRange less a (i' - 1) l1).
    { intros p q u v Hp Hpq Hq Hu Hv.
      unfold l1 in Hu, Hv. rewrite Swap_lookup_other in Hu, Hv by lia.
      apply (Hs' p q u v); (lia || assumption). }
    set (l2 := if (2 <=? i' - a)%nat
               then GoSort.shiftLeft less l1 (i' - 1) else l1).
    assert (H2 : rangePerm a b l1 l2 /\ sortedRange less a i' l2).
    { unfold l2. destruct (Nat.leb_spec 2 (i' - a)) as [Hge | Hlt].
      - rewrite (shiftLeft_insertionInner l1 a (i' - 1)); [| lia | lia |].
        2: { apply (aboveLeft_weaken _ a b); [lia |].
             eapply aboveLeft_rangePerm; eassumption. }
        destruct (insertionInner_spec l1 a (i' - 1) ltac:(lia) ltac:(lia) Hs1)
          as [Hrp Hsorted].
        replace (S (i' - 1)) with i' in Hrp, Hsorted by lia.
        split; [| exact Hsorted].
        eapply rangePerm_weaken; [| | exact Hrp]; lia.
      - split; [apply rangePerm_refl |].
        intros p q u v Hp Hpq Hq Hu Hv. lia. }
    destruct H2 as [Hrp2 Hs2].
    set (l3 := if (2 <=? b - i')%nat
               then GoSort.shiftRight less (b - (i' + 1)) l2 (i' + 1) b
               else l2).
    assert (H3 : rangePerm i' b l2 l3).
    { unfold l3. destruct (2 <=? b - i')%nat; [| apply rangePerm_refl].
      pose proof (shiftRight_rangePerm (b - (i' + 1)) l2 (i' + 1) b ltac:(lia))
        as H.
      replace (i' + 1 - 1)%nat with i' in H by lia. exact H. }
    assert (Hrp3 : rangePerm a b l l3).
    { eapply rangePerm_trans; [exact Hrp1 |].
      eapply rangePerm_trans; [exact Hrp2 |].
      eapply rangePerm_weaken; [| | exact H3]; lia. }
    destruct (IH l3 i' ltac:(lia) ltac:(lia)) as (l' & done & Heq & Hrp & Hdone).
    { rewrite (rp_length _ _ _ _ Hrp3). exact Hb. }
    { eapply aboveLeft_rangePerm; eassumption. }
    { intros p q u v Hp Hpq Hq Hu Hv.
      rewrite (rp_outside _ _ _ _ H3) in Hu, Hv by lia.
      apply (Hs2 p q u v); (lia || assumption). }
    exists l', done. split; [exact Heq |].
    split; [eapply rangePerm_trans; eassumption | exact Hdone].
Qed.

Lemma partialInsertionSort_func_spec l a b :
  (a < b)%nat -> (b <= length l)%nat ->
  aboveLeft less a b l ->
  exists l' done,
    GoSort.partialInsertionSort_func less l a b = (l', done)
    /\ rangePerm a b l l'
    /\ (done = true -> sortedRange less a b l').
Proof.
  intros Hab Hb Habove. unfold GoSort.partialInsertionSort_func.
  apply partialInsertionSort_steps_spec; try assumption; try lia.
  intros p q u v Hp Hpq Hq. lia.
Qed.

End PartialInsertionSort.

(** *** Heap sort *)

Section HeapSort.
Context {A : Type}.
Variable less : A -> A -> bool.
Hypothesis Hless : StrictWeakOrder less.
Implicit Types l : list A.

Lemma siftDown_func_spec n l first lo hi r :
  (first + hi <= length l)%nat -> (lo <= r)%nat -> (hi - r <= n)%nat ->
  heapExcept less first lo hi r l ->
  rangePerm (first + r) (first + hi) l
            (GoSort.siftDown_func less n l r hi first)
  /\ heapAt less first lo hi (GoSort.siftDown_func less n l r hi first).
Proof.
  revert l r. induction n as [|n IH]; intros l r Hhi Hlo Hn [Hex Hbr].
  - simpl. split; [apply rangePerm_refl |].
    intros k c x y Hk Hc Hkc Hx Hy.
    destruct (decide (k = r)) as [-> | Hkr]; [lia |].
    apply (Hex k c x y); assumption.
  - cbn [GoSort.siftDown_func].
    destruct (Nat.leb_spec hi (2 * r + 1)) as [Hnone | Hsome].
    { split; [apply rangePerm_refl |].
      intros k c x y Hk Hc Hkc Hx Hy.
      destruct (decide (k = r)) as [-> | Hkr]; [lia |].
      apply (Hex k c x y); assumption. }
    destruct (lookup_lt_is_Some_2 l (first + r) ltac:(lia)) as [xr Hxr].
    destruct (lookup_lt_is_Some_2 l (first + (2 * r + 1)) ltac:(lia))
      as [x1 Hx1].
    (* the greater child *)
    set (c := if (2 * r + 1 + 1 <? hi)%nat
                 && GoSort.Less less l (first + (2 * r + 1))
                                (first + (2 * r + 1) + 1)
              then (2 * r + 1 + 1)%nat else (2 * r + 1)%nat).
    assert (Hc : exists xc,
               (c = 2 * r + 1 \/ c = 2 * r + 2)%nat /\ (c < hi)%nat
               /\ l !! (first + c)%nat = Some xc
               /\ (forall c' y, (c' < hi)%nat ->
                                (c' = 2 * r + 1 \/ c' = 2 * r + 2)%nat ->
                                l !! (first + c')%nat = Some y ->
                                less xc y = false)).
    { unfold c. destruct (Nat.ltb_spec (2 * r + 1 + 1) hi) as [H2 | H2];
        cbn [andb].
      - destruct (lookup_lt_is_Some_2 l (first + (2 * r + 1) + 1) ltac:(lia))
          as [x2 Hx2].
        rewrite (Less_lookup less l _ _ x1 x2 Hx1 Hx2).
        destruct (less x1 x2) eqn:H12.
        + exists x2. split; [lia |]. split; [lia |].
          split; [rewrite <- Hx2; f_equal; lia |].
          intros c' y Hc' [-> | ->] Hy.
          * assert (y = x1) by congruence. subst y.
            apply (less_asym less Hless). exact H12.
          * replace (first + (2 * r + 2))%nat
              with (first + (2 * r + 1) + 1)%nat in Hy by lia.
            assert (y = x2) by congruence. subst y.
            apply (swo_irrefl less Hless).
        + exists x1. split; [lia |]. split; [lia |].
          split; [exact Hx1 |].
          intros c' y Hc' [-> | ->] Hy.
          * assert (y = x1) by congruence. subst y.
            apply (swo_irrefl less Hless).
          * replace (first + (2 * r + 2))%nat
              with (first + (2 * r + 1) + 1)%nat in Hy by lia.
            assert (y = x2) by congruence. subst y. exact H12.
      - exists x1. split; [lia |]. split; [lia |]. split; [exact Hx1 |].
        intros c' y Hc' [-> | ->] Hy; [| lia].
        assert (y = x1) by congruence. subst y. apply (swo_irrefl less Hless). }
    destruct Hc as (xc & Hcr & Hchi & Hxc & Hmax).
    fold c. clearbody c.
    replace (first + (2 * r + 1))%nat with (first + (2 * r + 1))%nat by lia.
    rewrite (Less_lookup less l _ _ xr xc Hxr Hxc).
    destruct (less xr xc) eqn:Hrc; cbn [negb].
    + (* the root goes down *)
      set (l2 := GoSort.Swap l (first + r) (first + c)).
      assert (Hsw : forall k, l2 !! (first + k)%nat
                              = if decide (k = c) then Some xr
                                else if decide (k = r) then Some xc
                                     else l !! (first + k)%nat).
      { intros k. unfold l2. rewrite (Swap_lookup _ _ _ _ _ _ Hxr Hxc).
        destruct (decide (k = c)), (decide (first + k = first + c)%nat);
          try lia; [reflexivity |].
        destruct (decide (k = r)), (decide (first + k = first + r)%nat);
          try lia; reflexivity. }
      destruct (IH l2 c) as [Hrp Hheap].
      { unfold l2. rewrite Swap_length. exact Hhi. }
      { lia. }
      { lia. }
      { split.
        - intros k c' x y Hk Hkc Hc' Hchild Hx Hy.
          rewrite Hsw in Hx, Hy.
          destruct (decide (k = c)); [contradiction |].
          destruct (decide (k = r)) as [-> | Hkr].
          + injection Hx as <-.
            destruct (decide (c' = c)) as [-> | Hc'c].
            * injection Hy as <-. apply (less_asym less Hless). exact Hrc.
            * destruct (decide (c' = r)); [lia |].
              apply (Hmax c' y); assumption.
          + destruct (decide (c' = c)) as [-> | Hc'c]; [lia |].
            destruct (decide (c' = r)) as [-> | Hc'r].
            * injection Hy as <-.
              apply (Hbr k c x xc); (lia || assumption).
            * apply (Hex k c' x y); assumption.
        - intros k c' x y Hk Hpar Hc' Hchild Hx Hy.
          assert (k = r) by lia. subst k.
          rewrite Hsw in Hx, Hy.
          destruct (decide (r = c)); [lia |].
          destruct (decide (r = r)); [| congruence].
          injection Hx as <-.
          destruct (decide (c' = c)); [lia |].
          destruct (decide (c' = r)); [lia |].
          apply (Hex c c' xc y); (lia || assumption). }
      split; [| exact Hheap].
      apply (rangePerm_trans _ _ _ l2); [apply Swap_rangePerm; lia |].
      eapply rangePerm_weaken; [| | exact Hrp]; lia.
    + (* the root stays *)
      split; [apply rangePerm_refl |].
      intros k c' x y Hk Hc' Hkc Hx Hy.
      destruct (decide (k = r)) as [-> | Hkr].
      * assert (x = xr) by congruence. subst x.
        apply (notLess_trans less Hless y xc xr); [| exact Hrc].
        apply (Hmax c' y); assumption.
      * apply (Hex k c' x y); assumption.
Qed.

Lemma rev_seq_S (k : nat) : rev (seq 0 (S k)) = k :: rev (seq 0 k).
Proof. rewrite seq_S, rev_app_distr. reflexivity. Qed.

(** Building the heap, from the last node with a child down to the
    root. *)
Lemma heapify_spec k l first hi :
  (first + hi <= length l)%nat ->
  heapAt less first k hi l ->
  let l' := fold_left (fun d i => GoSort.siftDown_func less hi d i hi first)
                      (rev (seq 0 k)) l in
  rangePerm first (first + hi) l l' /\ heapAt less first 0 hi l'.
Proof.
  revert l. induction k as [|k IH]; intros l Hhi Hheap.
  - simpl. split; [apply rangePerm_refl | exact Hheap].
  - rewrite rev_seq_S. cbn [fold_left].
    destruct (siftDown_func_spec hi l first k hi k Hhi ltac:(lia) ltac:(lia))
      as [Hrp1 Hheap1].
    { split.
      - intros p c x y Hp Hpk. apply Hheap. lia.
      - intros p c x y Hp Hpar. lia. }
    destruct (IH (GoSort.siftDown_func less hi l k hi first)) as [Hrp2 Hheap2].
    { rewrite (rp_length _ _ _ _ Hrp1). exact Hhi. }
    { exact Hheap1. }
    split; [| exact Hheap2].
    eapply rangePerm_trans; [| exact Hrp2].
    eapply rangePerm_weaken; [| | exact Hrp1]; lia.
Qed.

(** The root of a heap is not less than any of its nodes. *)
Lemma heap_root_max l first hi j x y :
  heapAt less first 0 hi l -> (j < hi)%nat ->
  l !! first = Some x -> l !! (first + j)%nat = Some y ->
  (first + hi <= length l)%nat ->
  less x y = false.
Proof.
  intros Hheap Hj Hx Hy Hhi. revert y Hy.
  induction j as [j IH] using lt_wf_ind. intros y Hy.
  destruct j as [|j].
  - rewrite Nat.add_0_r in Hy. assert (y = x) by congruence. subst y.
    apply (swo_irrefl less Hless).
  - set (p := (j / 2)%nat).
    assert (Hp : (S j = 2 * p + 1 \/ S j = 2 * p + 2)%nat).
    { unfold p. pose proof (Nat.div_mod_eq j 2).
      pose proof (Nat.mod_upper_bound j 2 ltac:(lia)). lia. }
    destruct (lookup_lt_is_Some_2 l (first + p) ltac:(lia)) as [z Hz].
    apply (notLess_trans less Hless y z x).
    + apply (Hheap p (S j) z y); (lia || assumption).
    + apply (IH p ltac:(lia) ltac:(lia) z Hz).
Qed.

(** Taking the root out, once for each position from the last to the
    first: [k] positions are still in the heap, the others hold the
    greatest elements in order. *)
Lemma heapSort_extract_spec k l first hi :
  (first + hi <= length l)%nat -> (k <= hi)%nat ->
  heapAt less first 0 k l ->
  sortedRange less (first + k) (first + hi) l ->
  (forall i j x y, (first <= i < first + k)%nat ->
                   (first + k <= j < first + hi)%nat ->
                   l !! i = Some x -> l !! j = Some y -> less y x = false) ->
  let l' := fold_left (fun d i => GoSort.siftDown_func
                                    less i (GoSort.Swap d first (first + i))
                                    0 i first)
                      (rev (seq 0 k)) l in
  rangePerm first (first + hi) l l'
  /\ sortedRange less first (first + hi) l'.
Proof.
  revert l. induction k as [|k IH]; intros l Hhi Hk Hheap Hsorted Hbound.
  - simpl. split; [apply rangePerm_refl |].
    rewrite Nat.add_0_r in Hsorted. exact Hsorted.
  - rewrite rev_seq_S. cbn [fold_left].
    destruct (lookup_lt_is_Some_2 l first ltac:(lia)) as [xr Hxr].
    destruct (lookup_lt_is_Some_2 l (first + k) ltac:(lia)) as [xk Hxk].
    set (l2 := GoSort.Swap l first (first + k)).
    assert (Hrp2 : rangePerm first (first + S k) l l2)
      by (apply Swap_rangePerm; lia).
    assert (Hlen2 : length l2 = length l) by apply Swap_length.
    destruct (siftDown_func_spec k l2 first 0 k 0 ltac:(lia) ltac:(lia)
                                 ltac:(lia)) as [Hrp3 Hheap3].
    { split.
      - intros p c x y Hp Hp0 Hc Hpc Hx Hy. unfold l2 in Hx, Hy.
        rewrite Swap_lookup_other in Hx, Hy by lia.
        apply (Hheap p c x y); (lia || assumption).
      - intros p c x y Hp Hpar. lia. }
    set (l3 := GoSort.siftDown_func less k l2 0 k first) in *.
    rewrite Nat.add_0_r in Hrp3.
    assert (Hrp13 : rangePerm first (first + S k) l l3).
    { eapply rangePerm_trans; [exact Hrp2 |].
      eapply rangePerm_weaken; [| | exact Hrp3]; lia. }
    assert (Hl3k : l3 !! (first + k)%nat = Some xr).
    { rewrite (rp_outside _ _ _ _ Hrp3) by lia.
      exact (Swap_lookup_r _ _ _ _ _ Hxr Hxk). }
    assert (Hroot : forall i x, (first <= i < first + S k)%nat ->
                                l !! i = Some x -> less xr x = false).
    { intros i x Hi Hx.
      apply (heap_root_max l first (S k) (i - first) xr x Hheap);
        [lia | exact Hxr | | lia].
      rewrite <- Hx. f_equal. lia. }
    destruct (IH l3) as [Hrp4 Hsorted4].
    { rewrite (rp_length _ _ _ _ Hrp13). exact Hhi. }
    { lia. }
    { exact Hheap3. }
    { intros i j x y Hi Hij Hj Hx Hy.
      destruct (decide (i = first + k)%nat) as [-> | Hik].
      - assert (x = xr) by congruence. subst x.
        rewrite (rp_outside _ _ _ _ Hrp13) in Hy by lia.
        apply (Hbound first j xr y); (lia || assumption).
      - rewrite (rp_outside _ _ _ _ Hrp13) in Hx, Hy by lia.
        apply (Hsorted i j x y); (lia || assumption). }
    { intros i j x y Hi Hj Hx Hy.
      destruct (rangePerm_elem _ _ _ _ i x Hrp13 ltac:(lia) Hx)
        as (i' & Hi' & Hx').
      destruct (decide (j = first + k)%nat) as [-> | Hjk].
      - assert (y = xr) by congruence. subst y.
        apply (Hroot i' x); [lia | exact Hx'].
      - rewrite (rp_outside _ _ _ _ Hrp13) in Hy by lia.
        apply (Hbound i' j x y); (lia || assumption). }
    split; [| exact Hsorted4].
    eapply rangePerm_trans; [| exact Hrp4].
    eapply rangePerm_weaken; [| | exact Hrp13]; lia.
Qed.

Lemma heapSort_func_spec l a b :
  (a <= b)%nat -> (b <= length l)%nat ->
  rangePerm a b l (GoSort.heapSort_func less l a b)
  /\ sortedRange less a b (GoSort.heapSort_func less l a b).
Proof.
  intros Hab Hb. unfold GoSort.heapSort_func.
  destruct (heapify_spec (S ((b - a - 1) / 2)) l a (b - a) ltac:(lia))
    as [Hrp1 Hheap1].
  { intros k c x y Hk Hc Hkc.
    pose proof (Nat.div_mod_eq (b - a - 1) 2).
    pose proof (Nat.mod_upper_bound (b - a - 1) 2 ltac:(lia)). lia. }
  set (l1 := fold_left
               (fun d i => GoSort.siftDown_func less (b - a) d i (b - a) a)
               (rev (seq 0 (S ((b - a - 1) / 2)))) l) in *.
  destruct (heapSort_extract_spec (b - a) l1 a (b - a)) as [Hrp2 Hsorted2].
  { rewrite (rp_length _ _ _ _ Hrp1). lia. }
  { lia. }
  { exact Hheap1. }
  { intros i j x y Hi Hij Hj. lia. }
  { intros i j x y Hi Hj. lia. }
  replace (a + (b - a))%nat with b in * by lia.
  split; [eapply rangePerm_trans; eassumption | exact Hsorted2].
Qed.

End HeapSort.

(** *** [pdqsort_func] *)

Section Pdqsort.
Context {A : Type}.
Variable xorshift_Next : Z -> Z.
Variable less : A -> A -> bool.
Hypothesis Hless : StrictWeakOrder less.
Implicit Types l : list A.

Lemma sortedRange_rangePerm_outside l l' a b a' b' :
  rangePerm a' b' l l' ->
  (b' <= a \/ b <= a')%nat ->
  sortedRange less a b l -> sortedRange less a b l'.
Proof.
  intros Hrp Hdisj Hs i j x y Hi Hij Hj Hx Hy.
  rewrite (rp_outside _ _ _ _ Hrp) in Hx, Hy by lia.
  apply (Hs i j x y); assumption.
Qed.

Lemma partitioned_rangePerm_left l l' p a mid b :
  rangePerm a mid l l' ->
  partitioned less p a mid b l -> partitioned less p a mid b l'.
Proof.
  intros Hrp (H1 & H2 & H3). split; [| split].
  - intros k x Hk Hx.
    destruct (rangePerm_elem _ _ _ _ k x Hrp Hk Hx) as (k' & Hk' & Hx').
    apply (H1 k' x); assumption.
  - rewrite (rp_outside _ _ _ _ Hrp) by lia. exact H2.
  - intros k x Hk Hx. rewrite (rp_outside _ _ _ _ Hrp) in Hx by lia.
    apply (H3 k x); assumption.
Qed.

Lemma partitioned_rangePerm_right l l' p a mid b :
  rangePerm (mid + 1) b l l' ->
  partitioned less p a mid b l -> partitioned less p a mid b l'.
Proof.
  intros Hrp (H1 & H2 & H3). split; [| split].
  - intros k x Hk Hx. rewrite (rp_outside _ _ _ _ Hrp) in Hx by lia.
    apply (H1 k x); assumption.
  - rewrite (rp_outside _ _ _ _ Hrp) by lia. exact H2.
  - intros k x Hk Hx.
    destruct (rangePerm_elem _ _ _ _ k x Hrp ltac:(lia) Hx) as (k' & Hk' & Hx').
    apply (H3 k' x); [lia | assumption].
Qed.

Lemma partitioned_aboveLeft l p a mid b :
  partitioned less p a mid b l -> aboveLeft less a b l ->
  (a <= mid)%nat -> (mid < b)%nat ->
  aboveLeft less (mid + 1) b l.
Proof.
  intros (H1 & H2 & H3) Habove Ha Hb i j x y Hi Hj1 Hj2 Hx Hy.
  destruct (decide (i < a)%nat) as [Hia | Hia].
  { apply (Habove i j x y); (lia || assumption). }
  pose proof (H3 j y ltac:(lia) Hy) as Hyp.
  destruct (decide (i = mid)) as [-> | Him].
  { assert (x = p) by congruence. subst x. exact Hyp. }
  pose proof (H1 i x ltac:(lia) Hx) as Hxp.
  destruct (less y x) eqn:Hyx; [| reflexivity].
  rewrite (swo_trans less Hless _ _ _ Hyx Hxp) in Hyp. discriminate Hyp.
Qed.

(** Two sorted sides around the pivot make a sorted range. *)
Lemma partitioned_sorted l p a mid b :
  partitioned less p a mid b l ->
  (a <= mid)%nat -> (mid < b)%nat ->
  sortedRange less a mid l -> sortedRange less (mid + 1) b l ->
  sortedRange less a b l.
Proof.
  intros (H1 & H2 & H3) Ha Hb Hl Hr i j x y Hi Hij Hj Hx Hy.
  destruct (decide (j < mid)%nat) as [Hjm | Hjm].
  { apply (Hl i j x y); (lia || assumption). }
  destruct (decide (mid < i)%nat) as [Him | Him].
  { apply (Hr i j x y); (lia || assumption). }
  destruct (decide (j = mid)) as [-> | Hjmid].
  { assert (y = p) by congruence. subst y.
    apply (less_asym less Hless). apply (H1 i x); [lia | exact Hx]. }
  pose proof (H3 j y ltac:(lia) Hy) as Hyp.
  destruct (decide (i = mid)) as [-> | Himid].
  { assert (x = p) by congruence. subst x. exact Hyp. }
  pose proof (H1 i x ltac:(lia) Hx) as Hxp.
  destruct (less y x) eqn:Hyx; [| reflexivity].
  rewrite (swo_trans less Hless _ _ _ Hyx Hxp) in Hyp. discriminate Hyp.
Qed.

(** After [partitionEqual_func]: the elements equal to the pivot are in
    place, and what follows them is above them. *)
Lemma splitEqual_aboveLeft l p a mid b :
  splitEqualBy less p a mid (b - 1) l -> aboveLeft less a b l ->
  (a <= mid)%nat ->
  aboveLeft less mid b l.
Proof.
  intros [H1 H2] Habove Hamid i j x y Hi Hj1 Hj2 Hx Hy.
  destruct (decide (i < a)%nat) as [Hia | Hia].
  { apply (Habove i j x y); (lia || assumption). }
  pose proof (H1 i x ltac:(lia) Hx) as Hpx.
  pose proof (H2 j y ltac:(lia) Hy) as Hpy.
  destruct (less y x) eqn:Hyx; [| reflexivity].
  rewrite (swo_trans less Hless _ _ _ Hpy Hyx) in Hpx. discriminate Hpx.
Qed.

Lemma splitEqual_sorted l p q a mid b :
  splitEqualBy less p a mid (b - 1) l -> aboveLeft less a b l ->
  (1 <= a)%nat -> (a < mid)%nat -> (mid <= b)%nat ->
  l !! (a - 1)%nat = Some q -> less q p = false ->
  sortedRange less mid b l ->
  sortedRange less a b l.
Proof.
  intros [H1 H2] Habove Ha Hmid Hb Hq Hqp Hs i j x y Hi Hij Hj Hx Hy.
  destruct (decide (mid <= i)%nat) as [Him | Him].
  { apply (Hs i j x y); (lia || assumption). }
  pose proof (H1 i x ltac:(lia) Hx) as Hpx.
  destruct (decide (mid <= j)%nat) as [Hjm | Hjm].
  { pose proof (H2 j y ltac:(lia) Hy) as Hpy.
    destruct (less y x) eqn:Hyx; [| reflexivity].
    rewrite (swo_trans less Hless _ _ _ Hpy Hyx) in Hpx. discriminate Hpx. }
  pose proof (Habove (a - 1)%nat j q y ltac:(lia) ltac:(lia) ltac:(lia) Hq Hy)
    as Hyq.
  destruct (less y x) eqn:Hyx; [| reflexivity].
  destruct (swo_incomp less Hless y p x Hyx) as [Hyp | Hpx']; [| congruence].
  destruct (swo_incomp less Hless y q p Hyp); congruence.
Qed.

Local Abbreviation pdqsortPost := (pdqsortPost less).

Lemma pdqsort_func_spec fuel :
  forall l a b limit wasBalanced wasPartitioned,
    (a <= b)%nat -> (b <= length l)%nat -> (b - a < fuel)%nat ->
    aboveLeft less a b l ->
    pdqsortPost a b l
      (GoSort.pdqsort_func xorshift_Next less fuel l a b limit
                           wasBalanced wasPartitioned).
Proof.
  induction fuel as [|fuel IH];
    intros l a b limit wb wp Hab Hb Hfuel Habove; [lia |].
  cbn [GoSort.pdqsort_func]. unfold GoSort.maxInsertion.
  destruct (Nat.leb_spec (b - a) 12) as [Hshort | Hlong].
  { eexists. split; [reflexivity |]. split.
    - apply insertionSort_func_rangePerm; assumption.
    - apply insertionSort_func_sorted; assumption. }
  destruct (Nat.eqb_spec limit 0) as [Hlimit | Hlimit].
  { eexists. split; [reflexivity |].
    apply heapSort_func_spec; assumption. }
  (* breaking patterns *)
  assert (H1 : exists l1 limit1,
             (if negb wb
              then (GoSort.breakPatterns_func xorshift_Next l a b,
                    (limit - 1)%nat)
              else (l, limit)) = (l1, limit1)
             /\ rangePerm a b l l1).
  { destruct wb; simpl; eexists _, _; (split; [reflexivity |]);
      [apply rangePerm_refl | apply breakPatterns_func_rangePerm]. }
  destruct H1 as (l1 & limit1 & -> & Hrp1).
  (* choosing the pivot *)
  destruct (choosePivot_func_bounds less l1 a b ltac:(lia))
    as (pivot & hint & -> & Hp1 & Hp2).
  assert (H2 : exists l2 pivot2 hint2,
             match hint with
             | GoSort.decreasingHint =>
                 (GoSort.reverseRange_func l1 a b,
                  (b - 1 - (pivot - a))%nat, GoSort.increasingHint)
             | _ => (l1, pivot, hint)
             end = (l2, pivot2, hint2)
             /\ rangePerm a b l1 l2 /\ (a <= pivot2)%nat /\ (pivot2 < b)%nat).
  { destruct hint; eexists _, _, _; (split; [reflexivity |]);
      (split; [| lia]); try apply rangePerm_refl.
    apply reverseRange_func_rangePerm. lia. }
  destruct H2 as (l2 & pivot2 & hint2 & -> & Hrp2 & Hp3 & Hp4).
  assert (Hrp12 : rangePerm a b l l2) by (eapply rangePerm_trans; eassumption).
  (* the slice may be sorted already *)
  assert (H3 : exists l3 done,
             (if match hint2 with
                 | GoSort.increasingHint => wb && wp
                 | _ => false
                 end
              then GoSort.partialInsertionSort_func less l2 a b
              else (l2, false)) = (l3, done)
             /\ rangePerm a b l2 l3
             /\ (done = true -> sortedRange less a b l3)).
  { destruct (match hint2 with
              | GoSort.increasingHint => wb && wp
              | _ => false
              end).
    - apply partialInsertionSort_func_spec; [exact Hless | lia | |].
      + rewrite (rp_length _ _ _ _ Hrp12). exact Hb.
      + eapply aboveLeft_rangePerm; eassumption.
    - exists l2, false. split; [reflexivity |].
      split; [apply rangePerm_refl | discriminate]. }
  destruct H3 as (l3 & done & -> & Hrp3 & Hdone).
  assert (Hrp : rangePerm a b l l3) by (eapply rangePerm_trans; eassumption).
  assert (Hlen3 : length l3 = length l) by exact (rp_length _ _ _ _ Hrp).
  assert (Habove3 : aboveLeft less a b l3)
    by (eapply aboveLeft_rangePerm; eassumption).
  destruct done.
  { exists l3. split; [reflexivity |]. split; [exact Hrp | auto]. }
  destruct (lookup_lt_is_Some_2 l3 pivot2 ltac:(lia)) as [p Hp].
  destruct ((0 <? a)%nat && negb (GoSort.Less less l3 (a - 1) pivot2))
    eqn:Hdup.
  - (* many elements equal to the one before the range *)
    apply andb_true_iff in Hdup as [Ha0 HL].
    apply Nat.ltb_lt in Ha0. apply negb_true_iff in HL.
    destruct (lookup_lt_is_Some_2 l3 (a - 1) ltac:(lia)) as [q Hq].
    rewrite (Less_lookup less l3 _ _ q p Hq Hp) in HL.
    destruct (partitionEqual_func_spec less l3 a b pivot2 p
                (swo_irrefl less Hless p) Hp3 Hp4 ltac:(lia) Hp)
      as (l4 & mid & -> & Hrp4 & Hm1 & Hm2 & Hsplit).
    assert (Hrp04 : rangePerm a b l l4)
      by (eapply rangePerm_trans; eassumption).
    assert (Habove4 : aboveLeft less a b l4)
      by (eapply aboveLeft_rangePerm; eassumption).
    destruct (IH l4 mid b limit1 wb wp ltac:(lia)) as (l5 & Heq & Hrp5 & Hs5).
    { rewrite (rp_length _ _ _ _ Hrp04). exact Hb. }
    { lia. }
    { apply (splitEqual_aboveLeft l4 p a mid b); [assumption | assumption | lia]. }
    rewrite Heq. exists l5. split; [reflexivity |].
    assert (Hrp05 : rangePerm a b l l5).
    { eapply rangePerm_trans; [exact Hrp04 |].
      eapply rangePerm_weaken; [| | exact Hrp5]; lia. }
    split; [exact Hrp05 |].
    apply (splitEqual_sorted l5 p q a mid b); try assumption; try lia.
    + destruct Hsplit as [Hs1 Hs2]. split.
      * intros k x Hk Hx. rewrite (rp_outside _ _ _ _ Hrp5) in Hx by lia.
        apply (Hs1 k x); assumption.
      * intros k x Hk Hx.
        destruct (rangePerm_elem _ _ _ _ k x Hrp5 ltac:(lia) Hx)
          as (k' & Hk' & Hx').
        apply (Hs2 k' x); [lia | assumption].
    + eapply aboveLeft_rangePerm; eassumption.
    + rewrite (rp_outside _ _ _ _ Hrp5) by lia.
      rewrite (rp_outside _ _ _ _ Hrp4) by lia. exact Hq.
  - (* partitioning around the pivot *)
    destruct (partition_func_spec less l3 a b pivot2 p Hp3 Hp4 ltac:(lia) Hp)
      as (l4 & mid & alreadyPartitioned & -> & Hrp4 & Hm1 & Hm2 & Hpart).
    assert (Hrp04 : rangePerm a b l l4)
      by (eapply rangePerm_trans; eassumption).
    assert (Hlen4 : length l4 = length l) by exact (rp_length _ _ _ _ Hrp04).
    assert (Habove4 : aboveLeft less a b l4)
      by (eapply aboveLeft_rangePerm; eassumption).
    destruct (Nat.ltb_spec (mid - a) (b - mid)) as [Hside | Hside].
    + destruct (IH l4 a mid limit1 true true ltac:(lia) ltac:(lia) ltac:(lia))
        as (l5 & Heq5 & Hrp5 & Hs5).
      { apply (aboveLeft_weaken less l4 a b); [lia | assumption]. }
      rewrite Heq5.
      assert (Hpart5 : partitioned less p a mid b l5)
        by (eapply partitioned_rangePerm_left; eassumption).
      assert (Hrp05 : rangePerm a b l l5).
      { eapply rangePerm_trans; [exact Hrp04 |].
        eapply rangePerm_weaken; [| | exact Hrp5]; lia. }
      destruct (IH l5 (mid + 1)%nat b limit1
                   ((b - a) / 8 <=? mid - a)%nat alreadyPartitioned
                   ltac:(lia)) as (l6 & Heq6 & Hrp6 & Hs6).
      { rewrite (rp_length _ _ _ _ Hrp05). exact Hb. }
      { lia. }
      { apply (partitioned_aboveLeft l5 p a mid b); try assumption.
        eapply aboveLeft_rangePerm; eassumption. }
      rewrite Heq6. exists l6. split; [reflexivity |].
      split.
      { eapply rangePerm_trans; [exact Hrp05 |].
        eapply rangePerm_weaken; [| | exact Hrp6]; lia. }
      apply (partitioned_sorted l6 p a mid b); try assumption.
      * eapply partitioned_rangePerm_right; eassumption.
      * eapply (sortedRange_rangePerm_outside l5 l6); [exact Hrp6 | lia |].
        exact Hs5.
    + destruct (IH l4 (mid + 1)%nat b limit1 true true ltac:(lia) ltac:(lia)
                   ltac:(lia)) as (l5 & Heq5 & Hrp5 & Hs5).
      { apply (partitioned_aboveLeft l4 p a mid b); assumption. }
      rewrite Heq5.
      assert (Hpart5 : partitioned less p a mid b l5)
        by (eapply partitioned_rangePerm_right; eassumption).
      assert (Hrp05 : rangePerm a b l l5).
      { eapply rangePerm_trans; [exact Hrp04 |].
        eapply rangePerm_weaken; [| | exact Hrp5]; lia. }
      destruct (IH l5 a mid limit1
                   ((b - a) / 8 <=? b - mid)%nat alreadyPartitioned
                   ltac:(lia)) as (l6 & Heq6 & Hrp6 & Hs6).
      { rewrite (rp_length _ _ _ _ Hrp05). lia. }
      { lia. }
      { apply (aboveLeft_weaken less l5 a b); [lia |].
        eapply aboveLeft_rangePerm; eassumption. }
      rewrite Heq6. exists l6. split; [reflexivity |].
      split.
      { eapply rangePerm_trans; [exact Hrp05 |].
        eapply rangePerm_weaken; [| | exact Hrp6]; lia. }
      apply (partitioned_sorted l6 p a mid b); try assumption.
      * eapply partitioned_rangePerm_left; eassumption.
      * eapply (sortedRange_rangePerm_outside l5 l6); [exact Hrp6 | lia |].
        exact Hs5.
Qed.

(** [sort.Slice] returns, and returns its argument sorted. *)
Theorem Slice_spec l :
  exists l',
    GoSort.Slice xorshift_Next less l = Some l'
    /\ l' ≡ₚ l /\ sortedBy less l'.
Proof.
  unfold GoSort.Slice.
  destruct (pdqsort_func_spec (S (length l)) l 0 (length l)
              (GoSort.bits_Len (length l)) true true
              ltac:(lia) ltac:(lia) ltac:(lia))
    as (l' & Heq & Hrp & Hs).
  { intros i j x y Hi. lia. }
  exists l'. split; [exact Heq |]. split; [exact (rp_perm _ _ _ _ Hrp) |].
  apply sortedRange_whole. rewrite (rp_length _ _ _ _ Hrp). exact Hs.
Qed.

End Pdqsort.

(** ** The orders [ApplySort] sorts by *)

Lemma StrictWeakOrder_flip {A : Type} (less : A -> A -> bool) :
  StrictWeakOrder less -> StrictWeakOrder (fun x y => less y x).
Proof.
  intros [Hirr Htrans Hinc]. constructor.
  - exact Hirr.
  - intros x y z Hxy Hyz. exact (Htrans z y x Hyz Hxy).
  - intros x y z Hxz. destruct (Hinc z y x Hxz); [right | left]; assumption.
Qed.

Lemma StrictWeakOrder_key {A K : Type} (lt : K -> K -> bool) (key : A -> K) :
  StrictWeakOrder lt -> StrictWeakOrder (fun x y => lt (key x) (key y)).
Proof.
  intros [Hirr Htrans Hinc]. constructor.
  - intros x. apply Hirr.
  - intros x y z. apply Htrans.
  - intros x y z. apply Hinc.
Qed.

Lemma StrictWeakOrder_ext {A : Type} (less less' : A -> A -> bool) :
  (forall x y, less x y = less' x y) ->
  StrictWeakOrder less -> StrictWeakOrder less'.
Proof.
  intros Hext [Hirr Htrans Hinc]. constructor.
  - intros x. rewrite <- Hext. apply Hirr.
  - intros x y z. rewrite <- !Hext. apply Htrans.
  - intros x y z. rewrite <- !Hext. apply Hinc.
Qed.

Lemma Z_ltb_StrictWeakOrder : StrictWeakOrder Z.ltb.
Proof.
  constructor.
  - intros x. apply Z.ltb_irrefl.
  - intros x y z. rewrite !Z.ltb_lt. lia.
  - intros x y z. rewrite !Z.ltb_lt. lia.
Qed.

Lemma stringLess_lt (a b : string) :
  stringLess a b = true <-> OrderedTypeEx.String_as_OT.lt a b.
Proof.
  unfold stringLess, GoStrings.Compare.
  rewrite <- OrderedTypeEx.String_as_OT.cmp_lt.
  unfold OrderedTypeEx.String_as_OT.cmp.
  destruct (String.compare a b); simpl; split; intros H;
    (reflexivity || discriminate H).
Qed.

Lemma Compare_pos (a b : string) :
  (0 <? GoStrings.Compare a b) = stringLess b a.
Proof.
  unfold stringLess, GoStrings.Compare.
  rewrite (String.compare_antisym b a).
  destruct (String.compare a b); reflexivity.
Qed.

Lemma string_trichotomy (a b : string) :
  stringLess a b = true \/ a = b \/ stringLess b a = true.
Proof.
  unfold stringLess, GoStrings.Compare.
  rewrite (String.compare_antisym b a).
  destruct (String.compare a b) eqn:Hc; simpl; auto.
  right. left. apply String.compare_eq_iff. exact Hc.
Qed.

Lemma stringLess_StrictWeakOrder : StrictWeakOrder stringLess.
Proof.
  assert (Hirr : forall x, stringLess x x = false).
  { intros x. destruct (stringLess x x) eqn:H; [| reflexivity].
    apply stringLess_lt in H.
    exfalso. exact (OrderedTypeEx.String_as_OT.lt_not_eq _ _ H eq_refl). }
  assert (Htrans : forall x y z, stringLess x y = true ->
                                 stringLess y z = true ->
                                 stringLess x z = true).
  { intros x y z Hxy Hyz. apply stringLess_lt in Hxy, Hyz.
    apply stringLess_lt.
    exact (OrderedTypeEx.String_as_OT.lt_trans _ _ _ Hxy Hyz). }
  constructor; [exact Hirr | exact Htrans |].
  intros x y z Hxz.
  destruct (string_trichotomy x y) as [H | [-> | H]]; auto.
  right. exact (Htrans _ _ _ H Hxz).
Qed.

Lemma lessFor_StrictWeakOrder (sortBy : string) (ascending : bool) :
  StrictWeakOrder (lessFor sortBy ascending).
Proof.
  assert (Htime : forall asc, StrictWeakOrder (lessByTime asc)).
  { intros [|]; unfold lessByTime, Before, After.
    - exact (StrictWeakOrder_key Z.ltb DeliveredAt Z_ltb_StrictWeakOrder).
    - exact (StrictWeakOrder_flip _
               (StrictWeakOrder_key Z.ltb DeliveredAt Z_ltb_StrictWeakOrder)). }
  assert (Hcode : forall asc, StrictWeakOrder (lessByStatusCode asc)).
  { intros [|]; unfold lessByStatusCode.
    - exact (StrictWeakOrder_key Z.ltb StatusCode Z_ltb_StrictWeakOrder).
    - exact (StrictWeakOrder_flip _
               (StrictWeakOrder_key Z.ltb StatusCode Z_ltb_StrictWeakOrder)). }
  assert (Hstr : forall (key : Delivery -> string) asc,
             StrictWeakOrder
               (fun di dj : Delivery =>
                  let cmp := GoStrings.Compare (key di) (key dj) in
                  if asc : bool then cmp <? 0 else 0 <? cmp)).
  { intros key [|]; cbv zeta.
    - exact (StrictWeakOrder_key stringLess key stringLess_StrictWeakOrder).
    - eapply StrictWeakOrder_ext;
        [| exact (StrictWeakOrder_flip _
                    (StrictWeakOrder_key stringLess key
                                         stringLess_StrictWeakOrder))].
      intros x y. simpl. symmetry. apply Compare_pos. }
  unfold lessFor.
  destruct (String.eqb sortBy "repository"); [apply (Hstr Repository) |].
  destruct (String.eqb sortBy "code"); [apply Hcode |].
  destruct (String.eqb sortBy "event"); [apply (Hstr Event) |].
  destruct (String.eqb sortBy "timestamp"); apply Htime.
Qed.

Lemma ApplySort_Slice (next : Z -> Z) (deliveries : list Delivery)
  (sortBy : string) (ascending : bool) :
  ApplySort next deliveries sortBy ascending
  = GoSort.Slice next (lessFor sortBy ascending) deliveries.
Proof.
  unfold ApplySort, lessFor, SortDeliveriesByRepository,
    SortDeliveriesByStatusCode, SortDeliveriesByEvent, SortDeliveriesByTime.
  destruct (String.eqb sortBy "repository"); [reflexivity |].
  destruct (String.eqb sortBy "code"); [reflexivity |].
  destruct (String.eqb sortBy "event"); [reflexivity |].
  destruct (String.eqb sortBy "timestamp"); reflexivity.
Qed.

(** [ApplySort] returns, and what it returns is the deliveries it was
    given, in the order of the field and the direction. *)
Lemma ApplySort_spec (next : Z -> Z) (deliveries : list Delivery)
  (sortBy : string) (ascending : bool) :
  exists sorted,
    ApplySort next deliveries sortBy ascending = Some sorted
    /\ sorted ≡ₚ deliveries
    /\ sortedBy (lessFor sortBy ascending) sorted.
Proof.
  rewrite ApplySort_Slice. apply Slice_spec. apply lessFor_StrictWeakOrder.
Qed.

(** ** Stability and idempotence of the sort *)

(** C1, as stated, fails: sorted by status code, the twelve deliveries
    with status 200 do not keep their order. *)
Lemma sort_reorders_equal_keys :
  (forall next : Z -> Z,
      ApplySort next unstableInput "code" true = Some unstableOutput)
  /\ map ID (List.filter (fun d => StatusCode d =? 200) unstableInput)
     = [1; 2; 3; 4; 5; 6; 7; 8; 9; 10; 11; 12]
  /\ map ID (List.filter (fun d => StatusCode d =? 200) unstableOutput)
     = [7; 3; 4; 5; 6; 1; 8; 9; 10; 11; 12; 2].
Proof.
  split; [| split].
  - intros next. vm_compute. reflexivity.
  - vm_compute. reflexivity.
  - vm_compute. reflexivity.
Qed.

(** C1, amended.  For every list of deliveries, every sort field and
    both directions, [ApplySort] returns the deliveries in the order of
    the field and the direction; sorting that result again, or any list
    already in that order, gives the identical sequence; and deliveries
    with equal keys keep their relative order as long as the list has at
    most 12 deliveries. *)
Theorem sort_idempotent_and_stable_up_to_12
  (next : Z -> Z) (deliveries : list Delivery) (sortBy : string)
  (ascending : bool) :
  exists sorted,
    ApplySort next deliveries sortBy ascending = Some sorted
    /\ sorted ≡ₚ deliveries
    /\ sortedBy (lessFor sortBy ascending) sorted
    /\ ApplySort next sorted sortBy ascending = Some sorted
    /\ (sortedBy (lessFor sortBy ascending) deliveries -> sorted = deliveries)
    /\ ((length deliveries <= 12)%nat ->
        forall sameKey : Delivery -> bool,
          (forall x y, sameKey x = true -> sameKey y = true ->
                       lessFor sortBy ascending x y = false) ->
          List.filter sameKey sorted = List.filter sameKey deliveries).
Proof.
  destruct (ApplySort_spec next deliveries sortBy ascending)
    as (sorted & Heq & Hperm & Hsorted).
  exists sorted. split; [exact Heq |]. split; [exact Hperm |].
  split; [exact Hsorted |].
  split; [| split].
  - rewrite ApplySort_Slice. apply Slice_sorted. exact Hsorted.
  - intros Hs. rewrite ApplySort_Slice, (Slice_sorted _ _ _ Hs) in Heq.
    congruence.
  - intros Hlen sameKey Hkey.
    rewrite ApplySort_Slice, Slice_short in Heq by exact Hlen.
    injection Heq as <-. apply isort_stable. exact Hkey.
Qed.

Lemma sort_idempotent_and_stable_up_to_12_witness :
  ((length fiveDeliveries <= 12)%nat
   /\ (forall x y, hasCode 200 x = true -> hasCode 200 y = true ->
                   lessFor "code" true x y = false))
  /\ exists sorted,
      ApplySort (fun r => r) fiveDeliveries "code" true = Some sorted
      /\ sortedBy (lessFor "code" true) sorted
      /\ ApplySort (fun r => r) sorted "code" true = Some sorted
      /\ map ID (List.filter (hasCode 200) sorted) = [1; 3; 5].
Proof.
  assert (Hlen : (length fiveDeliveries <= 12)%nat) by (simpl; lia).
  assert (Hkey : forall x y, hasCode 200 x = true -> hasCode 200 y = true ->
                             lessFor "code" true x y = false).
  { intros x y Hx Hy. unfold hasCode in Hx, Hy.
    apply Z.eqb_eq in Hx. apply Z.eqb_eq in Hy.
    change (lessFor "code" true x y) with (StatusCode x <? StatusCode y).
    apply Z.ltb_ge. lia. }
  split; [split; assumption |].
  destruct (sort_idempotent_and_stable_up_to_12
              (fun r => r) fiveDeliveries "code" true)
    as (sorted & Heq & _ & Hsorted & Hagain & _ & Hstable).
  exists sorted. split; [exact Heq |]. split; [exact Hsorted |].
  split; [exact Hagain |].
  rewrite (Hstable Hlen (hasCode 200) Hkey). reflexivity.
Defined.

(** ** The sentinel status code *)

Lemma SortDeliveriesByStatusCode_spec (next : Z -> Z)
  (deliveries : list Delivery) (ascending : bool) :
  exists sorted,
    SortDeliveriesByStatusCode next deliveries ascending = Some sorted
    /\ sorted ≡ₚ deliveries
    /\ sortedBy (lessByStatusCode ascending) sorted.
Proof. exact (ApplySort_spec next deliveries "code" ascending). Qed.

Lemma Slice_pair {A : Type} (next : Z -> Z) (less : A -> A -> bool) (x y : A) :
  GoSort.Slice next less [x; y] = Some (if less y x then [y; x] else [x; y]).
Proof.
  rewrite Slice_short by (simpl; lia). unfold isort. simpl.
  destruct (less y x); reflexivity.
Qed.

(** C4. Under the sort by status code, a delivery with code 0 and one
    with a positive code come out, whatever list they are sorted in,
    with the code-0 delivery first in ascending order and last in
    descending order; so do the two of them sorted alone. *)
Theorem sentinel_code_sorts_as_zero
  (next : Z -> Z) (deliveries : list Delivery) (d0 dp : Delivery)
  (Hzero : StatusCode d0 = 0) (Hpositive : 0 < StatusCode dp) :
  (exists sorted,
      SortDeliveriesByStatusCode next deliveries true = Some sorted
      /\ forall i j, sorted !! i = Some d0 -> sorted !! j = Some dp ->
                     (i < j)%nat)
  /\ (exists sorted,
        SortDeliveriesByStatusCode next deliveries false = Some sorted
        /\ forall i j, sorted !! i = Some d0 -> sorted !! j = Some dp ->
                       (j < i)%nat)
  /\ SortDeliveriesByStatusCode next [d0; dp] true = Some [d0; dp]
  /\ SortDeliveriesByStatusCode next [dp; d0] true = Some [d0; dp]
  /\ SortDeliveriesByStatusCode next [d0; dp] false = Some [dp; d0]
  /\ SortDeliveriesByStatusCode next [dp; d0] false = Some [dp; d0].
Proof.
  assert (Hlt : (StatusCode d0 <? StatusCode dp) = true)
    by (apply Z.ltb_lt; lia).
  assert (Hge : (StatusCode dp <? StatusCode d0) = false)
    by (apply Z.ltb_ge; lia).
  split; [| split].
  - destruct (SortDeliveriesByStatusCode_spec next deliveries true)
      as (sorted & Heq & _ & Hs).
    exists sorted. split; [exact Heq |]. intros i j Hi Hj.
    destruct (Nat.lt_trichotomy i j) as [H | [-> | H]]; [exact H | |].
    + assert (d0 = dp) by congruence. subst dp. lia.
    + pose proof (Hs j i dp d0 H Hj Hi) as Hno.
      unfold lessByStatusCode in Hno. congruence.
  - destruct (SortDeliveriesByStatusCode_spec next deliveries false)
      as (sorted & Heq & _ & Hs).
    exists sorted. split; [exact Heq |]. intros i j Hi Hj.
    destruct (Nat.lt_trichotomy i j) as [H | [-> | H]]; [| | exact H].
    + pose proof (Hs i j d0 dp H Hi Hj) as Hno.
      unfold lessByStatusCode in Hno. congruence.
    + assert (d0 = dp) by congruence. subst dp. lia.
  - unfold SortDeliveriesByStatusCode. rewrite !Slice_pair.
    unfold lessByStatusCode. rewrite Hlt, Hge. repeat split.
Qed.

Lemma sentinel_code_sorts_as_zero_witness :
  (StatusCode (sampleDelivery 2 "a/x" 20 0 "push") = 0
   /\ 0 < StatusCode (sampleDelivery 1 "a/x" 10 200 "push"))
  /\ SortDeliveriesByStatusCode
       (fun r => r)
       [sampleDelivery 1 "a/x" 10 200 "push";
        sampleDelivery 2 "a/x" 20 0 "push"] true
     = Some [sampleDelivery 2 "a/x" 20 0 "push";
             sampleDelivery 1 "a/x" 10 200 "push"].
Proof.
  assert (Hzero : StatusCode (sampleDelivery 2 "a/x" 20 0 "push") = 0)
    by reflexivity.
  assert (Hpositive : 0 < StatusCode (sampleDelivery 1 "a/x" 10 200 "push"))
    by (simpl; lia).
  split; [split; assumption |].
  exact (proj1 (proj2 (proj2 (proj2
           (sentinel_code_sorts_as_zero (fun r => r) [] _ _ Hzero Hpositive))))).
Defined.

(** ** The per-repository limit *)

Lemma filter_Permutation {A : Type} (p : A -> bool) (l l' : list A) :
  l ≡ₚ l' -> List.filter p l ≡ₚ List.filter p l'.
Proof.
  induction 1 as [|x l l' _ IH|x y l|l l' l'' _ IH1 _ IH2]; simpl.
  - reflexivity.
  - destruct (p x); [constructor |]; exact IH.
  - destruct (p x), (p y); try reflexivity. apply Permutation_swap.
  - etransitivity; eassumption.
Qed.

Lemma concat_map_Permutation {A B : Type} (g : A -> list B) (l l' : list A) :
  l ≡ₚ l' -> concat (map g l) ≡ₚ concat (map g l').
Proof.
  induction 1 as [|x l l' _ IH|x y l|l l' l'' _ IH1 _ IH2]; simpl.
  - reflexivity.
  - rewrite IH. reflexivity.
  - rewrite !app_assoc. apply Permutation_app_tail. apply Permutation_app_comm.
  - etransitivity; eassumption.
Qed.

Lemma fold_left_app_concat {A B : Type} (g : A -> list B) (l : list A)
  (acc : list B) :
  fold_left (fun result kv => result ++ g kv) l acc = acc ++ concat (map g l).
Proof.
  revert acc. induction l as [|x l IH]; intros acc; simpl.
  - rewrite app_nil_r. reflexivity.
  - rewrite IH, <- app_assoc. reflexivity.
Qed.

Lemma groupByRepository_fold (deliveries : list Delivery)
  (m : gmap string (list Delivery)) (repo : string) :
  default [] (fold_left Cmd.addToGroup deliveries m !! repo)
  = default [] (m !! repo) ++ List.filter (inRepo repo) deliveries.
Proof.
  revert m. induction deliveries as [|d ds IH]; intros m; simpl.
  - rewrite app_nil_r. reflexivity.
  - rewrite IH. unfold Cmd.addToGroup, inRepo at 2.
    destruct (String.eqb_spec (Repository d) repo) as [-> | Hne].
    + rewrite lookup_insert_eq. simpl. rewrite <- app_assoc. reflexivity.
    + rewrite lookup_insert_ne by exact Hne. reflexivity.
Qed.

(** Each group holds the deliveries of its repository, in their order;
    a repository without a group has no delivery. *)
Lemma groupByRepository_lookup (deliveries : list Delivery) (repo : string) :
  default [] (Cmd.groupByRepository deliveries !! repo)
  = List.filter (inRepo repo) deliveries.
Proof.
  unfold Cmd.groupByRepository. rewrite groupByRepository_fold.
  rewrite lookup_empty. reflexivity.
Qed.

Lemma headOfGroup_take (limit : Z) (group : list Delivery) :
  0 < limit -> Cmd.headOfGroup limit group = take (Z.to_nat limit) group.
Proof.
  intros Hpos. unfold Cmd.headOfGroup.
  destruct (Z.ltb_spec (Z.of_nat (length group)) limit) as [Hlt | Hge];
    [| reflexivity].
  rewrite Nat2Z.id. rewrite firstn_all. symmetry. apply take_ge. lia.
Qed.

Lemma filter_all {A : Type} (p : A -> bool) (l : list A) :
  (forall x, x ∈ l -> p x = true) -> List.filter p l = l.
Proof.
  induction l as [|x l IH]; intros H; simpl; [reflexivity |].
  rewrite (H x) by (apply elem_of_cons; left; reflexivity).
  rewrite IH; [reflexivity |].
  intros y Hy. apply H. apply elem_of_cons. right. exact Hy.
Qed.

Lemma filter_none {A : Type} (p : A -> bool) (l : list A) :
  (forall x, x ∈ l -> p x = false) -> List.filter p l = [].
Proof.
  induction l as [|x l IH]; intros H; simpl; [reflexivity |].
  rewrite (H x) by (apply elem_of_cons; left; reflexivity).
  apply IH. intros y Hy. apply H. apply elem_of_cons. right. exact Hy.
Qed.

Lemma elem_of_filter_bool {A : Type} (p : A -> bool) (l : list A) (x : A) :
  x ∈ List.filter p l <-> x ∈ l /\ p x = true.
Proof. rewrite !list_elem_of_In. apply filter_In. Qed.

(** The heads of the groups of the other repositories hold no delivery
    of [repo]. *)
Lemma filter_other_groups (deliveries : list Delivery) (limit : Z)
  (repo : string) (groups : list (string * list Delivery)) :
  (forall k group, (k, group) ∈ groups ->
                   k <> repo /\ group = List.filter (inRepo k) deliveries) ->
  List.filter (inRepo repo)
              (concat (map (fun kv => Cmd.headOfGroup limit (snd kv)) groups))
  = [].
Proof.
  intros Hgroups. apply filter_none. intros d Hd.
  apply list_elem_of_In, in_concat in Hd as (head & Hhead & Hd).
  apply in_map_iff in Hhead as ([k group] & <- & Hin).
  apply list_elem_of_In in Hd, Hin.
  destruct (Hgroups k group Hin) as [Hne ->].
  simpl in Hd. unfold Cmd.headOfGroup in Hd.
  apply elem_of_take in Hd as (i & Hd & _).
  apply list_elem_of_lookup_2 in Hd.
  apply elem_of_filter_bool in Hd as [_ Hd].
  unfold inRepo in *. apply String.eqb_eq in Hd. apply String.eqb_neq.
  congruence.
Qed.

Lemma take_filter_inRepo (repo : string) (n : nat) (deliveries : list Delivery) :
  List.filter (inRepo repo) (take n (List.filter (inRepo repo) deliveries))
  = take n (List.filter (inRepo repo) deliveries).
Proof.
  apply filter_all. intros d Hd.
  apply elem_of_take in Hd as (i & Hd & _).
  apply list_elem_of_lookup_2 in Hd.
  apply elem_of_filter_bool in Hd as [_ Hd]. exact Hd.
Qed.

(** Before the final sort, the deliveries of [repo] among the heads of
    the groups are the first [limit] deliveries of [repo]. *)
Lemma heads_of_groups (deliveries : list Delivery) (limit : Z)
  (repo : string) (order : list (string * list Delivery)) :
  0 < limit ->
  order ≡ₚ map_to_list (Cmd.groupByRepository deliveries) ->
  List.filter (inRepo repo)
              (concat (map (fun kv => Cmd.headOfGroup limit (snd kv)) order))
  ≡ₚ take (Z.to_nat limit) (List.filter (inRepo repo) deliveries).
Proof.
  intros Hpos Horder.
  set (m := Cmd.groupByRepository deliveries) in *.
  assert (Hgroup : forall k group,
             m !! k = Some group -> group = List.filter (inRepo k) deliveries).
  { intros k group Hk. rewrite <- groupByRepository_lookup. fold m.
    rewrite Hk. reflexivity. }
  rewrite (filter_Permutation _ _ _ (concat_map_Permutation _ _ _ Horder)).
  destruct (m !! repo) as [group|] eqn:Hrepo.
  - etransitivity.
    { apply filter_Permutation, concat_map_Permutation. symmetry.
      exact (map_to_list_delete m repo group Hrepo). }
    simpl. rewrite List.filter_app, (filter_other_groups deliveries).
    + rewrite app_nil_r, headOfGroup_take by exact Hpos.
      rewrite (Hgroup repo group Hrepo), take_filter_inRepo. reflexivity.
    + intros k g Hin. apply elem_of_map_to_list in Hin.
      apply lookup_delete_Some in Hin as [Hne Hk].
      split; [congruence | exact (Hgroup k g Hk)].
  - rewrite (filter_other_groups deliveries).
    + pose proof (groupByRepository_lookup deliveries repo) as H.
      fold m in H. rewrite Hrepo in H. simpl in H. rewrite <- H.
      rewrite take_nil. reflexivity.
    + intros k g Hin. apply elem_of_map_to_list in Hin.
      split; [congruence | exact (Hgroup k g Hin)].
Qed.

(** [applyHeadLimit] with a positive limit: whatever order the groups
    are visited in, the result holds of every repository its first
    [limit] deliveries, in the order of the sort. *)
Lemma applyHeadLimit_spec (next : Z -> Z)
  (rangeOrder : gmap string (list Delivery) -> list (string * list Delivery))
  (deliveries : list Delivery) (limit : Z) (sortField : string)
  (ascending : bool) :
  (forall m, rangeOrder m ≡ₚ map_to_list m) ->
  0 < limit ->
  exists result,
    Cmd.applyHeadLimit next rangeOrder deliveries limit sortField ascending
    = Some result
    /\ (forall repo,
          List.filter (inRepo repo) result
          ≡ₚ take (Z.to_nat limit) (List.filter (inRepo repo) deliveries))
    /\ sortedBy (lessFor sortField ascending) result.
Proof.
  intros Hrange Hlimit. unfold Cmd.applyHeadLimit.
  replace (limit <=? 0) with false by (symmetry; apply Z.leb_gt; lia).
  cbv zeta. rewrite (fold_left_app_concat
                       (fun kv => Cmd.headOfGroup limit (snd kv))).
  simpl.
  destruct (ApplySort_spec next
              (concat (map (fun kv => Cmd.headOfGroup limit (snd kv))
                           (rangeOrder (Cmd.groupByRepository deliveries))))
              sortField ascending)
    as (result & Heq & Hperm & Hs).
  exists result. split; [exact Heq |]. split; [| exact Hs].
  intros repo. rewrite (filter_Permutation _ _ _ Hperm).
  apply heads_of_groups; [exact Hlimit | apply Hrange].
Qed.

(** In [run], with [--head] positive: the deliveries handed to the
    output are, of every repository, the first [--head] of the sorted
    deliveries, in the order of the sort. *)
Lemma sortAndLimit_head (next : Z -> Z)
  (rangeOrder : gmap string (list Delivery) -> list (string * list Delivery))
  (cfg : Config.Config) (deliveries : list Delivery) :
  (forall m, rangeOrder m ≡ₚ map_to_list m) ->
  0 < Config.Head cfg ->
  exists sorted result,
    ApplySort next deliveries (fst (Config.GetSortConfig cfg))
              (snd (Config.GetSortConfig cfg)) = Some sorted
    /\ Cmd.sortAndLimit next rangeOrder cfg deliveries = Some result
    /\ (forall repo,
          List.filter (inRepo repo) result
          ≡ₚ take (Z.to_nat (Config.Head cfg))
                  (List.filter (inRepo repo) sorted))
    /\ sortedBy (lessFor (fst (Config.GetSortConfig cfg))
                         (snd (Config.GetSortConfig cfg))) result.
Proof.
  intros Hrange Hhead. unfold Cmd.sortAndLimit.
  destruct (Config.GetSortConfig cfg) as [sortField ascending]. simpl.
  destruct (ApplySort_spec next deliveries sortField ascending)
    as (sorted & Heq & _ & _).
  rewrite Heq.
  replace (0 <? Config.Head cfg) with true by (symmetry; apply Z.ltb_lt; lia).
  destruct (applyHeadLimit_spec next rangeOrder sorted (Config.Head cfg)
              sortField ascending Hrange Hhead)
    as (result & Hres & Hrepo & Hs).
  exists sorted, result. repeat split; assumption.
Qed.

(** C3. Given deliveries in the configured order and a limit [K > 0],
    and whatever order the groups are visited in, [applyHeadLimit]
    returns, for every repository, the first [K] deliveries of that
    repository in the given order, or all of them if there are fewer,
    that is [min K n] of its [n] deliveries, and it returns them in the
    configured order again. *)
Theorem head_limit_keeps_first_K_of_each_repository
  (next : Z -> Z)
  (rangeOrder : gmap string (list Delivery) -> list (string * list Delivery))
  (deliveries : list Delivery) (limit : Z) (sortField : string)
  (ascending : bool)
  (Hrange : forall m, rangeOrder m ≡ₚ map_to_list m)
  (Hsorted : sortedBy (lessFor sortField ascending) deliveries)
  (Hlimit : 0 < limit) :
  exists result,
    Cmd.applyHeadLimit next rangeOrder deliveries limit sortField ascending
    = Some result
    /\ (forall repo,
          List.filter (inRepo repo) result
          ≡ₚ take (Z.to_nat limit) (List.filter (inRepo repo) deliveries))
    /\ (forall repo,
          length (List.filter (inRepo repo) result)
          = Nat.min (Z.to_nat limit)
                    (length (List.filter (inRepo repo) deliveries)))
    /\ sortedBy (lessFor sortField ascending) result.
Proof.
  destruct (applyHeadLimit_spec next rangeOrder deliveries limit sortField
              ascending Hrange Hlimit)
    as (result & Heq & Hrepo & Hs).
  exists result. split; [exact Heq |].
  split; [exact Hrepo |]. split; [| exact Hs].
  intros repo. rewrite (Permutation_length (Hrepo repo)).
  rewrite length_take. reflexivity.
Qed.

Lemma head_limit_keeps_first_K_of_each_repository_witness :
  ((forall m : gmap string (list Delivery), map_to_list m ≡ₚ map_to_list m)
   /\ sortedBy (lessFor "timestamp" false) sevenDeliveries
   /\ 0 < 3)
  /\ exists result,
      Cmd.applyHeadLimit (fun r => r) map_to_list sevenDeliveries 3
                         "timestamp" false = Some result
      /\ (forall repo,
            List.filter (inRepo repo) result
            ≡ₚ take (Z.to_nat 3) (List.filter (inRepo repo) sevenDeliveries))
      /\ (forall repo,
            length (List.filter (inRepo repo) result)
            = Nat.min (Z.to_nat 3)
                      (length (List.filter (inRepo repo) sevenDeliveries)))
      /\ sortedBy (lessFor "timestamp" false) result.
Proof.
  assert (Hrange : forall m : gmap string (list Delivery),
             map_to_list m ≡ₚ map_to_list m) by reflexivity.
  assert (Hsorted : sortedBy (lessFor "timestamp" false) sevenDeliveries).
  { apply sortedBy_StronglySorted.
    repeat (constructor; [| repeat (constructor; try reflexivity)]).
    constructor. }
  assert (Hlimit : 0 < 3) by lia.
  split; [repeat split; assumption |].
  exact (head_limit_keeps_first_K_of_each_repository
           (fun r => r) map_to_list sevenDeliveries 3 "timestamp" false
           Hrange Hsorted Hlimit).
Defined.

Example head_limit_example :
  Cmd.applyHeadLimit (fun r => r) map_to_list sevenDeliveries 3
                     "timestamp" false
  = Some [sampleDelivery 7 "org/a" 70 200 "push";
          sampleDelivery 6 "org/b" 60 200 "push";
          sampleDelivery 5 "org/a" 50 500 "push";
          sampleDelivery 4 "org/a" 40 200 "issues";
          sampleDelivery 3 "org/b" 30 0 "push"].
Proof. vm_compute. reflexivity. Qed.

(** * Further properties of the code *)

(** ** [strings.Split] *)

Lemma Split_nonempty (s : string) (sep : ascii) : GoStrings.Split s sep <> [].
Proof.
  destruct s as [|c s]; simpl; [discriminate |].
  destruct (Ascii.eqb c sep); [discriminate |].
  destruct (GoStrings.Split s sep); discriminate.
Qed.

(** Joining the pieces with the separator gives the string back. *)
Lemma concat_Split (s : string) (sep : ascii) :
  String.concat (String sep "") (GoStrings.Split s sep) = s.
Proof.
  induction s as [|c s IH]; simpl; [reflexivity |].
  destruct (Ascii.eqb c sep) eqn:Hc.
  - apply Ascii.eqb_eq in Hc. subst c.
    pose proof (Split_nonempty s sep) as Hne.
    destruct (GoStrings.Split s sep) as [|p ps] eqn:Hs; [congruence |].
    change (String.concat (String sep "") ("" :: p :: ps))
      with (String sep (String.concat (String sep "") (p :: ps))).
    rewrite IH. reflexivity.
  - pose proof (Split_nonempty s sep) as Hne.
    destruct (GoStrings.Split s sep) as [|p ps] eqn:Hs; [congruence |].
    destruct ps as [|q ps]; simpl in IH |- *; rewrite <- IH; reflexivity.
Qed.

(** No piece holds the separator. *)
Lemma Split_pieces (s : string) (sep : ascii) :
  Forall (fun p => ~ hasByte sep p) (GoStrings.Split s sep).
Proof.
  induction s as [|c s IH]; simpl.
  - constructor; [| constructor]. intros [].
  - destruct (Ascii.eqb c sep) eqn:Hc.
    + constructor; [intros [] | exact IH].
    + apply Ascii.eqb_neq in Hc.
      destruct (GoStrings.Split s sep) as [|p ps].
      * constructor; [| constructor]. intros [H | []]. congruence.
      * inversion IH as [|? ? Hp Hps]; subst. constructor; [| exact Hps].
        intros [H | H]; [congruence | exact (Hp H)].
Qed.

Lemma Split_no_sep (p : string) (sep : ascii) :
  ~ hasByte sep p -> GoStrings.Split p sep = [p].
Proof.
  induction p as [|c p IH]; simpl; intros Hno; [reflexivity |].
  destruct (Ascii.eqb c sep) eqn:Hc.
  - apply Ascii.eqb_eq in Hc. exfalso. apply Hno. left. exact Hc.
  - rewrite IH; [reflexivity |]. intros H. apply Hno. right. exact H.
Qed.

Lemma Split_app_sep (p s : string) (sep : ascii) :
  ~ hasByte sep p ->
  GoStrings.Split (p +:+ String sep s) sep = p :: GoStrings.Split s sep.
Proof.
  induction p as [|c p IH]; simpl; intros Hno.
  - rewrite Ascii.eqb_refl. reflexivity.
  - destruct (Ascii.eqb c sep) eqn:Hc.
    + apply Ascii.eqb_eq in Hc. exfalso. apply Hno. left. exact Hc.
    + rewrite IH; [reflexivity |]. intros H. apply Hno. right. exact H.
Qed.

(** Two pieces, neither empty: one separator with text on both sides. *)
Lemma Split_two (s : string) :
  (let parts := GoStrings.Split s "/"%char in
   negb (List.length parts =? 2)%nat
   || String.eqb (Config.at_index parts 0) ""
   || String.eqb (Config.at_index parts 1) "") = false
  <-> ownerAndName s.
Proof.
  cbv zeta. split.
  - intros H.
    apply orb_false_iff in H as [H Hname].
    apply orb_false_iff in H as [Hlen Howner].
    apply negb_false_iff, Nat.eqb_eq in Hlen.
    pose proof (concat_Split s "/"%char) as Hjoin.
    pose proof (Split_pieces s "/"%char) as Hpieces.
    destruct (GoStrings.Split s "/"%char) as [|owner [|name [|? ?]]];
      try discriminate Hlen.
    exists owner, name. simpl in Hjoin.
    unfold Config.at_index in Howner, Hname. simpl in Howner, Hname.
    apply String.eqb_neq in Howner. apply String.eqb_neq in Hname.
    split; [symmetry; exact Hjoin |].
    apply Forall_cons in Hpieces as [Ho Hrest].
    apply Forall_cons in Hrest as [Hn _].
    repeat split; assumption.
  - intros (owner & name & -> & Howner & Hname & Hno & Hnn).
    change (owner +:+ "/" +:+ name) with (owner +:+ String "/"%char name).
    rewrite (Split_app_sep owner name "/"%char Hno).
    rewrite (Split_no_sep name "/"%char Hnn).
    unfold Config.at_index. simpl.
    apply String.eqb_neq in Howner. apply String.eqb_neq in Hname.
    rewrite Howner, Hname. reflexivity.
Qed.

(** The [--sort] values that pass the three checks of [Validate]. *)
Lemma Split_sort (s : string) :
  s <> "" ->
  (let parts := GoStrings.Split s ":"%char in
   (2 <? List.length parts)%nat = false
   /\ Config.validField (Config.at_index parts 0) = true
   /\ (List.length parts =? 2)%nat
      && negb (String.eqb (Config.at_index parts 1) "asc")
      && negb (String.eqb (Config.at_index parts 1) "desc") = false)
  <-> fieldAndOrder s.
Proof.
  intros Hs. cbv zeta. split.
  - intros (Hlen & Hfield & Horder).
    apply Nat.ltb_ge in Hlen.
    pose proof (concat_Split s ":"%char) as Hjoin.
    pose proof (Split_nonempty s ":"%char) as Hne.
    destruct (GoStrings.Split s ":"%char) as [|field [|order [|? ?]]];
      [congruence | | | simpl in Hlen; lia].
    + simpl in Hjoin. subst s. exists field.
      split; [apply validField_spec; exact Hfield | left; reflexivity].
    + unfold Config.at_index in *. simpl in *.
      exists field. split; [apply validField_spec; exact Hfield |].
      destruct (String.eqb order "asc") eqn:Hasc.
      * apply String.eqb_eq in Hasc. subst order. right. left.
        symmetry. exact Hjoin.
      * destruct (String.eqb order "desc") eqn:Hdesc; [| discriminate].
        apply String.eqb_eq in Hdesc. subst order. right. right.
        symmetry. exact Hjoin.
  - intros (field & Hfield & Hcases).
    destruct Hfield as [-> | [-> | [-> | ->]]];
      destruct Hcases as [-> | [-> | ->]];
      vm_compute; repeat split.
Qed.

Lemma Validate_None_iff (c : Config.Config) :
  Config.Validate c = None
  <-> String.eqb (Config.Org c) "" && String.eqb (Config.Repo c) "" = false
      /\ Config.nonempty (Config.Org c) && Config.nonempty (Config.Repo c)
         = false
      /\ Config.nonempty (Config.Repo c)
         && (let parts := GoStrings.Split (Config.Repo c) "/"%char in
             negb (List.length parts =? 2)%nat
             || String.eqb (Config.at_index parts 0) ""
             || String.eqb (Config.at_index parts 1) "") = false
      /\ match Config.Since c, Config.Until c with
         | Some s, Some u => After s u
         | _, _ => false
         end = false
      /\ (Config.Head c <? 0) = false
      /\ (Config.nonempty (Config.SortBy c) = true ->
          let parts := GoStrings.Split (Config.SortBy c) ":"%char in
          (2 <? List.length parts)%nat = false
          /\ Config.validField (Config.at_index parts 0) = true
          /\ (List.length parts =? 2)%nat
             && negb (String.eqb (Config.at_index parts 1) "asc")
             && negb (String.eqb (Config.at_index parts 1) "desc") = false).
Proof.
  unfold Config.Validate.
  repeat match goal with
         | |- (if ?b then Some _ else _) = None <-> _ =>
             destruct b eqn:?; [split; [discriminate | intuition discriminate] |]
         end.
  destruct (Config.nonempty (Config.SortBy c)) eqn:Hsort.
  - cbv zeta.
    destruct (2 <? _)%nat eqn:Hparts.
    { split; [discriminate |]. intros (_ & _ & _ & _ & _ & H).
      destruct (H eq_refl) as (H' & _). discriminate H'. }
    destruct (Config.validField _) eqn:Hfield; simpl.
    + destruct (_ && _ && _) eqn:Horder.
      * split; [discriminate |]. intros (_ & _ & _ & _ & _ & H).
        destruct (H eq_refl) as (_ & _ & H'). discriminate H'.
      * split; [| reflexivity]. intros _. do 5 (split; [reflexivity |]).
        intros _. repeat split.
    + split; [discriminate |]. intros (_ & _ & _ & _ & _ & H).
      destruct (H eq_refl) as (_ & H' & _). discriminate H'.
  - split; [| reflexivity]. intros _. do 5 (split; [reflexivity |]).
    intros H. discriminate H.
Qed.

(** X1.  [Validate] accepts exactly the well-formed configurations: one of
    [--org] and [--repo], the latter as OWNER/REPO; [--since] not after
    [--until]; [--head] not negative; [--sort] empty or a field with an
    optional [:asc] or [:desc]. *)
Theorem Validate_accepts_exactly_well_formed (c : Config.Config) :
  Config.Validate c = None <-> wellFormed c.
Proof.
  rewrite Validate_None_iff. unfold wellFormed.
  assert (Hsel :
    (String.eqb (Config.Org c) "" && String.eqb (Config.Repo c) "" = false
     /\ Config.nonempty (Config.Org c) && Config.nonempty (Config.Repo c)
         = false
     /\ Config.nonempty (Config.Repo c)
        && (let parts := GoStrings.Split (Config.Repo c) "/"%char in
            negb (List.length parts =? 2)%nat
            || String.eqb (Config.at_index parts 0) ""
            || String.eqb (Config.at_index parts 1) "") = false)
    <-> ((Config.Org c <> "" /\ Config.Repo c = "")
         \/ (Config.Org c = "" /\ ownerAndName (Config.Repo c)))).
  { unfold Config.nonempty.
    destruct (String.eqb_spec (Config.Org c) "") as [Horg | Horg];
      destruct (String.eqb_spec (Config.Repo c) "") as [Hrepo | Hrepo]; simpl.
    - split; [intros (H & _); discriminate |].
      intros [[H _] | [_ (o & n & H & Ho & _)]]; [congruence |].
      rewrite Hrepo in H. destruct o; [congruence | discriminate].
    - rewrite Split_two. split.
      + intros (_ & _ & H). right. split; assumption.
      + intros [[H _] | [_ H]]; [congruence |]. repeat split. exact H.
    - split; [intros _; left; split; assumption | intros _; repeat split].
    - split; [intros (_ & H & _); discriminate |].
      intros [[_ H] | [H _]]; congruence. }
  assert (Hdate :
    match Config.Since c, Config.Until c with
    | Some s, Some u => After s u
    | _, _ => false
    end = false
    <-> (forall since until,
            Config.Since c = Some since -> Config.Until c = Some until ->
            since <= until)).
  { destruct (Config.Since c) as [s|], (Config.Until c) as [u|];
      try (split; [intros _ ? ? ? ?; discriminate | reflexivity]).
    unfold After. rewrite Z.ltb_ge. split.
    - intros H ? ? [= <-] [= <-]. exact H.
    - intros H. apply H; reflexivity. }
  assert (Hsort :
    (Config.nonempty (Config.SortBy c) = true ->
     let parts := GoStrings.Split (Config.SortBy c) ":"%char in
     (2 <? List.length parts)%nat = false
     /\ Config.validField (Config.at_index parts 0) = true
     /\ (List.length parts =? 2)%nat
        && negb (String.eqb (Config.at_index parts 1) "asc")
        && negb (String.eqb (Config.at_index parts 1) "desc") = false)
    <-> (Config.SortBy c = "" \/ fieldAndOrder (Config.SortBy c))).
  { unfold Config.nonempty.
    destruct (String.eqb (Config.SortBy c) "") eqn:Hs; simpl.
    - apply String.eqb_eq in Hs. split; [intros _; left; exact Hs |].
      intros _ H. discriminate H.
    - apply String.eqb_neq in Hs. rewrite <- (Split_sort _ Hs). split.
      + intros H. right. apply H. reflexivity.
      + intros [H | H] _; [congruence | exact H]. }
  split.
  - intros (H1 & H2 & H3 & H4 & H5 & H6).
    split; [apply Hsel; repeat split; assumption |].
    split; [apply Hdate; exact H4 |].
    split; [apply Z.ltb_ge; exact H5 |]. apply Hsort. exact H6.
  - intros (Ha & Hb & Hc & Hd).
    apply Hsel in Ha as (H1 & H2 & H3).
    split; [exact H1 |]. split; [exact H2 |]. split; [exact H3 |].
    split; [apply Hdate; exact Hb |].
    split; [apply Z.ltb_ge; exact Hc |]. apply Hsort. exact Hd.
Qed.

Lemma Validate_accepts_exactly_well_formed_witness :
  Config.Validate sampleFilterConfig = None /\ wellFormed sampleFilterConfig.
Proof.
  assert (Hvalid : Config.Validate sampleFilterConfig = None) by reflexivity.
  split; [exact Hvalid |].
  exact (proj1 (Validate_accepts_exactly_well_formed sampleFilterConfig)
               Hvalid).
Defined.

(** ** The sort flag after validation *)

Lemma Validate_sort (c : Config.Config) :
  Config.Validate c = None ->
  Config.SortBy c = "" \/ fieldAndOrder (Config.SortBy c).
Proof.
  intros H. apply Validate_None_iff in H as (_ & _ & _ & _ & _ & H).
  destruct (String.eqb_spec (Config.SortBy c) "") as [Hs | Hs];
    [left; exact Hs | right].
  apply (Split_sort _ Hs). apply H. apply nonempty_true. exact Hs.
Qed.

(** X2.  The sort configuration of a validated configuration is what
    [--sort] says: its field, which [ApplySort] recognizes, and its order
    when one is written; [GetSortConfig] falls back to the timestamp only
    when [--sort] is absent. *)
Theorem validated_sort_flag_is_honoured (c : Config.Config)
  (Hvalid : Config.Validate c = None) :
  exists field ascending,
    Config.GetSortConfig c = (field, ascending)
    /\ recognizedField field
    /\ ((Config.SortBy c = "" /\ field = "timestamp" /\ ascending = false)
        \/ (Config.SortBy c = field
            /\ ascending
               = (String.eqb field "repository" || String.eqb field "event"))
        \/ (Config.SortBy c = field +:+ ":asc" /\ ascending = true)
        \/ (Config.SortBy c = field +:+ ":desc" /\ ascending = false)).
Proof.
  apply Validate_sort in Hvalid. unfold Config.GetSortConfig.
  destruct Hvalid as [Hs | (field & Hfield & Hs)].
  - rewrite Hs. exists "timestamp", false.
    split; [reflexivity |]. split; [right; left; reflexivity |].
    left. repeat split.
  - destruct Hfield as [-> | [-> | [-> | ->]]];
      destruct Hs as [Hs | [Hs | Hs]]; rewrite Hs;
      eexists _, _; (split; [vm_compute; reflexivity |]);
      (split; [unfold recognizedField; tauto |]).
    all: first [ right; left; split; reflexivity
               | right; right; left; split; reflexivity
               | right; right; right; split; reflexivity ].
Qed.

Lemma validated_sort_flag_is_honoured_witness :
  Config.Validate (sampleConfig false 0 "code:asc") = None
  /\ exists field ascending,
      Config.GetSortConfig (sampleConfig false 0 "code:asc")
      = (field, ascending)
      /\ recognizedField field.
Proof.
  assert (Hvalid : Config.Validate (sampleConfig false 0 "code:asc") = None)
    by reflexivity.
  split; [exact Hvalid |].
  destruct (validated_sort_flag_is_honoured _ Hvalid)
    as (field & ascending & Heq & Hfield & _).
  exists field, ascending. split; assumption.
Defined.

(** ** Date ranges *)

(** X3.  [--since] and [--until] on the same day select that day, from its
    first nanosecond to its last, and pass the check of [Validate] on the
    order of the two dates. *)
Theorem same_day_range_selects_the_day
  (time_Parse : string -> result Time) (day : string) (midnight : Time)
  (c : Config.Config)
  (Hday : day <> "") (Hparse : time_Parse day = Ok midnight) :
  exists since until,
    Config.ParseDateRange time_Parse day day = Ok (Some since, Some until)
    /\ (forall deliveredAt,
           Filter.InRange deliveredAt (Some since) (Some until) = true
           <-> midnight <= deliveredAt < midnight + 86400 * 1000000000)
    /\ (Config.Validate (Config.with_Since_Until c (Some since) (Some until))
        = None
        <-> Config.Validate (Config.with_Since_Until c None None) = None).
Proof.
  exists midnight, (Config.endOfDay midnight).
  split; [| split].
  - unfold Config.ParseDateRange.
    apply nonempty_true in Hday. rewrite Hday, Hparse. reflexivity.
  - intros deliveredAt. rewrite InRange_spec. unfold Config.endOfDay. split.
    + intros [Hlo Hhi]. specialize (Hlo _ eq_refl). specialize (Hhi _ eq_refl).
      lia.
    + intros H. split; intros b [= <-]; lia.
  - rewrite !Validate_None_iff. simpl.
    assert (Hafter : After midnight (Config.endOfDay midnight) = false)
      by (unfold After, Config.endOfDay; apply Z.ltb_ge; lia).
    rewrite Hafter. reflexivity.
Qed.

Lemma same_day_range_selects_the_day_witness :
  ("2026-01-15" <> ""
   /\ (fun _ : string => Ok 1768435200000000000) "2026-01-15"
      = Ok 1768435200000000000)
  /\ exists since until,
      Config.ParseDateRange (fun _ => Ok 1768435200000000000)
                            "2026-01-15" "2026-01-15"
      = Ok (Some since, Some until)
      /\ Filter.InRange 1768478400000000000 (Some since) (Some until) = true.
Proof.
  assert (Hday : "2026-01-15" <> "") by discriminate.
  assert (Hparse : (fun _ : string => Ok 1768435200000000000) "2026-01-15"
                   = Ok 1768435200000000000) by reflexivity.
  split; [split; assumption |].
  destruct (same_day_range_selects_the_day
              (fun _ => Ok 1768435200000000000) "2026-01-15"
              1768435200000000000 (sampleConfig false 0 "") Hday Hparse)
    as (since & until & Heq & Hin & _).
  exists since, until. split; [exact Heq |]. apply Hin. lia.
Defined.

(** ** Status classes *)

(** X4.  No status code is both failed and successful; the codes that are
    neither are the negative ones and 1 to 199.  [MatchesStatus] filters
    on the words [failed] and [successful] only: every other filter type
    lets every code through. *)
Theorem status_filters_partition (statusCode : Z) :
  Filter.IsFailed statusCode && Filter.IsSuccessful statusCode = false
  /\ (Filter.IsFailed statusCode = false
      /\ Filter.IsSuccessful statusCode = false
      <-> statusCode < 0 \/ 1 <= statusCode <= 199)
  /\ Filter.MatchesStatus statusCode "failed" = Filter.IsFailed statusCode
  /\ Filter.MatchesStatus statusCode "successful"
     = Filter.IsSuccessful statusCode
  /\ (forall filterType,
         filterType <> "failed" -> filterType <> "successful" ->
         Filter.MatchesStatus statusCode filterType = true).
Proof.
  unfold Filter.IsFailed, Filter.IsSuccessful.
  split; [| split; [| split; [| split]]].
  - destruct (Z.eqb_spec statusCode 0), (Z.leb_spec 400 statusCode),
      (Z.leb_spec 200 statusCode), (Z.ltb_spec statusCode 400);
      simpl; try reflexivity; lia.
  - rewrite orb_false_iff, andb_false_iff, Z.eqb_neq, !Z.leb_gt, Z.ltb_ge.
    lia.
  - reflexivity.
  - reflexivity.
  - intros filterType Hf Hs. unfold Filter.MatchesStatus.
    apply eqb_false_iff in Hf. apply eqb_false_iff in Hs.
    rewrite Hf, Hs. destruct (_ || _); reflexivity.
Qed.

(** ** [strings.Contains] and [strings.ToLower] *)

Lemma prefix_spec (p s : string) :
  String.prefix p s = true <-> exists post, s = p +:+ post.
Proof.
  revert s. induction p as [|c p IH]; intros s; simpl.
  - split; [intros _; exists s; reflexivity | destruct s; reflexivity].
  - destruct s as [|d s].
    + split; [discriminate | intros [post H]; discriminate].
    + simpl. destruct (Ascii.ascii_dec c d) as [-> | Hne].
      * rewrite IH. split; intros [post H]; exists post.
        -- rewrite H. reflexivity.
        -- injection H as H. exact H.
      * split; [discriminate |]. intros [post H]. injection H as H _.
        congruence.
Qed.

Lemma Contains_spec (s substr : string) :
  GoStrings.Contains s substr = true <-> occursIn substr s.
Proof.
  unfold occursIn. induction s as [|c s IH].
  - change (GoStrings.Contains "" substr)
      with (String.prefix substr "" || false).
    rewrite orb_false_r, prefix_spec. split.
    + intros [post H]. exists "", post. exact H.
    + intros (pre & post & H). destruct pre; simpl in H; [eauto |].
      discriminate.
  - change (GoStrings.Contains (String c s) substr)
      with (String.prefix substr (String c s) || GoStrings.Contains s substr).
    rewrite orb_true_iff, prefix_spec, IH. split.
    + intros [[post H] | (pre & post & H)].
      * exists "", post. exact H.
      * exists (String c pre), post. rewrite H. reflexivity.
    + intros (pre & post & H). destruct pre as [|d pre].
      * left. exists post. exact H.
      * right. exists pre, post. injection H as _ H. exact H.
Qed.

Lemma lower_byte_idemp (c : ascii) :
  GoStrings.lower_byte (GoStrings.lower_byte c) = GoStrings.lower_byte c.
Proof. destruct c as [[] [] [] [] [] [] [] []]; reflexivity. Qed.

Lemma lower_byte_ascii (c : ascii) :
  GoStrings.isASCII_byte (GoStrings.lower_byte c) = GoStrings.isASCII_byte c.
Proof. destruct c as [[] [] [] [] [] [] [] []]; reflexivity. Qed.

Lemma lower_bytes_idemp (s : string) :
  GoStrings.lower_bytes (GoStrings.lower_bytes s) = GoStrings.lower_bytes s.
Proof.
  induction s as [|c s IH]; simpl; [reflexivity |].
  rewrite lower_byte_idemp, IH. reflexivity.
Qed.

Lemma lower_bytes_ascii (s : string) :
  GoStrings.isASCII (GoStrings.lower_bytes s) = GoStrings.isASCII s.
Proof.
  induction s as [|c s IH]; simpl; [reflexivity |].
  rewrite lower_byte_ascii, IH. reflexivity.
Qed.

Lemma lower_bytes_eqb_empty (s : string) :
  String.eqb (GoStrings.lower_bytes s) "" = String.eqb s "".
Proof. destruct s; reflexivity. Qed.

(** X5.  On ASCII text, [MatchesPattern] is the search for the pattern in
    the URL with the letters of both in lower case: it only depends on the
    two strings up to the case of their letters.  The empty pattern occurs
    in every URL. *)
Theorem url_pattern_match_ignores_case
  (unicodeLower : string -> string) (url pattern : string)
  (Hurl : GoStrings.isASCII url = true)
  (Hpattern : GoStrings.isASCII pattern = true) :
  (Filter.MatchesPattern unicodeLower url pattern = true
   <-> occursIn (GoStrings.lower_bytes pattern) (GoStrings.lower_bytes url))
  /\ Filter.MatchesPattern unicodeLower (GoStrings.lower_bytes url)
                           (GoStrings.lower_bytes pattern)
     = Filter.MatchesPattern unicodeLower url pattern.
Proof.
  unfold Filter.MatchesPattern, GoStrings.ToLower.
  rewrite !lower_bytes_ascii, Hurl, Hpattern, !lower_bytes_idemp,
    lower_bytes_eqb_empty.
  split; [| reflexivity].
  destruct (String.eqb_spec pattern "") as [-> | Hne].
  - split; [| reflexivity]. intros _.
    exists "", (GoStrings.lower_bytes url). reflexivity.
  - apply Contains_spec.
Qed.

Lemma url_pattern_match_ignores_case_witness :
  (GoStrings.isASCII "https://Hooks.Slack.com/services/T1" = true
   /\ GoStrings.isASCII "SLACK.com" = true)
  /\ Filter.MatchesPattern (fun s => s) "https://Hooks.Slack.com/services/T1"
                           "SLACK.com" = true.
Proof.
  assert (Hurl : GoStrings.isASCII "https://Hooks.Slack.com/services/T1"
                 = true) by reflexivity.
  assert (Hpattern : GoStrings.isASCII "SLACK.com" = true) by reflexivity.
  split; [split; assumption |].
  apply (proj1 (url_pattern_match_ignores_case (fun s => s) _ _
                  Hurl Hpattern)).
  exists "https://hooks.", "/services/t1". reflexivity.
Defined.

(** ** The comparators of the sorts *)

(** X6.  Each comparison handed to [sort.Slice] is a strict weak order, in
    both directions: irreflexive, transitive, and with a transitive
    "neither is less"; this is what [sort.Slice] asks of it. *)
Theorem comparators_are_strict_weak_orders (ascending : bool) :
  StrictWeakOrder (lessByTime ascending)
  /\ StrictWeakOrder (lessByRepository ascending)
  /\ StrictWeakOrder (lessByStatusCode ascending)
  /\ StrictWeakOrder (lessByEvent ascending).
Proof.
  split; [| split; [| split]].
  - exact (lessFor_StrictWeakOrder "timestamp" ascending).
  - exact (lessFor_StrictWeakOrder "repository" ascending).
  - exact (lessFor_StrictWeakOrder "code" ascending).
  - exact (lessFor_StrictWeakOrder "event" ascending).
Qed.

Lemma sortedBy_ext {A : Type} (less less' : A -> A -> bool) (l : list A) :
  (forall x y, less x y = less' x y) -> sortedBy less l -> sortedBy less' l.
Proof.
  intros Hext Hs i j x y Hij Hi Hj. rewrite <- Hext.
  exact (Hs i j x y Hij Hi Hj).
Qed.

Lemma sortedBy_rev {A : Type} (less : A -> A -> bool) (l : list A) :
  sortedBy less (rev l) <-> sortedBy (fun x y => less y x) l.
Proof.
  rewrite (sortedBy_StronglySorted less), <- descending_rev.
  rewrite (sortedBy_StronglySorted (fun x y => less y x)).
  reflexivity.
Qed.

Lemma lessFor_flip (sortBy : string) (x y : Delivery) :
  recognizedField sortBy ->
  lessFor sortBy false x y = lessFor sortBy true y x.
Proof.
  intros [-> | [-> | [-> | ->]]]; unfold lessFor; simpl.
  - unfold lessByRepository. cbv zeta. rewrite Compare_pos. reflexivity.
  - reflexivity.
  - reflexivity.
  - unfold lessByEvent. cbv zeta. rewrite Compare_pos. reflexivity.
Qed.

(** X7.  For each of the four fields, descending is ascending read
    backwards: the two comparisons are each other's converse, a list is in
    descending order exactly when its reversal is in ascending order, and
    the ascending sort, reversed, is in descending order. *)
Theorem descending_is_ascending_reversed
  (next : Z -> Z) (sortBy : string) (deliveries : list Delivery)
  (Hfield : recognizedField sortBy) :
  (forall x y, lessFor sortBy false x y = lessFor sortBy true y x)
  /\ (sortedBy (lessFor sortBy false) deliveries
      <-> sortedBy (lessFor sortBy true) (rev deliveries))
  /\ exists sorted,
      ApplySort next deliveries sortBy true = Some sorted
      /\ sortedBy (lessFor sortBy false) (rev sorted).
Proof.
  assert (Hflip : forall x y,
             lessFor sortBy false x y = lessFor sortBy true y x)
    by (intros x y; apply lessFor_flip; exact Hfield).
  assert (Hrev : forall l,
             sortedBy (lessFor sortBy false) l
             <-> sortedBy (lessFor sortBy true) (rev l)).
  { intros l. rewrite sortedBy_rev. split; apply sortedBy_ext; intros x y.
    - apply Hflip.
    - symmetry. apply Hflip. }
  split; [exact Hflip |]. split; [apply Hrev |].
  destruct (ApplySort_spec next deliveries sortBy true)
    as (sorted & Heq & _ & Hs).
  exists sorted. split; [exact Heq |].
  apply Hrev. rewrite rev_involutive. exact Hs.
Qed.

Lemma descending_is_ascending_reversed_witness :
  recognizedField "code"
  /\ exists sorted,
      ApplySort (fun r => r) fiveDeliveries "code" true = Some sorted
      /\ sortedBy (lessFor "code" false) (rev sorted).
Proof.
  assert (Hfield : recognizedField "code")
    by (unfold recognizedField; tauto).
  split; [exact Hfield |].
  exact (proj2 (proj2 (descending_is_ascending_reversed
                         (fun r => r) "code" fiveDeliveries Hfield))).
Defined.

(** ** Listing deliveries *)


(** ** The pages of [ListOrgRepos] *)

Section ListOrgReposFacts.
Variable rest_org_repos : string -> Z -> Z -> response (list repo).
Variable org : string.

Lemma pagesFrom_S (page : Z) (n : nat) :
  pagesFrom rest_org_repos org page (S n)
  = pageOf rest_org_repos org page
    ++ pagesFrom rest_org_repos org (page + 1) n.
Proof.
  unfold pagesFrom. rewrite seqZ_cons by lia. simpl.
  replace (Z.pred (Z.of_nat (S n))) with (Z.of_nat n) by lia.
  replace (Z.succ page) with (page + 1) by lia. reflexivity.
Qed.

Lemma seqZ_from (page : Z) (n : nat) :
  seqZ page (Z.of_nat (S n)) = page :: seqZ (page + 1) (Z.of_nat n).
Proof.
  rewrite seqZ_cons by lia.
  replace (Z.pred (Z.of_nat (S n))) with (Z.of_nat n) by lia.
  replace (Z.succ page) with (page + 1) by lia. reflexivity.
Qed.

(** The rounds over full pages. *)
Lemma ListOrgRepos_loop_full (n fuel : nat) (page : Z) (repos : list repo)
  (requested : list Z) :
  (forall k, page <= k < page + Z.of_nat n ->
             fullPage rest_org_repos org k) ->
  ListOrgRepos_loop rest_org_repos (n + fuel) org repos page requested
  = ListOrgRepos_loop rest_org_repos fuel org
      (repos ++ pagesFrom rest_org_repos org page n)
      (page + Z.of_nat n) (requested ++ seqZ page (Z.of_nat n)).
Proof.
  revert page repos requested.
  induction n as [|n IH]; intros page repos requested Hfull.
  - simpl. unfold pagesFrom. simpl. rewrite !app_nil_r, Z.add_0_r.
    reflexivity.
  - destruct (Hfull page ltac:(lia)) as (pageRepos & Hpage & Hlen).
    change (S n + fuel)%nat with (S (n + fuel)).
    cbn [ListOrgRepos_loop]. cbv zeta. rewrite Hpage.
    replace (length pageRepos =? 0)%nat with false
      by (symmetry; apply Nat.eqb_neq; lia).
    replace (Z.of_nat (length pageRepos) <? 100) with false
      by (symmetry; apply Z.ltb_ge; lia).
    rewrite IH by (intros k Hk; apply Hfull; lia).
    rewrite pagesFrom_S, seqZ_from. unfold pageOf at 1. rewrite Hpage.
    rewrite <- !app_assoc. simpl.
    replace (page + 1 + Z.of_nat n) with (page + Z.of_nat (S n)) by lia.
    reflexivity.
Qed.

(** X9.  [ListOrgRepos] asks for the pages 1, 2, ... one at a time and
    stops at the first page with fewer than 100 repositories: after [n]
    full pages and such a page, it returns the full names of all of them,
    in order, having asked for exactly [n + 1] pages; [n + 1] rounds are
    needed and suffice. *)
Theorem ListOrgRepos_stops_at_first_short_page
  (n : nat) (lastPage : list repo)
  (Hfull : forall k, 1 <= k <= Z.of_nat n -> fullPage rest_org_repos org k)
  (Hlast : rest_org_repos org 100 (Z.of_nat n + 1) = Decoded lastPage)
  (Hshort : (length lastPage < 100)%nat) :
  forall fuel,
    ListOrgRepos rest_org_repos fuel org
    = if (n <? fuel)%nat then
        Some (seqZ 1 (Z.of_nat n + 1),
              Ok (map FullName
                      (pagesFrom rest_org_repos org 1 n ++ lastPage)))
      else None.
Proof.
  intros fuel. unfold ListOrgRepos.
  assert (Hseq : seqZ 1 (Z.of_nat n + 1)
                 = seqZ 1 (Z.of_nat n) ++ [1 + Z.of_nat n]).
  { replace (Z.of_nat n + 1) with (Z.of_nat (S n)) by lia. apply seqZ_S. }
  assert (Hpage : rest_org_repos org 100 (1 + Z.of_nat n) = Decoded lastPage)
    by (rewrite <- Hlast; f_equal; lia).
  destruct (Nat.ltb_spec n fuel) as [Hlt | Hge].
  - rewrite Hseq.
    replace fuel with (n + S (fuel - S n))%nat by lia.
    rewrite ListOrgRepos_loop_full by (intros k Hk; apply Hfull; lia).
    cbn [ListOrgRepos_loop]. cbv zeta. rewrite Hpage.
    destruct (Nat.eqb_spec (length lastPage) 0) as [Hzero | Hsome].
    + apply nil_length_inv in Hzero. subst lastPage.
      rewrite app_nil_r. reflexivity.
    + replace (Z.of_nat (length lastPage) <? 100) with true
        by (symmetry; apply Z.ltb_lt; lia).
      reflexivity.
  - replace n with (fuel + (n - fuel))%nat in Hfull by lia.
    replace fuel with (fuel + 0)%nat at 1 by lia.
    rewrite ListOrgRepos_loop_full by (intros k Hk; apply Hfull; lia).
    reflexivity.
Qed.

(** X10.  A page that fails ends [ListOrgRepos] with the error of that
    request: the repositories of the full pages before it are not
    returned. *)
Theorem ListOrgRepos_fails_with_the_first_failed_page
  (n : nat) (e : error)
  (Hfull : forall k, 1 <= k <= Z.of_nat n -> fullPage rest_org_repos org k)
  (Hfail : pageError (rest_org_repos org 100 (Z.of_nat n + 1)) = Some e) :
  forall fuel,
    (n < fuel)%nat ->
    ListOrgRepos rest_org_repos fuel org
    = Some (seqZ 1 (Z.of_nat n + 1), Err e).
Proof.
  intros fuel Hlt. unfold ListOrgRepos.
  assert (Hseq : seqZ 1 (Z.of_nat n + 1)
                 = seqZ 1 (Z.of_nat n) ++ [1 + Z.of_nat n]).
  { replace (Z.of_nat n + 1) with (Z.of_nat (S n)) by lia. apply seqZ_S. }
  rewrite Hseq.
  replace (Z.of_nat n + 1) with (1 + Z.of_nat n) in Hfail by lia.
  replace fuel with (n + S (fuel - S n))%nat by lia.
  rewrite ListOrgRepos_loop_full by (intros k Hk; apply Hfull; lia).
  cbn [ListOrgRepos_loop]. cbv zeta.
  destruct (rest_org_repos org 100 (1 + Z.of_nat n)) as [e' | e' | e' | ?];
    simpl in Hfail; try discriminate Hfail;
    injection Hfail as <-; reflexivity.
Qed.

(** X11.  If every page is full, [ListOrgRepos] never returns: no number
    of rounds suffices. *)
Theorem ListOrgRepos_needs_a_short_page
  (Hfull : forall k, 1 <= k -> fullPage rest_org_repos org k) :
  forall fuel, ListOrgRepos rest_org_repos fuel org = None.
Proof.
  intros fuel. unfold ListOrgRepos.
  replace fuel with (fuel + 0)%nat by lia.
  rewrite ListOrgRepos_loop_full by (intros k Hk; apply Hfull; lia).
  reflexivity.
Qed.

End ListOrgReposFacts.


Lemma ListOrgRepos_stops_at_first_short_page_witness :
  ((forall k, 1 <= k <= Z.of_nat 1 -> fullPage samplePages "acme" k)
   /\ samplePages "acme" 100 (Z.of_nat 1 + 1)
      = Decoded [mkRepo "acme/b"; mkRepo "acme/c"; mkRepo "acme/d"]
   /\ (length [mkRepo "acme/b"; mkRepo "acme/c"; mkRepo "acme/d"] < 100)%nat)
  /\ ListOrgRepos samplePages 5 "acme"
     = Some ([1; 2],
             Ok (replicate 100 "acme/a" ++ ["acme/b"; "acme/c"; "acme/d"])).
Proof.
  assert (Hfull : forall k, 1 <= k <= Z.of_nat 1 ->
                            fullPage samplePages "acme" k).
  { intros k Hk. assert (k = 1) as -> by lia.
    eexists. split; [reflexivity |]. rewrite length_replicate. lia. }
  assert (Hlast : samplePages "acme" 100 (Z.of_nat 1 + 1)
                  = Decoded [mkRepo "acme/b"; mkRepo "acme/c"; mkRepo "acme/d"])
    by reflexivity.
  assert (Hshort : (length [mkRepo "acme/b"; mkRepo "acme/c"; mkRepo "acme/d"]
                    < 100)%nat) by (simpl; lia).
  split; [repeat split; assumption |].
  rewrite (ListOrgRepos_stops_at_first_short_page
             samplePages "acme" 1 _ Hfull Hlast Hshort 5).
  reflexivity.
Defined.

Lemma ListOrgRepos_fails_with_the_first_failed_page_witness :
  ((forall k, 1 <= k <= Z.of_nat 1 -> fullPage samplePagesFailing "acme" k)
   /\ pageError (samplePagesFailing "acme" 100 (Z.of_nat 1 + 1))
      = Some (Wrapf "failed to list organization repositories"
                    (Errorf "HTTP 502"))
   /\ (1 < 5)%nat)
  /\ ListOrgRepos samplePagesFailing 5 "acme"
     = Some ([1; 2],
             Err (Wrapf "failed to list organization repositories"
                        (Errorf "HTTP 502"))).
Proof.
  assert (Hfull : forall k, 1 <= k <= Z.of_nat 1 ->
                            fullPage samplePagesFailing "acme" k).
  { intros k Hk. assert (k = 1) as -> by lia.
    eexists. split; [reflexivity |]. rewrite length_replicate. lia. }
  assert (Hfail : pageError (samplePagesFailing "acme" 100 (Z.of_nat 1 + 1))
                  = Some (Wrapf "failed to list organization repositories"
                                (Errorf "HTTP 502"))) by reflexivity.
  assert (Hfuel : (1 < 5)%nat) by lia.
  split; [repeat split; assumption |].
  exact (ListOrgRepos_fails_with_the_first_failed_page
           samplePagesFailing "acme" 1 _ Hfull Hfail 5 Hfuel).
Defined.

Lemma ListOrgRepos_needs_a_short_page_witness :
  (forall k, 1 <= k -> fullPage samplePagesFull "acme" k)
  /\ ListOrgRepos samplePagesFull 1000 "acme" = None.
Proof.
  assert (Hfull : forall k, 1 <= k -> fullPage samplePagesFull "acme" k).
  { intros k _. eexists. split; [reflexivity |].
    rewrite length_replicate. lia. }
  split; [exact Hfull |].
  exact (ListOrgRepos_needs_a_short_page samplePagesFull "acme" Hfull 1000).
Defined.

(** ** The cells of the table *)

Lemma string_length_app (a b : string) :
  String.length (a +:+ b) = (String.length a + String.length b)%nat.
Proof. induction a as [|c a IH]; simpl; [reflexivity | rewrite IH; reflexivity]. Qed.

Lemma substring_0_length (n : nat) (s : string) :
  String.length (String.substring 0 n s) = Nat.min n (String.length s).
Proof.
  revert s. induction n as [|n IH]; intros [|c s]; simpl; try reflexivity.
  rewrite IH. reflexivity.
Qed.

Lemma substring_0_prefix (n : nat) (s : string) :
  exists rest, s = String.substring 0 n s +:+ rest.
Proof.
  revert s. induction n as [|n IH]; intros [|c s]; simpl.
  - exists "". reflexivity.
  - exists (String c s). reflexivity.
  - exists "". reflexivity.
  - destruct (IH s) as [rest Hrest]. exists rest.
    change (String c s = String c (String.substring 0 n s +:+ rest)).
    rewrite <- Hrest. reflexivity.
Qed.

(** X12.  The URL cell is never empty and never longer than 50 bytes: a
    missing URL shows as a dash, a URL of up to 50 bytes as it is, and a
    longer one as its first 47 bytes followed by three dots. *)
Theorem url_cell_fits_the_column (d : Delivery) :
  (1 <= String.length (Output.urlCell d) <= 50)%nat
  /\ (URL d = "" -> Output.urlCell d = "-")
  /\ (URL d <> "" -> (String.length (URL d) <= 50)%nat ->
      Output.urlCell d = URL d)
  /\ ((50 < String.length (URL d))%nat ->
      exists shown rest,
        URL d = shown +:+ rest /\ String.length shown = 47%nat
        /\ Output.urlCell d = shown +:+ "...").
Proof.
  unfold Output.urlCell.
  destruct (String.eqb_spec (URL d) "") as [Hempty | Hurl].
  - rewrite Hempty. simpl. repeat split; try lia; try congruence.
  - destruct (Nat.ltb_spec 50 (String.length (URL d))) as [Hlong | Hfits].
    + assert (Hshown : String.length (String.substring 0 47 (URL d)) = 47%nat)
        by (rewrite substring_0_length; lia).
      split; [rewrite string_length_app, Hshown; simpl; lia |].
      split; [congruence |]. split; [lia |]. intros _.
      destruct (substring_0_prefix 47 (URL d)) as [rest Hrest].
      exists (String.substring 0 47 (URL d)), rest.
      split; [exact Hrest |]. split; [exact Hshown | reflexivity].
    + split.
      * destruct (URL d); [congruence | simpl in *; lia].
      * split; [congruence |]. split; [reflexivity | lia].
Qed.

(** X13.  The status cell follows the failure predicate of the filters.  A
    delivery that [IsFailed] accepts is shown in red, one that
    [IsSuccessful] accepts in green below 300 and in yellow from 300 on,
    any other uncoloured; a delivery without a status text is a dash in
    all three cases, except that code 0 always reads "delivery failed".
    Neither this cell nor the action cell is ever empty. *)
Theorem status_cell_follows_the_failure_predicate (d : Delivery) :
  (Filter.IsFailed (StatusCode d) = true ->
   Output.statusCell d
   = if StatusCode d =? 0 then Output.red "delivery failed"
     else if String.eqb (Status d) "" then "-"
     else Output.red (Status d))
  /\ (Filter.IsSuccessful (StatusCode d) = true ->
      Output.statusCell d
      = if String.eqb (Status d) "" then "-"
        else if StatusCode d <? 300 then Output.green (Status d)
        else Output.yellow (Status d))
  /\ (Filter.IsFailed (StatusCode d) = false ->
      Filter.IsSuccessful (StatusCode d) = false ->
      Output.statusCell d
      = if String.eqb (Status d) "" then "-" else Status d)
  /\ Output.statusCell d <> ""
  /\ Output.actionCell d <> "".
Proof.
  unfold Filter.IsFailed, Filter.IsSuccessful, Output.statusCell,
    Output.actionCell.
  destruct (Z.eqb_spec (StatusCode d) 0) as [Hzero | Hcode];
    destruct (String.eqb_spec (Status d) "") as [Hnone | Hstatus];
    destruct (String.eqb_spec (Action d) "") as [Hnoact | Haction];
    destruct (Z.leb_spec 200 (StatusCode d));
    destruct (Z.ltb_spec (StatusCode d) 300);
    destruct (Z.leb_spec 400 (StatusCode d));
    destruct (Z.leb_spec 300 (StatusCode d));
    destruct (Z.ltb_spec (StatusCode d) 400);
    simpl; try lia;
    repeat split; intros; try reflexivity; try discriminate;
    try assumption; try lia.
Qed.

Lemma status_cell_follows_the_failure_predicate_witness :
  Filter.IsFailed (StatusCode (sampleDelivery 1 "a/x" 10 0 "push")) = true
  /\ Output.statusCell (sampleDelivery 1 "a/x" 10 0 "push")
     = Output.red "delivery failed".
Proof.
  assert (Hfailed :
    Filter.IsFailed (StatusCode (sampleDelivery 1 "a/x" 10 0 "push")) = true)
    by reflexivity.
  split; [exact Hfailed |].
  exact (proj1 (status_cell_follows_the_failure_predicate
                  (sampleDelivery 1 "a/x" 10 0 "push")) Hfailed).
Defined.

Lemma url_cell_fits_the_column_witness :
  URL (with_URL (sampleDelivery 1 "a/x" 10 200 "push") "") = ""
  /\ Output.urlCell (with_URL (sampleDelivery 1 "a/x" 10 200 "push") "")
     = "-".
Proof.
  assert (Hurl : URL (with_URL (sampleDelivery 1 "a/x" 10 200 "push") "")
                 = "") by reflexivity.
  split; [exact Hurl |].
  exact (proj1 (proj2 (url_cell_fits_the_column
                         (with_URL (sampleDelivery 1 "a/x" 10 200 "push") "")))
               Hurl).
Defined.

(** ** The deliveries of the JSON output *)

Lemma displayDelivery_idemp (d : Delivery) :
  Output.displayDelivery (Output.displayDelivery d)
  = Output.displayDelivery d.
Proof.
  unfold Output.displayDelivery.
  destruct ((StatusCode d =? 0) && String.eqb (Status d) "") eqn:H.
  - simpl. apply andb_true_iff in H as [-> _]. reflexivity.
  - rewrite H. reflexivity.
Qed.

(** X14.  [FormatJSON] encodes as many deliveries as it is given, in their
    order, each with all its fields but the status, which becomes
    "delivery failed" exactly when the code is 0 and the text is empty; no
    encoded delivery has code 0 and an empty status; and the deliveries it
    encodes are a fixed point of the transformation. *)
Theorem json_output_fills_in_missing_status
  (json_Encode : list Delivery -> string * option error)
  (deliveries : list Delivery) :
  Output.FormatJSON json_Encode deliveries
  = json_Encode (Output.displayDeliveries deliveries)
  /\ Forall2
       (fun d shown =>
          shown = Output.with_Status d (Status shown)
          /\ (Status shown
              = if (StatusCode d =? 0) && String.eqb (Status d) ""
                then "delivery failed" else Status d))
       deliveries (Output.displayDeliveries deliveries)
  /\ Forall (fun shown => StatusCode shown = 0 -> Status shown <> "")
            (Output.displayDeliveries deliveries)
  /\ Output.displayDeliveries (Output.displayDeliveries deliveries)
     = Output.displayDeliveries deliveries.
Proof.
  split; [reflexivity |]. unfold Output.displayDeliveries.
  split; [| split].
  - induction deliveries as [|d ds IH]; simpl; constructor; [| exact IH].
    unfold Output.displayDelivery.
    destruct ((StatusCode d =? 0) && String.eqb (Status d) "");
      simpl; split; try reflexivity.
    destruct d; reflexivity.
  - induction deliveries as [|d ds IH]; simpl; constructor; [| exact IH].
    unfold Output.displayDelivery.
    destruct (Z.eqb_spec (StatusCode d) 0) as [Hzero | Hcode];
      destruct (String.eqb_spec (Status d) "") as [Hnone | Hstatus];
      simpl; intros H; try discriminate; try assumption; congruence.
  - rewrite map_map. apply map_ext. intros d. apply displayDelivery_idemp.
Qed.

(** ** [processRepository] *)

Section ProcessRepositoryFacts.
Variable unicodeLower : string -> string.
Variable rest_hooks : string -> result (list Hook).
Variable rest_deliveries : string -> Z -> Z -> result (list Delivery).
Variable cfg : Config.Config.

Lemma processHook_eq (repo : string) (hook : Hook)
  (log : list Cmd.event) (allDeliveries : list Delivery) :
  Cmd.processHook unicodeLower rest_deliveries cfg repo
                  (log, allDeliveries) hook
  = if eligible unicodeLower cfg hook
    then (log ++ hookEvents rest_deliveries repo hook,
          allDeliveries ++ hookDeliveries rest_deliveries repo hook)
    else (log, allDeliveries).
Proof.
  unfold Cmd.processHook, eligible, hookEvents, hookDeliveries.
  destruct (Config.nonempty (Config.Filter cfg)
            && negb (MatchesFilter unicodeLower hook (Config.Filter cfg)));
    simpl; [reflexivity |].
  destruct (ListRepoHookDeliveries rest_deliveries repo (Hook_ID hook) 100)
    as [deliveries | e]; simpl.
  - reflexivity.
  - rewrite app_nil_r, <- app_assoc. reflexivity.
Qed.

Lemma processHooks_eq (repo : string) (hooks : list Hook)
  (log : list Cmd.event) (allDeliveries : list Delivery) :
  Cmd.processHooks unicodeLower rest_deliveries cfg repo hooks
                   (log, allDeliveries)
  = (log ++ concat (map (hookEvents rest_deliveries repo)
                        (List.filter (eligible unicodeLower cfg) hooks)),
     allDeliveries
     ++ concat (map (hookDeliveries rest_deliveries repo)
                    (List.filter (eligible unicodeLower cfg) hooks))).
Proof.
  unfold Cmd.processHooks.
  revert log allDeliveries.
  induction hooks as [|hook hooks IH]; intros log allDeliveries.
  - simpl. rewrite !app_nil_r. reflexivity.
  - cbn [fold_left List.filter]. rewrite processHook_eq.
    destruct (eligible unicodeLower cfg hook).
    + rewrite IH. cbn [map concat]. rewrite <- !app_assoc. reflexivity.
    + apply IH.
Qed.

Lemma MatchesFilter_MatchesPattern (hook : Hook) (pattern : string) :
  MatchesFilter unicodeLower hook pattern
  = Filter.MatchesPattern unicodeLower (GetTargetURL hook) pattern.
Proof. reflexivity. Qed.

Lemma eligible_MatchesPattern (hook : Hook) :
  eligible unicodeLower cfg hook = true ->
  Filter.MatchesPattern unicodeLower (GetTargetURL hook) (Config.Filter cfg)
  = true.
Proof.
  unfold eligible, Config.nonempty.
  rewrite <- MatchesFilter_MatchesPattern.
  destruct (String.eqb_spec (Config.Filter cfg) "") as [Hnone | Hsome]; simpl.
  - intros _. unfold MatchesFilter. rewrite Hnone. reflexivity.
  - rewrite negb_involutive. intros H. exact H.
Qed.

Lemma processRepository_eq (repo : string) :
  (forall e,
      rest_hooks repo = Err e ->
      Cmd.processRepository unicodeLower rest_hooks rest_deliveries cfg repo
      = ([Cmd.CallListRepoWebhooks repo],
         Err (Wrapf "failed to list webhooks"
                    (Wrapf "failed to list repository webhooks" e))))
  /\ (forall hooks,
        rest_hooks repo = Ok hooks ->
        Cmd.processRepository unicodeLower rest_hooks rest_deliveries cfg repo
        = (Cmd.CallListRepoWebhooks repo
           :: concat (map (hookEvents rest_deliveries repo) (List.filter (eligible unicodeLower cfg) hooks)),
           Ok (concat (map (hookDeliveries rest_deliveries repo)
                           (List.filter (eligible unicodeLower cfg) hooks))))).
Proof.
  unfold Cmd.processRepository, ListRepoWebhooks. split.
  - intros e ->. reflexivity.
  - intros hooks ->. destruct hooks as [|hook hooks]; [reflexivity |].
    change (length (hook :: hooks) =? 0)%nat with false. cbv iota.
    rewrite processHooks_eq. reflexivity.
Qed.

(** X15.  [processRepository] fails only when the hooks cannot be listed.
    Otherwise it asks once, in order, for the deliveries of each hook that
    passes the URL pre-filter, and returns the deliveries of the hooks
    that answered, in that order; a hook that does not answer costs a
    warning and its own deliveries, nothing else. *)
Theorem processRepository_takes_each_matching_hook_once (repo : string) :
  (forall e,
      rest_hooks repo = Err e ->
      Cmd.processRepository unicodeLower rest_hooks rest_deliveries cfg repo
      = ([Cmd.CallListRepoWebhooks repo],
         Err (Wrapf "failed to list webhooks"
                    (Wrapf "failed to list repository webhooks" e))))
  /\ (forall hooks,
        rest_hooks repo = Ok hooks ->
        Cmd.processRepository unicodeLower rest_hooks rest_deliveries cfg repo
        = (Cmd.CallListRepoWebhooks repo
           :: concat (map (hookEvents rest_deliveries repo) (List.filter (eligible unicodeLower cfg) hooks)),
           Ok (concat (map (hookDeliveries rest_deliveries repo)
                           (List.filter (eligible unicodeLower cfg) hooks))))).
Proof. exact (processRepository_eq repo). Qed.

(** X16.  Every delivery that [processRepository] returns carries the
    repository it was asked for, the identifier and the target URL of one
    of the hooks of that repository, and a URL that the filter of the
    configuration accepts. *)
Theorem processRepository_deliveries_match_the_filter
  (repo : string) (log : list Cmd.event) (deliveries : list Delivery)
  (Hresult :
     Cmd.processRepository unicodeLower rest_hooks rest_deliveries cfg repo
     = (log, Ok deliveries)) :
  exists hooks,
    rest_hooks repo = Ok hooks
    /\ Forall
         (fun d =>
            Repository d = repo
            /\ (exists hook,
                   hook ∈ hooks /\ HookID d = Hook_ID hook
                   /\ URL d = GetTargetURL hook)
            /\ Filter.MatchesPattern unicodeLower (URL d) (Config.Filter cfg)
               = true)
         deliveries.
Proof.
  destruct (processRepository_eq repo)
    as [Herr Hok].
  destruct (rest_hooks repo) as [hooks | e] eqn:Hhooks.
  - exists hooks. split; [reflexivity |].
    rewrite (Hok hooks eq_refl) in Hresult.
    injection Hresult as _ <-.
    apply Forall_forall. intros d Hd.
    apply list_elem_of_In, in_concat in Hd as (ds & Hds & Hd).
    apply in_map_iff in Hds as (hook & <- & Hhook).
    apply filter_In in Hhook as [Hhook Heligible].
    unfold hookDeliveries, ListRepoHookDeliveries in Hd. cbv zeta in Hd.
    destruct (rest_deliveries repo (Hook_ID hook) _) as [listed | e];
      [| destruct Hd].
    rewrite map_map in Hd. apply in_map_iff in Hd as (d0 & <- & _).
    simpl. split; [reflexivity |]. split.
    + exists hook. split; [apply list_elem_of_In; exact Hhook |].
      split; reflexivity.
    + apply eligible_MatchesPattern. exact Heligible.
  - rewrite (Herr e eq_refl) in Hresult. discriminate Hresult.
Qed.

End ProcessRepositoryFacts.

(** ** The two fan-outs as calls *)

Lemma pool_completes {Item Msg Acc : Type} (fetch : Item -> Msg)
  (onErrors : Msg -> bool) (collect : Acc -> Msg -> Acc) (empty : Acc)
  (items : list Item) (maxConcurrent : nat) :
  (0 < maxConcurrent)%nat ->
  exists sched s,
    Pool.exec fetch onErrors collect items sched
              (Pool.init empty items maxConcurrent) = Some s
    /\ Pool.mainPhase s = Pool.Returned.
Proof.
  intros Hpos.
  eapply (invariant_completes fetch onErrors collect empty items
                              maxConcurrent Hpos);
    [apply Nat.le_refl | apply invariant_init].
Qed.

Lemma pool_returned {Item Msg Acc : Type} (fetch : Item -> Msg)
  (onErrors : Msg -> bool) (collect : Acc -> Msg -> Acc) (empty : Acc)
  (items : list Item) (maxConcurrent : nat) (sched : list Pool.choice)
  (s : Pool.state Item Msg Acc) :
  Pool.exec fetch onErrors collect items sched
            (Pool.init empty items maxConcurrent) = Some s ->
  Pool.mainPhase s = Pool.Returned ->
  exists order,
    order ≡ₚ items
    /\ Pool.collected s = fold_left collect (map fetch order) empty.
Proof.
  intros Hexec Hret.
  assert (Hreach : Pool.reachable fetch onErrors collect empty items
                                  maxConcurrent s)
    by (exists sched; exact Hexec).
  destruct (invariant_reachable _ _ _ _ _ _ _ Hreach)
    as (done & onR & onE & Hinv).
  destruct (invariant_returned _ _ _ _ _ _ _ _ _ Hinv Hret)
    as (Hperm & Hcol & _).
  exists done. split; assumption.
Qed.

(** X17.  Once the repositories are listed, [processOrganization] does not
    fail: some interleaving of its goroutines runs it to its return, and
    under every interleaving that does it returns the deliveries of the
    repositories that could be processed, in the order in which their
    results arrived, and has written one warning for each of the others.
    If the listing fails it returns that error, wrapped, and starts
    nothing. *)
Theorem processOrganization_fails_only_on_the_listing
  (ListOrgRepos : string -> result (list string))
  (fetchRepository : string -> result (list Delivery)) (org : string) :
  (forall e schedule,
      ListOrgRepos org = Err e ->
      Cmd.processOrganization ListOrgRepos fetchRepository schedule org
      = Some ([Cmd.CallListOrgRepos org],
              Err (Wrapf "failed to list organization repositories" e)))
  /\ (forall repos,
        ListOrgRepos org = Ok repos ->
        (exists schedule out,
            Cmd.processOrganization ListOrgRepos fetchRepository schedule org
            = Some out)
        /\ (forall schedule log outcome,
               Cmd.processOrganization ListOrgRepos fetchRepository
                                       schedule org
               = Some (log, outcome) ->
               exists order,
                 order ≡ₚ repos
                 /\ outcome
                    = Ok (concat (repoPayloads fetchRepository order))
                 /\ log
                    = Cmd.CallListOrgRepos org
                      :: repoWarnings fetchRepository order)).
Proof.
  unfold Cmd.processOrganization. split.
  - intros e schedule ->. reflexivity.
  - intros repos ->. split.
    + destruct (Nat.eqb_spec (length repos) 0) as [Hnone | Hsome].
      * exists [], ([Cmd.CallListOrgRepos org], Ok []). reflexivity.
      * destruct (pool_completes (Cmd.organizationWorker fetchRepository)
                    (fun _ => false) Cmd.organizationCollect ([], [])
                    repos Cmd.organizationMaxConcurrent)
          as (sched & s & Hexec & Hret);
          [unfold Cmd.organizationMaxConcurrent; lia |].
        exists sched.
        change (Cmd.organizationExec fetchRepository repos sched
                                     (Cmd.organizationPool repos) = Some s)
          in Hexec.
        rewrite Hexec, Hret.
        destruct (Pool.collected s) as [allDeliveries warnings].
        eexists. reflexivity.
    + intros schedule log outcome.
      destruct (Nat.eqb_spec (length repos) 0) as [Hnone | Hsome].
      * intros [= <- <-]. apply nil_length_inv in Hnone. subst repos.
        exists []. split; [reflexivity |]. split; reflexivity.
      * destruct (Cmd.organizationExec _ _ _ _) as [s |] eqn:Hexec;
          [| discriminate].
        destruct (Pool.mainPhase s) eqn:Hret; try discriminate.
        destruct (pool_returned _ _ _ _ _ _ _ _ Hexec Hret)
          as (order & Hperm & Hcol).
        rewrite organizationCollect_fold in Hcol. simpl in Hcol.
        rewrite Hcol. intros [= <- <-].
        exists order. split; [exact Hperm |]. split; reflexivity.
Qed.

(** X18.  [fetchDeliveryDetails] never fails and never alters a delivery
    beyond its URL: some interleaving runs it to its return, and under
    every interleaving that does, what it returns are deliveries it was
    given, each with the URL of its detail in place of its own, in the
    order in which the details arrived; a delivery whose detail cannot be
    fetched is left out and costs one warning.  [isOrg] makes no
    difference. *)
Theorem fetchDeliveryDetails_only_replaces_urls
  (rest_detail : string -> Z -> Z -> result Delivery)
  (deliveries : list Delivery) (isOrg : bool) :
  (exists schedule out,
      Cmd.fetchDeliveryDetails rest_detail schedule deliveries isOrg
      = Some out)
  /\ (forall schedule log outcome,
         Cmd.fetchDeliveryDetails rest_detail schedule deliveries isOrg
         = Some (log, outcome) ->
         exists order detailed,
           order ≡ₚ deliveries
           /\ outcome = Ok detailed
           /\ detailed = detailPayloads rest_detail order
           /\ log = detailWarnings rest_detail order
           /\ (length detailed + length log = length deliveries)%nat
           /\ Forall (fun d' =>
                        exists d, d ∈ deliveries /\ d' = with_URL d (URL d'))
                     detailed)
  /\ (forall schedule,
         Cmd.fetchDeliveryDetails rest_detail schedule deliveries isOrg
         = Cmd.fetchDeliveryDetails rest_detail schedule deliveries
                                    (negb isOrg)).
Proof.
  unfold Cmd.fetchDeliveryDetails. split; [| split; [| reflexivity]].
  - destruct (Nat.eqb_spec (length deliveries) 0) as [Hnone | Hsome].
    + exists [], ([], Ok deliveries). reflexivity.
    + destruct (pool_completes (Cmd.detailWorker rest_detail)
                  Cmd.detailOnErrors Cmd.detailCollect ([], [])
                  deliveries Cmd.detailMaxConcurrent)
        as (sched & s & Hexec & Hret);
        [unfold Cmd.detailMaxConcurrent; lia |].
      exists sched.
      change (Cmd.detailExec rest_detail deliveries sched
                             (Cmd.detailPool deliveries) = Some s)
        in Hexec.
      rewrite Hexec, Hret.
      destruct (Pool.collected s) as [detailed warnings].
      eexists. reflexivity.
  - intros schedule log outcome Hcall.
    assert (Hshape : exists order,
               order ≡ₚ deliveries
               /\ outcome = Ok (detailPayloads rest_detail order)
               /\ log = detailWarnings rest_detail order).
    { destruct (Nat.eqb_spec (length deliveries) 0) as [Hnone | Hsome].
      - injection Hcall as <- <-. apply nil_length_inv in Hnone.
        subst deliveries. exists []. split; [reflexivity |].
        split; reflexivity.
      - destruct (Cmd.detailExec _ _ _ _) as [s |] eqn:Hexec;
          [| discriminate].
        destruct (Pool.mainPhase s) eqn:Hret; try discriminate.
        destruct (pool_returned _ _ _ _ _ _ _ _ Hexec Hret)
          as (order & Hperm & Hcol).
        rewrite detailCollect_fold in Hcol. simpl in Hcol.
        rewrite Hcol in Hcall. injection Hcall as <- <-.
        exists order. split; [exact Hperm |]. split; reflexivity. }
    destruct Hshape as (order & Hperm & -> & ->).
    exists order, (detailPayloads rest_detail order).
    split; [exact Hperm |]. do 3 (split; [reflexivity |]). split.
    + destruct (omap_split_length
                  (fun d => match Cmd.detailWorker rest_detail d with
                            | Ok detailed => Some detailed
                            | Err _ => None
                            end)
                  (fun d => match Cmd.detailWorker rest_detail d with
                            | Ok _ => None
                            | Err e => Some (Cmd.WarnDetail e)
                            end)
                  (detailFails rest_detail) order) as [Hbad Hok].
      { intros x. unfold detailFails.
        destruct (Cmd.detailWorker rest_detail x); [| discriminate].
        intros _. split; [eexists; reflexivity | reflexivity]. }
      { intros x. unfold detailFails.
        destruct (Cmd.detailWorker rest_detail x); [discriminate |].
        intros _. split; [reflexivity | eexists; reflexivity]. }
      unfold detailPayloads, detailWarnings.
      rewrite Hbad, Hok, <- (Permutation_length Hperm).
      pose proof (filter_length (detailFails rest_detail) order). lia.
    + apply Forall_forall. intros d' Hd'.
      unfold detailPayloads in Hd'.
      apply list_elem_of_omap in Hd' as (d & Hd & Hworker).
      exists d. split; [rewrite <- Hperm; exact Hd |].
      unfold Cmd.detailWorker in Hworker.
      destruct (GetRepoHookDeliveryDetail _ _ _ _) as [detail | e];
        [| discriminate].
      injection Hworker as <-. reflexivity.
Qed.

(** ** The head limit never adds a delivery *)

Lemma groups_partition (deliveries : list Delivery)
  (m : gmap string (list Delivery)) :
  concat (map snd (map_to_list (fold_left Cmd.addToGroup deliveries m)))
  ≡ₚ concat (map snd (map_to_list m)) ++ deliveries.
Proof.
  revert m. induction deliveries as [|d ds IH]; intros m; simpl.
  - rewrite app_nil_r. reflexivity.
  - rewrite IH. unfold Cmd.addToGroup.
    assert (Hstep :
      concat (map snd (map_to_list
                (<[Repository d := default [] (m !! Repository d) ++ [d]]> m)))
      ≡ₚ concat (map snd (map_to_list m)) ++ [d]).
    { destruct (m !! Repository d) as [group |] eqn:Hgroup; simpl.
      - rewrite <- (insert_delete_eq m).
        rewrite (map_to_list_insert (delete (Repository d) m))
          by apply lookup_delete_eq.
        rewrite <- (map_to_list_delete m _ _ Hgroup). simpl.
        rewrite <- !app_assoc. apply Permutation_app_head.
        apply Permutation_app_comm.
      - rewrite (map_to_list_insert m) by exact Hgroup. simpl.
        apply Permutation_cons_append. }
    rewrite Hstep, <- app_assoc. reflexivity.
Qed.

Lemma concat_map_submseteq {A B : Type} (f g : A -> list B) (l : list A) :
  (forall x, f x ⊆+ g x) -> concat (map f l) ⊆+ concat (map g l).
Proof.
  intros Hfg. induction l as [|x l IH]; simpl; [reflexivity |].
  apply submseteq_app; [apply Hfg | exact IH].
Qed.

Lemma headOfGroup_submseteq (limit : Z) (group : list Delivery) :
  Cmd.headOfGroup limit group ⊆+ group.
Proof.
  unfold Cmd.headOfGroup. cbv zeta.
  apply sublist_submseteq, sublist_take.
Qed.

Lemma headOfGroup_all (limit : Z) (group : list Delivery) :
  Z.of_nat (length group) <= limit -> Cmd.headOfGroup limit group = group.
Proof.
  intros Hlen. unfold Cmd.headOfGroup. cbv zeta.
  destruct (Z.ltb_spec (Z.of_nat (length group)) limit);
    apply take_ge; lia.
Qed.

Lemma group_length (deliveries : list Delivery) (repo : string)
  (group : list Delivery) :
  Cmd.groupByRepository deliveries !! repo = Some group ->
  (length group <= length deliveries)%nat.
Proof.
  intros Hgroup.
  pose proof (groupByRepository_lookup deliveries repo) as Heq.
  rewrite Hgroup in Heq. simpl in Heq. rewrite Heq.
  pose proof (filter_length (inRepo repo) deliveries). lia.
Qed.

Lemma applyHeadLimit_submseteq (next : Z -> Z)
  (rangeOrder : gmap string (list Delivery) -> list (string * list Delivery))
  (deliveries : list Delivery) (limit : Z) (sortField : string)
  (ascending : bool) :
  (forall m, rangeOrder m ≡ₚ map_to_list m) ->
  exists result,
    Cmd.applyHeadLimit next rangeOrder deliveries limit sortField ascending
    = Some result
    /\ result ⊆+ deliveries
    /\ (limit <= 0 -> result = deliveries)
    /\ (Z.of_nat (length deliveries) <= limit -> result ≡ₚ deliveries).
Proof.
  intros Hrange. unfold Cmd.applyHeadLimit.
  destruct (Z.leb_spec limit 0) as [Hoff | Hon].
  - exists deliveries. repeat split; reflexivity.
  - cbv zeta. rewrite (fold_left_app_concat
                         (fun kv => Cmd.headOfGroup limit (snd kv))).
    simpl.
    destruct (ApplySort_spec next
                (concat (map (fun kv => Cmd.headOfGroup limit (snd kv))
                             (rangeOrder (Cmd.groupByRepository deliveries))))
                sortField ascending)
      as (result & Heq & Hperm & _).
    exists result. split; [exact Heq |].
    assert (Hheads :
      result ≡ₚ concat (map (fun kv => Cmd.headOfGroup limit (snd kv))
                            (map_to_list (Cmd.groupByRepository deliveries)))).
    { rewrite Hperm. apply concat_map_Permutation, Hrange. }
    assert (Hall :
      concat (map snd (map_to_list (Cmd.groupByRepository deliveries)))
      ≡ₚ deliveries).
    { unfold Cmd.groupByRepository. rewrite groups_partition.
      rewrite map_to_list_empty. reflexivity. }
    split; [| split; [lia |]].
    + rewrite Hheads.
      transitivity
        (concat (map snd (map_to_list (Cmd.groupByRepository deliveries))));
        [| apply Permutation_submseteq; exact Hall].
      apply (concat_map_submseteq
               (fun kv => Cmd.headOfGroup limit (snd kv)) snd).
      intros kv. apply headOfGroup_submseteq.
    + intros Hlen. rewrite Hheads.
      transitivity
        (concat (map snd (map_to_list (Cmd.groupByRepository deliveries))));
        [| exact Hall].
      assert (Hsame :
        map (fun kv => Cmd.headOfGroup limit (snd kv))
            (map_to_list (Cmd.groupByRepository deliveries))
        = map snd (map_to_list (Cmd.groupByRepository deliveries))).
      { apply map_ext_in. intros [repo group] Hin.
        apply list_elem_of_In, elem_of_map_to_list in Hin. simpl.
        apply headOfGroup_all.
        pose proof (group_length _ _ _ Hin). lia. }
      rewrite Hsame. reflexivity.
Qed.

(** X19.  [applyHeadLimit] never adds or repeats a delivery: what it
    returns is part of what it was given, counting repetitions.  With a
    limit of 0 or less it returns its input as it is, and with a limit
    that is at least the number of deliveries it returns all of them,
    sorted. *)
Theorem head_limit_never_adds_deliveries (next : Z -> Z)
  (rangeOrder : gmap string (list Delivery) -> list (string * list Delivery))
  (deliveries : list Delivery) (limit : Z) (sortField : string)
  (ascending : bool)
  (Hrange : forall m, rangeOrder m ≡ₚ map_to_list m) :
  exists result,
    Cmd.applyHeadLimit next rangeOrder deliveries limit sortField ascending
    = Some result
    /\ result ⊆+ deliveries
    /\ (limit <= 0 -> result = deliveries)
    /\ (Z.of_nat (length deliveries) <= limit -> result ≡ₚ deliveries).
Proof. apply applyHeadLimit_submseteq. exact Hrange. Qed.

Lemma head_limit_never_adds_deliveries_witness :
  (forall m : gmap string (list Delivery), map_to_list m ≡ₚ map_to_list m)
  /\ exists result,
      Cmd.applyHeadLimit (fun r => r) map_to_list sevenDeliveries 1
                         "timestamp" false = Some result
      /\ result ⊆+ sevenDeliveries.
Proof.
  assert (Hrange : forall m : gmap string (list Delivery),
             map_to_list m ≡ₚ map_to_list m) by reflexivity.
  split; [exact Hrange |].
  destruct (head_limit_never_adds_deliveries
              (fun r => r) map_to_list sevenDeliveries 1 "timestamp" false
              Hrange) as (result & Heq & Hsub & _).
  exists result. split; assumption.
Defined.

(** ** [run] from end to end *)

Lemma sortAndLimit_sound (next : Z -> Z)
  (rangeOrder : gmap string (list Delivery) -> list (string * list Delivery))
  (cfg : Config.Config) (deliveries : list Delivery) :
  (forall m, rangeOrder m ≡ₚ map_to_list m) ->
  exists out,
    Cmd.sortAndLimit next rangeOrder cfg deliveries = Some out
    /\ out ⊆+ deliveries
    /\ sortedBy (lessFor (fst (Config.GetSortConfig cfg))
                         (snd (Config.GetSortConfig cfg))) out
    /\ (Config.Head cfg <= 0 -> out ≡ₚ deliveries).
Proof.
  intros Hrange. unfold Cmd.sortAndLimit.
  destruct (Config.GetSortConfig cfg) as [sortField ascending]. simpl.
  destruct (ApplySort_spec next deliveries sortField ascending)
    as (sorted & Heq & Hperm & Hsorted).
  rewrite Heq.
  destruct (Z.ltb_spec 0 (Config.Head cfg)) as [Hon | Hoff].
  - destruct (applyHeadLimit_spec next rangeOrder sorted (Config.Head cfg)
                sortField ascending Hrange Hon)
      as (out & Hout & _ & Hs).
    destruct (applyHeadLimit_submseteq next rangeOrder sorted
                (Config.Head cfg) sortField ascending Hrange)
      as (out' & Hout' & Hsub & _).
    assert (out' = out) by congruence. subst out'.
    exists out. split; [exact Hout |].
    split; [rewrite <- Hperm; exact Hsub |]. split; [exact Hs | lia].
  - exists sorted. split; [reflexivity |].
    split; [rewrite Hperm; reflexivity |].
    split; [exact Hsorted | intros _; exact Hperm].
Qed.

Section RunFacts.
Variable unicodeLower : string -> string.
Variable xorshift_Next : Z -> Z.
Variable rangeOrder :
  gmap string (list Delivery) -> list (string * list Delivery).
Variable time_Parse : string -> result Time.
Variable NewClient : option error.
Variable rest_hooks : string -> result (list Hook).
Variable rest_deliveries : string -> Z -> Z -> result (list Delivery).
Variable processOrganization :
  string -> list Cmd.event * result (list Delivery).
Variable fetchDeliveryDetails :
  list Delivery -> list Cmd.event * list Delivery.

Local Abbreviation run :=
  (Cmd.run unicodeLower xorshift_Next rangeOrder time_Parse NewClient
           rest_hooks rest_deliveries processOrganization
           fetchDeliveryDetails).

(** What a run that returns deliveries went through. *)
Lemma run_Ok_inv (sinceStr untilStr : string) (cfg : Config.Config)
  (log : list Cmd.event) (out : list Delivery) :
  run sinceStr untilStr cfg = Some (log, Ok out) ->
  exists since until log1 fetched,
    Config.ParseDateRange time_Parse sinceStr untilStr = Ok (since, until)
    /\ Config.Validate (Config.with_Since_Until cfg since until) = None
    /\ NewClient = None
    /\ (if Config.nonempty (Config.Org cfg)
        then processOrganization (Config.Org cfg)
        else Cmd.processRepository
               unicodeLower rest_hooks rest_deliveries
               (Config.with_Since_Until cfg since until) (Config.Repo cfg))
       = (log1, Ok fetched)
    /\ Cmd.sortAndLimit xorshift_Next rangeOrder
         (Config.with_Since_Until cfg since until)
         (if Config.nonempty (Config.Filter cfg)
          then Cmd.urlFilter unicodeLower
                 (Config.with_Since_Until cfg since until)
                 (snd (fetchDeliveryDetails
                         (Cmd.failedFilter
                            (Config.with_Since_Until cfg since until)
                            (Cmd.dateRangeFilter
                               (Config.with_Since_Until cfg since until)
                               fetched))))
          else Cmd.failedFilter
                 (Config.with_Since_Until cfg since until)
                 (Cmd.dateRangeFilter
                    (Config.with_Since_Until cfg since until) fetched))
       = Some out.
Proof.
  unfold Cmd.run.
  destruct (Config.ParseDateRange time_Parse sinceStr untilStr)
    as [[since until] | e]; [| discriminate].
  cbv zeta.
  destruct (Config.Validate _) eqn:Hvalid; [discriminate |].
  destruct NewClient; [discriminate |].
  change (Config.Org (Config.with_Since_Until cfg since until))
    with (Config.Org cfg).
  change (Config.Repo (Config.with_Since_Until cfg since until))
    with (Config.Repo cfg).
  change (Config.Filter (Config.with_Since_Until cfg since until))
    with (Config.Filter cfg).
  destruct (if Config.nonempty (Config.Org cfg) then _ else _)
    as [log1 [fetched | e]] eqn:Hfetch; [| discriminate].
  intros Hrun. exists since, until, log1, fetched.
  split; [reflexivity |]. split; [exact Hvalid |].
  split; [reflexivity |]. split; [exact Hfetch |].
  destruct (Config.nonempty (Config.Filter cfg)).
  - destruct (fetchDeliveryDetails _) as [log' detailed]. simpl.
    destruct (Cmd.sortAndLimit _ _ _ _); [| discriminate].
    injection Hrun as _ <-. reflexivity.
  - destruct (Cmd.sortAndLimit _ _ _ _); [| discriminate].
    injection Hrun as _ <-. reflexivity.
Qed.

(** X20.  Whatever [run] hands to the output has passed every filter that
    is switched on, and is in the configured order: each delivery lies in
    the date range, is a failed one if [--failed] is set, and has a URL
    that the [--filter] pattern accepts.  This supposes of the detail
    fetches only what [fetchDeliveryDetails] guarantees: that they return
    deliveries they were given, with another URL. *)
Theorem run_output_passes_every_filter
  (sinceStr untilStr : string) (cfg : Config.Config)
  (log : list Cmd.event) (out : list Delivery)
  (Hrange : forall m, rangeOrder m ≡ₚ map_to_list m)
  (Hdetails :
     forall deliveries,
       Forall (fun d' => exists d,
                   d ∈ deliveries /\ d' = with_URL d (URL d'))
              (snd (fetchDeliveryDetails deliveries)))
  (Hrun : run sinceStr untilStr cfg = Some (log, Ok out)) :
  exists since until,
    Config.ParseDateRange time_Parse sinceStr untilStr = Ok (since, until)
    /\ Forall
         (fun d =>
            Filter.InRange (DeliveredAt d) since until = true
            /\ (Config.Failed cfg = true ->
                Filter.IsFailed (StatusCode d) = true)
            /\ Filter.MatchesPattern unicodeLower (URL d) (Config.Filter cfg)
               = true)
         out
    /\ sortedBy (lessFor (fst (Config.GetSortConfig cfg))
                         (snd (Config.GetSortConfig cfg))) out.
Proof.
  apply run_Ok_inv in Hrun
    as (since & until & log1 & fetched & Hparse & _ & _ & _ & Hsort).
  exists since, until. split; [exact Hparse |].
  match type of Hsort with
  | Cmd.sortAndLimit _ _ _ ?filtered = _ =>
      destruct (sortAndLimit_sound xorshift_Next rangeOrder
                  (Config.with_Since_Until cfg since until) filtered Hrange)
        as (out' & Hout' & Hsub & Hsorted & _)
  end.
  rewrite Hsort in Hout'. injection Hout' as <-.
  split; [| exact Hsorted].
  assert (Hbase : forall d,
             d ∈ Cmd.failedFilter (Config.with_Since_Until cfg since until)
                   (Cmd.dateRangeFilter
                      (Config.with_Since_Until cfg since until) fetched) ->
             Filter.InRange (DeliveredAt d) since until = true
             /\ (Config.Failed cfg = true ->
                 Filter.IsFailed (StatusCode d) = true)).
  { intros d. unfold Cmd.failedFilter, Cmd.dateRangeFilter. simpl.
    destruct (Config.Failed cfg).
    - intros Hd. apply list_elem_of_In, filter_In in Hd as [Hd Hfailed].
      apply filter_In in Hd as [_ Hdate]. split; [exact Hdate |].
      intros _. exact Hfailed.
    - intros Hd. apply list_elem_of_In, filter_In in Hd as [_ Hdate].
      split; [exact Hdate | discriminate]. }
  apply Forall_forall. intros d Hd.
  apply (elem_of_submseteq _ _ _ Hd) in Hsub. clear Hd.
  unfold Config.nonempty in Hsub.
  destruct (String.eqb_spec (Config.Filter cfg) "") as [Hnone | Hsome];
    simpl in Hsub.
  - destruct (Hbase d Hsub) as [Hdate Hfailed].
    split; [exact Hdate |]. split; [exact Hfailed |].
    unfold Filter.MatchesPattern. rewrite Hnone. reflexivity.
  - unfold Cmd.urlFilter in Hsub.
    apply list_elem_of_In, filter_In in Hsub as [Hd Hurl].
    simpl in Hurl.
    pose proof (Hdetails
                  (Cmd.failedFilter (Config.with_Since_Until cfg since until)
                     (Cmd.dateRangeFilter
                        (Config.with_Since_Until cfg since until) fetched)))
      as Hall.
    rewrite Forall_forall in Hall.
    destruct (Hall d (proj2 (list_elem_of_In _ _) Hd)) as (d0 & Hd0 & Heq).
    destruct (Hbase d0 Hd0) as [Hdate Hfailed].
    rewrite Heq. simpl. split; [exact Hdate |]. split; [exact Hfailed |].
    exact Hurl.
Qed.

(** X21.  Without a URL filter and without a head limit, [run] loses
    nothing: what it hands to the output is, up to the order, the fetched
    deliveries that lie in the date range and, if [--failed] is set, have
    failed. *)
Theorem run_without_limit_keeps_every_match
  (sinceStr untilStr : string) (cfg : Config.Config)
  (log : list Cmd.event) (out : list Delivery)
  (Hfilter : Config.Filter cfg = "")
  (Hhead : Config.Head cfg = 0)
  (Hrun : run sinceStr untilStr cfg = Some (log, Ok out)) :
  exists since until log1 fetched,
    Config.ParseDateRange time_Parse sinceStr untilStr = Ok (since, until)
    /\ (if Config.nonempty (Config.Org cfg)
        then processOrganization (Config.Org cfg)
        else Cmd.processRepository
               unicodeLower rest_hooks rest_deliveries
               (Config.with_Since_Until cfg since until) (Config.Repo cfg))
       = (log1, Ok fetched)
    /\ out
       ≡ₚ List.filter
            (fun d =>
               Filter.InRange (DeliveredAt d) since until
               && (negb (Config.Failed cfg)
                   || Filter.IsFailed (StatusCode d)))
            fetched.
Proof.
  apply run_Ok_inv in Hrun
    as (since & until & log1 & fetched & Hparse & _ & _ & Hfetch & Hsort).
  exists since, until, log1, fetched.
  split; [exact Hparse |]. split; [exact Hfetch |].
  rewrite Hfilter in Hsort. simpl in Hsort.
  unfold Cmd.sortAndLimit in Hsort.
  destruct (Config.GetSortConfig _) as [sortField ascending].
  destruct (ApplySort_spec xorshift_Next
              (Cmd.failedFilter (Config.with_Since_Until cfg since until)
                 (Cmd.dateRangeFilter
                    (Config.with_Since_Until cfg since until) fetched))
              sortField ascending)
    as (sorted & Heq & Hperm & _).
  rewrite Heq in Hsort. simpl in Hsort. rewrite Hhead in Hsort.
  simpl in Hsort. injection Hsort as <-.
  rewrite Hperm. unfold Cmd.failedFilter, Cmd.dateRangeFilter. simpl.
  destruct (Config.Failed cfg); simpl.
  - clear. induction fetched as [|d ds IH]; simpl; [reflexivity |].
    destruct (Filter.InRange (DeliveredAt d) since until); simpl;
      [| exact IH].
    destruct (Filter.IsFailed (StatusCode d)); [rewrite IH |]; reflexivity
      || exact IH.
  - apply Permutation_refl'. apply filter_ext. intros d.
    rewrite andb_true_r. reflexivity.
Qed.

End RunFacts.

(** ** The errors of [run] *)

Section RunErrors.
Variable unicodeLower : string -> string.
Variable xorshift_Next : Z -> Z.
Variable rangeOrder :
  gmap string (list Delivery) -> list (string * list Delivery).
Variable time_Parse : string -> result Time.
Variable NewClient : option error.
Variable rest_hooks : string -> result (list Hook).
Variable rest_deliveries : string -> Z -> Z -> result (list Delivery).
Variable processOrganization :
  string -> list Cmd.event * result (list Delivery).
Variable fetchDeliveryDetails :
  list Delivery -> list Cmd.event * list Delivery.

(** X22.  With dates that parse and a configuration that validates, [run]
    stops at the first failure with its error and without a further call:
    where no client can be created, nothing is listed; where, for a single
    repository, the hooks cannot be listed, no delivery is asked for; and
    where the organization cannot be processed, its error is returned as
    it is. *)
Theorem run_stops_at_the_first_failure
  (sinceStr untilStr : string) (cfg : Config.Config)
  (since until : option Time)
  (Hparse :
     Config.ParseDateRange time_Parse sinceStr untilStr = Ok (since, until))
  (Hvalid : Config.Validate (Config.with_Since_Until cfg since until) = None) :
  let run :=
    Cmd.run unicodeLower xorshift_Next rangeOrder time_Parse NewClient
            rest_hooks rest_deliveries processOrganization
            fetchDeliveryDetails sinceStr untilStr cfg in
  (forall e,
      NewClient = Some e ->
      run = Some ([Cmd.CallNewClient],
                  Err (Wrapf "failed to create GitHub client" e)))
  /\ (forall e,
         NewClient = None -> Config.Org cfg = "" ->
         rest_hooks (Config.Repo cfg) = Err e ->
         run = Some ([Cmd.CallNewClient;
                      Cmd.CallListRepoWebhooks (Config.Repo cfg)],
                     Err (Wrapf "failed to list webhooks"
                                (Wrapf "failed to list repository webhooks"
                                       e))))
  /\ (forall log e,
         NewClient = None -> Config.Org cfg <> "" ->
         processOrganization (Config.Org cfg) = (log, Err e) ->
         run = Some (Cmd.CallNewClient :: log, Err e)).
Proof.
  cbv zeta. unfold Cmd.run. rewrite Hparse. cbv zeta. rewrite Hvalid.
  change (Config.Org (Config.with_Since_Until cfg since until))
    with (Config.Org cfg).
  change (Config.Repo (Config.with_Since_Until cfg since until))
    with (Config.Repo cfg).
  split; [| split].
  - intros e ->. reflexivity.
  - intros e -> Horg Hhooks. rewrite Horg. simpl.
    unfold Cmd.processRepository, ListRepoWebhooks. rewrite Hhooks.
    reflexivity.
  - intros log e -> Horg Hfetch. apply nonempty_true in Horg.
    rewrite Horg, Hfetch. reflexivity.
Qed.

End RunErrors.

Lemma run_stops_at_the_first_failure_witness :
  (Config.ParseDateRange (fun _ => Ok 0) "" "" = Ok (None, None)
   /\ Config.Validate
        (Config.with_Since_Until sampleFilterConfig None None) = None)
  /\ Cmd.run (fun s => s) (fun r => r) map_to_list (fun _ => Ok 0)
             (Some (Errorf "gh: not logged in"))
             sampleHooks sampleHookListing
             (fun _ => ([], Ok fiveDeliveries)) (fun ds => ([], ds))
             "" "" sampleFilterConfig
     = Some ([Cmd.CallNewClient],
             Err (Wrapf "failed to create GitHub client"
                        (Errorf "gh: not logged in"))).
Proof.
  assert (Hparse : Config.ParseDateRange (fun _ => Ok 0) "" ""
                   = Ok (None, None)) by reflexivity.
  assert (Hvalid : Config.Validate
                     (Config.with_Since_Until sampleFilterConfig None None)
                   = None) by reflexivity.
  split; [split; assumption |].
  exact (proj1 (run_stops_at_the_first_failure
                  (fun s => s) (fun r => r) map_to_list (fun _ => Ok 0)
                  (Some (Errorf "gh: not logged in"))
                  sampleHooks sampleHookListing
                  (fun _ => ([], Ok fiveDeliveries)) (fun ds => ([], ds))
                  "" "" sampleFilterConfig None None Hparse Hvalid)
               _ eq_refl).
Defined.

(** ** The properties above on the samples *)

Lemma processRepository_takes_each_matching_hook_once_witness :
  sampleHooks "a/x"
  = Ok [mkHook 7 "" true "https://hooks.slack.com/a";
        mkHook 8 "" true "https://ci.example.org/b"]
  /\ Cmd.processRepository (fun s => s) sampleHooks sampleHookListing
                           (sampleConfig false 0 "") "a/x"
     = ([Cmd.CallListRepoWebhooks "a/x";
         Cmd.CallListRepoHookDeliveries "a/x" 7 100;
         Cmd.CallListRepoHookDeliveries "a/x" 8 100;
         Cmd.WarnHookDeliveries
           8 (Wrapf "failed to list deliveries for repo hook"
                    (Errorf "HTTP 500"))],
        Ok [with_URL (with_Repository_HookID
                        (sampleDelivery 1 "" 10 200 "push") "a/x" 7)
                     "https://hooks.slack.com/a"]).
Proof.
  assert (Hhooks : sampleHooks "a/x"
                   = Ok [mkHook 7 "" true "https://hooks.slack.com/a";
                         mkHook 8 "" true "https://ci.example.org/b"])
    by reflexivity.
  split; [exact Hhooks |].
  rewrite (proj2 (processRepository_takes_each_matching_hook_once
                    (fun s => s) sampleHooks sampleHookListing
                    (sampleConfig false 0 "") "a/x") _ Hhooks).
  reflexivity.
Defined.

Lemma processRepository_deliveries_match_the_filter_witness :
  Cmd.processRepository (fun s => s) sampleHooks sampleHookListing
                        sampleFilterConfig "a/x"
  = ([Cmd.CallListRepoWebhooks "a/x";
      Cmd.CallListRepoHookDeliveries "a/x" 7 100],
     Ok [with_URL (with_Repository_HookID
                     (sampleDelivery 1 "" 10 200 "push") "a/x" 7)
                  "https://hooks.slack.com/a"])
  /\ exists hooks,
      sampleHooks "a/x" = Ok hooks
      /\ Forall
           (fun d =>
              Repository d = "a/x"
              /\ (exists hook,
                     hook ∈ hooks /\ HookID d = Hook_ID hook
                     /\ URL d = GetTargetURL hook)
              /\ Filter.MatchesPattern (fun s => s) (URL d)
                                       (Config.Filter sampleFilterConfig)
                 = true)
           [with_URL (with_Repository_HookID
                        (sampleDelivery 1 "" 10 200 "push") "a/x" 7)
                     "https://hooks.slack.com/a"].
Proof.
  assert (Hresult :
    Cmd.processRepository (fun s => s) sampleHooks sampleHookListing
                          sampleFilterConfig "a/x"
    = ([Cmd.CallListRepoWebhooks "a/x";
        Cmd.CallListRepoHookDeliveries "a/x" 7 100],
       Ok [with_URL (with_Repository_HookID
                       (sampleDelivery 1 "" 10 200 "push") "a/x" 7)
                    "https://hooks.slack.com/a"])) by reflexivity.
  split; [exact Hresult |].
  exact (processRepository_deliveries_match_the_filter
           (fun s => s) sampleHooks sampleHookListing sampleFilterConfig
           "a/x" _ _ Hresult).
Defined.

Lemma processOrganization_fails_only_on_the_listing_witness :
  ((fun _ : string => Ok sampleRepos) "acme" = Ok sampleRepos
   /\ Cmd.processOrganization (fun _ => Ok sampleRepos) sampleFetchRepository
                              sampleSchedule "acme"
      = Some ([Cmd.CallListOrgRepos "acme";
               Cmd.WarnRepository "a/y" (Errorf "failed to list webhooks")],
              Ok [sampleDelivery 1 "a/x" 10 200 "push";
                  sampleDelivery 1 "a/z" 10 200 "push"]))
  /\ exists order,
      order ≡ₚ sampleRepos
      /\ Ok [sampleDelivery 1 "a/x" 10 200 "push";
             sampleDelivery 1 "a/z" 10 200 "push"]
         = Ok (concat (repoPayloads sampleFetchRepository order))
      /\ [Cmd.CallListOrgRepos "acme";
          Cmd.WarnRepository "a/y" (Errorf "failed to list webhooks")]
         = Cmd.CallListOrgRepos "acme"
           :: repoWarnings sampleFetchRepository order.
Proof.
  assert (Hlist : (fun _ : string => Ok sampleRepos) "acme" = Ok sampleRepos)
    by reflexivity.
  assert (Hcall :
    Cmd.processOrganization (fun _ => Ok sampleRepos) sampleFetchRepository
                            sampleSchedule "acme"
    = Some ([Cmd.CallListOrgRepos "acme";
             Cmd.WarnRepository "a/y" (Errorf "failed to list webhooks")],
            Ok [sampleDelivery 1 "a/x" 10 200 "push";
                sampleDelivery 1 "a/z" 10 200 "push"]))
    by (vm_compute; reflexivity).
  split; [split; assumption |].
  exact (proj2 (proj2 (processOrganization_fails_only_on_the_listing
                         (fun _ => Ok sampleRepos) sampleFetchRepository
                         "acme") sampleRepos Hlist)
               sampleSchedule _ _ Hcall).
Defined.

Lemma fetchDeliveryDetails_only_replaces_urls_witness :
  Cmd.fetchDeliveryDetails sampleDetail sampleDetailSchedule twoDeliveries
                           true
  = Some ([Cmd.WarnDetail
             (Wrapf "failed to get delivery detail for"
                    (Wrapf "failed to get delivery detail"
                           (Errorf "HTTP 404")))],
          Ok [with_URL (sampleDelivery 1 "a/x" 10 200 "push")
                       "https://hooks.slack.com/a"])
  /\ exists order detailed,
      order ≡ₚ twoDeliveries
      /\ Ok [with_URL (sampleDelivery 1 "a/x" 10 200 "push")
                      "https://hooks.slack.com/a"]
         = Ok detailed
      /\ detailed = detailPayloads sampleDetail order
      /\ [Cmd.WarnDetail
            (Wrapf "failed to get delivery detail for"
                   (Wrapf "failed to get delivery detail"
                          (Errorf "HTTP 404")))]
         = detailWarnings sampleDetail order
      /\ (length detailed
          + length [Cmd.WarnDetail
                      (Wrapf "failed to get delivery detail for"
                             (Wrapf "failed to get delivery detail"
                                    (Errorf "HTTP 404")))]
          = length twoDeliveries)%nat
      /\ Forall (fun d' =>
                   exists d, d ∈ twoDeliveries /\ d' = with_URL d (URL d'))
                detailed.
Proof.
  assert (Hcall :
    Cmd.fetchDeliveryDetails sampleDetail sampleDetailSchedule twoDeliveries
                             true
    = Some ([Cmd.WarnDetail
               (Wrapf "failed to get delivery detail for"
                      (Wrapf "failed to get delivery detail"
                             (Errorf "HTTP 404")))],
            Ok [with_URL (sampleDelivery 1 "a/x" 10 200 "push")
                         "https://hooks.slack.com/a"]))
    by (vm_compute; reflexivity).
  split; [exact Hcall |].
  exact (proj1 (proj2 (fetchDeliveryDetails_only_replaces_urls
                         sampleDetail twoDeliveries true))
               sampleDetailSchedule _ _ Hcall).
Defined.

Lemma run_output_passes_every_filter_witness :
  ((forall m : gmap string (list Delivery), map_to_list m ≡ₚ map_to_list m)
   /\ (forall deliveries : list Delivery,
          Forall (fun d' => exists d,
                      d ∈ deliveries /\ d' = with_URL d (URL d'))
                 (snd ((fun ds : list Delivery =>
                          (@nil Cmd.event, ds)) deliveries)))
   /\ sampleRun "" "" (sampleConfig true 0 "code:asc")
      = Some ([Cmd.CallNewClient],
              Ok [sampleDelivery 2 "a/x" 40 0 "push";
                  sampleDelivery 4 "a/y" 20 500 "push"]))
  /\ exists since until,
      Config.ParseDateRange (fun _ => Ok 0) "" "" = Ok (since, until)
      /\ Forall
           (fun d =>
              Filter.InRange (DeliveredAt d) since until = true
              /\ (Config.Failed (sampleConfig true 0 "code:asc") = true ->
                  Filter.IsFailed (StatusCode d) = true)
              /\ Filter.MatchesPattern
                   (fun s => s) (URL d)
                   (Config.Filter (sampleConfig true 0 "code:asc"))
                 = true)
           [sampleDelivery 2 "a/x" 40 0 "push";
            sampleDelivery 4 "a/y" 20 500 "push"]
      /\ sortedBy
           (lessFor (fst (Config.GetSortConfig
                            (sampleConfig true 0 "code:asc")))
                    (snd (Config.GetSortConfig
                            (sampleConfig true 0 "code:asc"))))
           [sampleDelivery 2 "a/x" 40 0 "push";
            sampleDelivery 4 "a/y" 20 500 "push"].
Proof.
  assert (Hrange : forall m : gmap string (list Delivery),
             map_to_list m ≡ₚ map_to_list m) by reflexivity.
  assert (Hdetails : forall deliveries : list Delivery,
             Forall (fun d' => exists d,
                         d ∈ deliveries /\ d' = with_URL d (URL d'))
                    (snd ((fun ds : list Delivery =>
                             (@nil Cmd.event, ds)) deliveries))).
  { intros deliveries. apply Forall_forall. intros d Hd. exists d.
    split; [exact Hd | destruct d; reflexivity]. }
  assert (Hrun : sampleRun "" "" (sampleConfig true 0 "code:asc")
                 = Some ([Cmd.CallNewClient],
                         Ok [sampleDelivery 2 "a/x" 40 0 "push";
                             sampleDelivery 4 "a/y" 20 500 "push"]))
    by (vm_compute; reflexivity).
  split; [repeat split; assumption |].
  exact (run_output_passes_every_filter
           (fun s => s) (fun r => r) map_to_list (fun _ => Ok 0) None
           sampleHooks sampleHookListing
           (fun _ => ([], Ok fiveDeliveries)) (fun ds => ([], ds))
           "" "" (sampleConfig true 0 "code:asc") _ _
           Hrange Hdetails Hrun).
Defined.

Lemma run_without_limit_keeps_every_match_witness :
  (Config.Filter (sampleConfig true 0 "code:asc") = ""
   /\ Config.Head (sampleConfig true 0 "code:asc") = 0
   /\ sampleRun "" "" (sampleConfig true 0 "code:asc")
      = Some ([Cmd.CallNewClient],
              Ok [sampleDelivery 2 "a/x" 40 0 "push";
                  sampleDelivery 4 "a/y" 20 500 "push"]))
  /\ exists fetched,
      [sampleDelivery 2 "a/x" 40 0 "push";
       sampleDelivery 4 "a/y" 20 500 "push"]
      ≡ₚ List.filter (fun d => Filter.IsFailed (StatusCode d)) fetched
      /\ length fetched = 5%nat.
Proof.
  assert (Hfilter : Config.Filter (sampleConfig true 0 "code:asc") = "")
    by reflexivity.
  assert (Hhead : Config.Head (sampleConfig true 0 "code:asc") = 0)
    by reflexivity.
  assert (Hrun : sampleRun "" "" (sampleConfig true 0 "code:asc")
                 = Some ([Cmd.CallNewClient],
                         Ok [sampleDelivery 2 "a/x" 40 0 "push";
                             sampleDelivery 4 "a/y" 20 500 "push"]))
    by (vm_compute; reflexivity).
  split; [repeat split; assumption |].
  destruct (run_without_limit_keeps_every_match
              (fun s => s) (fun r => r) map_to_list (fun _ => Ok 0) None
              sampleHooks sampleHookListing
              (fun _ => ([], Ok fiveDeliveries)) (fun ds => ([], ds))
              "" "" (sampleConfig true 0 "code:asc") _ _
              Hfilter Hhead Hrun)
    as (since & until & log1 & fetched & Hparse & Hfetch & Hout).
  injection Hparse as <- <-. injection Hfetch as <- <-.
  exists fiveDeliveries. split; [exact Hout | reflexivity].
Defined.
